(** * The ability-text matcher table of optcDB: submatcher generators and
      rule registry

    A shallow embedding of [src/common/data/matchers.js]: the submatcher
    generators ([createTypesSubmatchers], [createClassesSubmatchers],
    [createOrbsSubmatchers], [createPositionsSubmatchers],
    [createUniversalSubmatcher]) and the loop that regroups the rule table
    into [window.matchers[target][group][name]], followed by [sortObj].

    The JavaScript the file runs on is modelled as far as that code uses it:
    strings as sequences of UTF-16 code units, ordinary objects as ordered
    own-property lists with the enumeration order of the language, and
    [RegExp] objects through a pattern parser and a backtracking matcher for
    the fragment of the pattern language documented below. *)

From Stdlib Require Import String Ascii.
From Stdlib Require Import List NArith ZArith QArith Arith Bool Lia Permutation Sorted.
Import ListNotations.
Close Scope Q_scope.

Set Implicit Arguments.

(** ** Strings *)

(** A JavaScript string is a sequence of 16-bit code units. *)
Definition code_unit := N.
Definition jsstring := list code_unit.

(** ASCII literals of the source, written as Rocq strings. *)
Fixpoint lit (s : string) : jsstring :=
  match s with
  | EmptyString => []
  | String a s' => N_of_ascii a :: lit s'
  end.

Fixpoint str_eqb (a b : jsstring) : bool :=
  match a, b with
  | [], [] => true
  | x :: a', y :: b' => (x =? y)%N && str_eqb a' b'
  | _, _ => false
  end.

(** [a < b] on strings: code unit by code unit, a proper prefix first. *)
Fixpoint str_ltb (a b : jsstring) : bool :=
  match a, b with
  | _, [] => false
  | [], _ :: _ => true
  | x :: a', y :: b' => (x <? y)%N || ((x =? y)%N && str_ltb a' b')
  end.

(** [s.startsWith(p)] *)
Fixpoint prefixb (p s : jsstring) : bool :=
  match p, s with
  | [], _ => true
  | x :: p', y :: s' => (x =? y)%N && prefixb p' s'
  | _ :: _, [] => false
  end.

(** ** Ordinary objects used as maps

    An object created by [{}] is the list of its own enumerable string-keyed
    properties in creation order.  [get] and [set] below read and write
    own properties.  The language reads [o[k]] through [Object.prototype]
    when [o] has no own property [k], and [o["__proto__"] = v] sets the
    prototype instead of a property: for the keys that [Object.prototype]
    defines ([inherited] below) [get] and [set] are not what the code
    does, and the statements that depend on it exclude them
    ([own_keys_only]). *)

Definition obj (V : Type) := list (jsstring * V).

Section Obj.
Variable V : Type.

(** [o[k]]; [None] is [undefined]. *)
Fixpoint get (o : obj V) (k : jsstring) : option V :=
  match o with
  | [] => None
  | (k', v) :: o' => if str_eqb k' k then Some v else get o' k
  end.

(** [o[k] = v]: an existing property keeps its place, a new one is
    created last. *)
Fixpoint set (o : obj V) (k : jsstring) (v : V) : obj V :=
  match o with
  | [] => [(k, v)]
  | (k', v') :: o' =>
      if str_eqb k' k then (k', v) :: o' else (k', v') :: set o' k v
  end.

(** An object literal [{ k1: v1, k2: v2, ... }]. *)
Definition obj_literal (props : list (jsstring * V)) : obj V :=
  fold_left (fun o kv => set o (fst kv) (snd kv)) props [].
End Obj.

(** *** Property enumeration order

    [Object.keys] and [for ... in] list the array-index keys first, in
    ascending numeric order, and then the other string keys in creation
    order (OrdinaryOwnPropertyKeys).  An array index is the canonical
    decimal spelling of an integer between 0 and 2^32 - 2. *)

Definition is_digit (c : code_unit) : bool := ((48 <=? c) && (c <=? 57))%N.

Fixpoint decimal_value (acc : N) (s : jsstring) : N :=
  match s with
  | [] => acc
  | c :: s' => decimal_value (10 * acc + (c - 48)) s'
  end.

Definition array_index (k : jsstring) : option N :=
  match k with
  | [] => None
  | c :: rest =>
      if forallb is_digit k
         && (negb (c =? 48)%N || match rest with [] => true | _ => false end)
         && (length k <=? 10)
         && (decimal_value 0 k <=? 4294967294)%N
      then Some (decimal_value 0 k) else None
  end.

Definition is_array_index (k : jsstring) : bool :=
  match array_index k with Some _ => true | None => false end.

Section Sorting.
Variable A : Type.
Variable ltb : A -> A -> bool.

(** Stable insertion: [x] goes before the first element greater than it. *)
Fixpoint insert_sorted (x : A) (l : list A) : list A :=
  match l with
  | [] => [x]
  | y :: l' => if ltb x y then x :: y :: l' else y :: insert_sorted x l'
  end.

Definition sort_by (l : list A) : list A :=
  fold_left (fun acc x => insert_sorted x acc) l [].
End Sorting.

Definition index_ltb (a b : jsstring) : bool :=
  match array_index a, array_index b with
  | Some x, Some y => (x <? y)%N
  | _, _ => false
  end.

(** [Object.keys(o)] *)
Definition keys (V : Type) (o : obj V) : list jsstring :=
  sort_by index_ltb (filter is_array_index (map fst o))
  ++ filter (fun k => negb (is_array_index k)) (map fst o).

(** [Object.entries(o)]: the properties in enumeration order. *)
Definition entries_of (V : Type) (o : obj V) : list (jsstring * V) :=
  flat_map (fun k => match get o k with Some v => [(k, v)] | None => [] end)
           (keys o).

(** [Array.prototype.sort()] without a comparator, on an array of strings:
    ascending by code units. *)
Definition array_sort (l : list jsstring) : list jsstring :=
  sort_by str_ltb l.

(** [arr.entries()] *)
Definition entries (A : Type) (l : list A) : list (nat * A) :=
  combine (seq 0 (length l)) l.

(** [arr.includes(x)] on an array of strings. *)
Definition includes (l : list jsstring) (x : jsstring) : bool :=
  existsb (str_eqb x) l.

(** The property names that every ordinary object inherits from
    [Object.prototype]. *)
Definition object_prototype_names : list jsstring :=
  [ lit "constructor"; lit "hasOwnProperty"; lit "isPrototypeOf";
    lit "propertyIsEnumerable"; lit "toLocaleString"; lit "toString";
    lit "valueOf"; lit "__proto__"; lit "__defineGetter__";
    lit "__defineSetter__"; lit "__lookupGetter__"; lit "__lookupSetter__" ].

(** [k] names a property of [Object.prototype]: [o[k]] is then not
    [undefined] on an object without an own property [k], and [get] and
    [set] are not the code's reads and writes. *)
Definition inherited (k : jsstring) : bool := includes object_prototype_names k.

(** ** Regular expressions

    The fragment of the pattern language that is modelled: pattern
    characters, [.], the escapes of syntax characters, [\t \n \v \f \r],
    the assertions [^ $ \b \B], lookahead [(?= )] and [(?! )], groups
    [( )] and [(?: )], alternation, and the quantifiers [* + ? {n} {n,}
    {n,m}] with their lazy forms.  Without the [u] flag a [}] or a []]
    that closes nothing is a pattern character.  Character classes,
    backreferences, named groups, lookbehind, a [{] that begins no
    quantifier, a quantifier on a lookahead and the [u] flag are outside
    the fragment: for such a pattern [parse] gives [None], whether the
    language accepts the pattern or not. *)

Inductive pattern : Type :=
| Empty
| Char (c : code_unit)
| Dot
| Seq (r1 r2 : pattern)
| Alt (r1 r2 : pattern)
| Repeat (r : pattern) (min : nat) (max : option nat) (greedy : bool)
| Group (capturing : bool) (r : pattern)
| Bol
| Eol
| WordBoundary (negated : bool)
| Lookahead (negated : bool) (r : pattern).

Record flags : Type := mkFlags {
  global : bool;
  ignoreCase : bool;
  multiline : bool;
  dotAll : bool;
  sticky : bool
}.

(** A position in the subject string: the text already consumed, latest code
    unit first, and the text that remains.  The end index of the standard's
    match state is the length of the first component. *)
Definition pos := (jsstring * jsstring)%type.

Inductive mres : Type :=
| Matched (y : pos)
| Failure
| OutOfFuel.

Definition ascii_upper (c : code_unit) : code_unit :=
  if ((97 <=? c) && (c <=? 122))%N then (c - 32)%N else c.

Definition is_line_terminator (c : code_unit) : bool :=
  ((c =? 10) || (c =? 13) || (c =? 8232) || (c =? 8233))%N.

Definition is_word_char (c : code_unit) : bool :=
  (((97 <=? c) && (c <=? 122)) || ((65 <=? c) && (c <=? 90))
   || ((48 <=? c) && (c <=? 57)) || (c =? 95))%N.

Definition head_is (p : code_unit -> bool) (s : jsstring) : bool :=
  match s with
  | c :: _ => p c
  | [] => false
  end.

(** RepeatMatcher: [mr] matches the quantified atom once.  An iteration that
    is not required and consumes nothing is refused.  Every iteration either
    uses up one of the required [min] or moves forward in the subject, so
    [min + |remaining text| + 1] units of fuel are never used up
    ([m_never_out_of_fuel] below). *)
Fixpoint repeat_matcher (mr : pos -> (pos -> mres) -> mres)
         (fuel min : nat) (max : option nat) (greedy : bool)
         (x : pos) (k : pos -> mres) : mres :=
  match fuel with
  | O => OutOfFuel
  | S fuel' =>
      match max with
      | Some O => k x
      | _ =>
          let d := fun y : pos =>
            if (min =? 0) && (length (snd y) =? length (snd x)) then Failure
            else repeat_matcher mr fuel' (pred min) (option_map pred max)
                                greedy y k in
          if negb (min =? 0) then mr x d
          else if greedy then
            match mr x d with
            | Failure => k x
            | z => z
            end
          else
            match k x with
            | Failure => mr x d
            | z => z
            end
      end
  end.

Section Engine.

(** The case table of the platform, restricted to single code units:
    [unicode_upper c] is the code unit of [String.fromCharCode(c)
    .toUpperCase()] when that string has length one, and [c] otherwise.
    Only its values outside ASCII are used. *)
Variable unicode_upper : code_unit -> code_unit.

(** Canonicalize, for patterns without the [u] flag. *)
Definition canonicalize (fl : flags) (ch : code_unit) : code_unit :=
  if ignoreCase fl then
    if (ch <? 128)%N then ascii_upper ch
    else
      let cu := unicode_upper ch in
      if (cu <? 128)%N then ch else cu
  else ch.

(** The matcher of a pattern, in continuation-passing style as in the
    standard: [m fl r x k] matches [r] at [x] and hands every candidate end
    position to [k], in the order of backtracking. *)
Fixpoint m (fl : flags) (r : pattern) (x : pos) (k : pos -> mres) : mres :=
  match r with
  | Empty => k x
  | Char c =>
      match snd x with
      | ch :: rest =>
          if (canonicalize fl ch =? canonicalize fl c)%N
          then k (ch :: fst x, rest) else Failure
      | [] => Failure
      end
  | Dot =>
      match snd x with
      | ch :: rest =>
          if dotAll fl || negb (is_line_terminator ch)
          then k (ch :: fst x, rest) else Failure
      | [] => Failure
      end
  | Seq r1 r2 => m fl r1 x (fun y => m fl r2 y k)
  | Alt r1 r2 =>
      match m fl r1 x k with
      | Failure => m fl r2 x k
      | z => z
      end
  | Repeat r' min max greedy =>
      repeat_matcher (m fl r') (min + length (snd x) + 1) min max greedy x k
  | Group _ r' => m fl r' x k
  | Bol =>
      match fst x with
      | [] => k x
      | c :: _ => if multiline fl && is_line_terminator c then k x else Failure
      end
  | Eol =>
      match snd x with
      | [] => k x
      | c :: _ => if multiline fl && is_line_terminator c then k x else Failure
      end
  | WordBoundary negated =>
      let a := head_is is_word_char (fst x) in
      let b := head_is is_word_char (snd x) in
      if xorb (xorb a b) negated then k x else Failure
  | Lookahead negated r' =>
      match m fl r' x (fun y => Matched y) with
      | Matched _ => if negated then Failure else k x
      | Failure => if negated then k x else Failure
      | OutOfFuel => OutOfFuel
      end
  end.

(** The search of RegExpBuiltinExec for a pattern that is not sticky: try
    the pattern at [x], then one code unit further, up to the end of the
    subject.  The result is the position where the match starts and the
    position where it ends. *)
Inductive sres : Type :=
| Found (start stop : pos)
| NotFound
| Stuck.

Fixpoint search (fl : flags) (r : pattern) (before rest : jsstring) : sres :=
  match m fl r (before, rest) (fun y => Matched y) with
  | Matched y => Found (before, rest) y
  | OutOfFuel => Stuck
  | Failure =>
      match rest with
      | [] => NotFound
      | c :: rest' => search fl r (c :: before) rest'
      end
  end.


(** *** Parsing a pattern

    The pattern source is read from left to right, one code unit at a
    time.  The parser keeps the groups that are open: for each, the
    alternatives that are finished and the terms of the alternative being
    read, latest first.  [None] means that the pattern is a syntax error or
    leaves the fragment. *)

Definition chr_is (a : ascii) (c : code_unit) : bool := (c =? N_of_ascii a)%N.

Inductive last_term : Type :=
| LNone    (* nothing that a quantifier could apply to *)
| LAtom    (* an atom *)
| LQuant.  (* a quantified atom: a [?] makes it lazy *)

Inductive gkind : Type :=
| GCapture
| GNonCapture
| GLook (negated : bool).

Record frame : Type := mkFrame {
  f_kind : gkind;
  f_alts : list pattern;
  f_terms : list pattern
}.

Inductive pmode : Type :=
| MNormal (l : last_term)
| MEscape
| MOpen
| MOpenQ
| MBraceMin (n : option nat)
| MBraceMax (n : nat) (mx : option nat).

Record pstate : Type := mkP {
  p_mode : pmode;
  p_frames : list frame
}.

(** Alternative :: Alternative Term *)
Fixpoint mk_seq (terms : list pattern) : pattern :=
  match terms with
  | [] => Empty
  | t :: earlier => Seq (mk_seq earlier) t
  end.

(** Disjunction :: Alternative | Disjunction *)
Definition mk_disj (f : frame) : pattern :=
  fold_left (fun acc a => Alt a acc) (f_alts f) (mk_seq (f_terms f)).

Definition close_group (k : gkind) (r : pattern) : pattern :=
  match k with
  | GCapture => Group true r
  | GNonCapture => Group false r
  | GLook negated => Lookahead negated r
  end.

Definition push_term (t : pattern) (l : last_term) (fs : list frame)
  : option pstate :=
  match fs with
  | f :: fs' =>
      Some (mkP (MNormal l)
                (mkFrame (f_kind f) (f_alts f) (t :: f_terms f) :: fs'))
  | [] => None
  end.

Definition push_frame (k : gkind) (fs : list frame) : pstate :=
  mkP (MNormal LNone) (mkFrame k [] [] :: fs).

Definition quantify (min : nat) (max : option nat) (fs : list frame)
  : option pstate :=
  match fs with
  | f :: fs' =>
      match f_terms f with
      | t :: ts =>
          Some (mkP (MNormal LQuant)
                    (mkFrame (f_kind f) (f_alts f)
                             (Repeat t min max true :: ts) :: fs'))
      | [] => None
      end
  | [] => None
  end.

Definition make_lazy (fs : list frame) : option pstate :=
  match fs with
  | f :: fs' =>
      match f_terms f with
      | Repeat t min max _ :: ts =>
          Some (mkP (MNormal LNone)
                    (mkFrame (f_kind f) (f_alts f)
                             (Repeat t min max false :: ts) :: fs'))
      | _ => None
      end
  | [] => None
  end.

Definition step_normal (l : last_term) (fs : list frame) (c : code_unit)
  : option pstate :=
  if chr_is "\" c then Some (mkP MEscape fs)
  else if chr_is "(" c then Some (mkP MOpen fs)
  else if chr_is ")" c then
    match fs with
    | f :: parent :: fs' =>
        Some (mkP (MNormal (match f_kind f with
                            | GLook _ => LNone
                            | _ => LAtom
                            end))
                  (mkFrame (f_kind parent) (f_alts parent)
                           (close_group (f_kind f) (mk_disj f)
                            :: f_terms parent) :: fs'))
    | _ => None
    end
  else if chr_is "|" c then
    match fs with
    | f :: fs' =>
        Some (mkP (MNormal LNone)
                  (mkFrame (f_kind f) (mk_seq (f_terms f) :: f_alts f) []
                   :: fs'))
    | [] => None
    end
  else if chr_is "*" c then
    match l with LAtom => quantify 0 None fs | _ => None end
  else if chr_is "+" c then
    match l with LAtom => quantify 1 None fs | _ => None end
  else if chr_is "?" c then
    match l with
    | LAtom => quantify 0 (Some 1) fs
    | LQuant => make_lazy fs
    | LNone => None
    end
  else if chr_is "{" c then
    match l with LAtom => Some (mkP (MBraceMin None) fs) | _ => None end
  else if chr_is "[" c then None
  else if chr_is "^" c then push_term Bol LNone fs
  else if chr_is "$" c then push_term Eol LNone fs
  else if chr_is "." c then push_term Dot LAtom fs
  else push_term (Char c) LAtom fs.

Definition is_syntax_char (c : code_unit) : bool :=
  chr_is "^" c || chr_is "$" c || chr_is "\" c || chr_is "." c || chr_is "*" c || chr_is "+" c
  || chr_is "?" c || chr_is "(" c || chr_is ")" c || chr_is "[" c || chr_is "]" c
  || chr_is "{" c || chr_is "}" c || chr_is "|" c.

Definition step_escape (fs : list frame) (c : code_unit) : option pstate :=
  if is_syntax_char c || chr_is "/" c then push_term (Char c) LAtom fs
  else if chr_is "b" c then push_term (WordBoundary false) LNone fs
  else if chr_is "B" c then push_term (WordBoundary true) LNone fs
  else if chr_is "t" c then push_term (Char 9%N) LAtom fs
  else if chr_is "n" c then push_term (Char 10%N) LAtom fs
  else if chr_is "v" c then push_term (Char 11%N) LAtom fs
  else if chr_is "f" c then push_term (Char 12%N) LAtom fs
  else if chr_is "r" c then push_term (Char 13%N) LAtom fs
  else None.

Definition digit_value (c : code_unit) : nat := N.to_nat (c - 48).

Definition step (st : pstate) (c : code_unit) : option pstate :=
  let fs := p_frames st in
  match p_mode st with
  | MNormal l => step_normal l fs c
  | MEscape => step_escape fs c
  | MOpen =>
      if chr_is "?" c then Some (mkP MOpenQ fs)
      else step_normal LNone (p_frames (push_frame GCapture fs)) c
  | MOpenQ =>
      if chr_is ":" c then Some (push_frame GNonCapture fs)
      else if chr_is "=" c then Some (push_frame (GLook false) fs)
      else if chr_is "!" c then Some (push_frame (GLook true) fs)
      else None
  | MBraceMin n =>
      if is_digit c then
        Some (mkP (MBraceMin
                     (Some (10 * match n with Some a => a | None => 0 end
                            + digit_value c))) fs)
      else
        match n with
        | Some a =>
            if chr_is "," c then Some (mkP (MBraceMax a None) fs)
            else if chr_is "}" c then quantify a (Some a) fs
            else None
        | None => None
        end
  | MBraceMax a mx =>
      if is_digit c then
        Some (mkP (MBraceMax a
                     (Some (10 * match mx with Some b => b | None => 0 end
                            + digit_value c))) fs)
      else if chr_is "}" c then
        match mx with
        | None => quantify a None fs
        | Some b => if a <=? b then quantify a (Some b) fs else None
        end
      else None
  end.

Fixpoint run (st : pstate) (src : jsstring) : option pstate :=
  match src with
  | [] => Some st
  | c :: src' =>
      match step st c with
      | Some st' => run st' src'
      | None => None
      end
  end.

Definition pstart : pstate := mkP (MNormal LNone) [mkFrame GNonCapture [] []].

Definition finish (st : pstate) : option pattern :=
  match p_mode st, p_frames st with
  | MNormal _, [f] => Some (mk_disj f)
  | _, _ => None
  end.

Definition parse (src : jsstring) : option pattern :=
  match run pstart src with
  | Some st => finish st
  | None => None
  end.

Fixpoint ncaptures (r : pattern) : nat :=
  match r with
  | Seq r1 r2 | Alt r1 r2 => ncaptures r1 + ncaptures r2
  | Repeat r' _ _ _ | Lookahead _ r' => ncaptures r'
  | Group capturing r' => (if capturing then 1 else 0) + ncaptures r'
  | _ => 0
  end.


(** *** RegExp objects *)

(** [original_source] is the pattern text that the constructor was given
    (the internal slot OriginalSource). *)
Record regexp : Type := mkRegExp {
  original_source : jsstring;
  re_flags : flags;
  compiled : pattern;
  lastIndex : nat
}.

(** EscapeRegExpPattern as V8 and SpiderMonkey implement it: a [/] outside
    a class that no backslash precedes gets a backslash; a line terminator
    is written as its escape, and a backslash in front of it is dropped;
    any other backslash is copied with the code unit after it. *)
Definition escape_line_terminator (c : code_unit) : jsstring :=
  if (c =? 10)%N then lit "\n"
  else if (c =? 13)%N then lit "\r"
  else if (c =? 8232)%N then lit "\u2028"
  else lit "\u2029".

Fixpoint escape_pattern (in_class : bool) (s : jsstring) : jsstring :=
  match s with
  | [] => []
  | c :: s' =>
      if (c =? 92)%N then
        match s' with
        | d :: s'' =>
            if is_line_terminator d then escape_pattern in_class s'
            else c :: d :: escape_pattern in_class s''
        | [] => [c]
        end
      else if is_line_terminator c then
        escape_line_terminator c ++ escape_pattern in_class s'
      else if (c =? 47)%N && negb in_class then
        92%N :: c :: escape_pattern in_class s'
      else if (c =? 91)%N then c :: escape_pattern true s'
      else if (c =? 93)%N then c :: escape_pattern false s'
      else c :: escape_pattern in_class s'
  end.

(** [R.source] *)
Definition source (R : regexp) : jsstring :=
  match original_source R with
  | [] => lit "(?:)"
  | src => escape_pattern false src
  end.

(** The flags argument: each of [g i m s y] at most once.  The flags
    [d u v] are outside the fragment. *)
Fixpoint parse_flags (fl : flags) (s : jsstring) : option flags :=
  match s with
  | [] => Some fl
  | c :: s' =>
      if chr_is "g" c then
        if global fl then None
        else parse_flags (mkFlags true (ignoreCase fl) (multiline fl)
                                  (dotAll fl) (sticky fl)) s'
      else if chr_is "i" c then
        if ignoreCase fl then None
        else parse_flags (mkFlags (global fl) true (multiline fl)
                                  (dotAll fl) (sticky fl)) s'
      else if chr_is "m" c then
        if multiline fl then None
        else parse_flags (mkFlags (global fl) (ignoreCase fl) true
                                  (dotAll fl) (sticky fl)) s'
      else if chr_is "s" c then
        if dotAll fl then None
        else parse_flags (mkFlags (global fl) (ignoreCase fl) (multiline fl)
                                  true (sticky fl)) s'
      else if chr_is "y" c then
        if sticky fl then None
        else parse_flags (mkFlags (global fl) (ignoreCase fl) (multiline fl)
                                  (dotAll fl) true) s'
      else None
  end.

Definition no_flags : flags := mkFlags false false false false false.

(** [new RegExp(src, flags)], where the model covers the call.  [None]:
    the call is not covered, either because the constructor throws a
    SyntaxError or because the pattern or the flags are outside the
    fragment; the model does not say which, and no statement below reads
    [None] as a throw. *)
Definition new_RegExp (src flagstr : jsstring) : option regexp :=
  match parse src, parse_flags no_flags flagstr with
  | Some r, Some fl => Some (mkRegExp src fl r 0)
  | _, _ => None
  end.

Definition set_lastIndex (R : regexp) (i : nat) : regexp :=
  mkRegExp (original_source R) (re_flags R) (compiled R) i.

Definition end_index (y : pos) : nat := length (fst y).

(** RegExpBuiltinExec: the match found, and the object with its
    [lastIndex] as the call leaves it. *)
Definition exec (R : regexp) (S : jsstring) : sres * regexp :=
  let fl := re_flags R in
  let stateful := global fl || sticky fl in
  let start := if stateful then lastIndex R else 0 in
  if length S <? start then
    (NotFound, if stateful then set_lastIndex R 0 else R)
  else
    let before := rev (firstn start S) in
    let rest := skipn start S in
    let result :=
      if sticky fl then
        match m fl (compiled R) (before, rest) (fun y => Matched y) with
        | Matched y => Found (before, rest) y
        | Failure => NotFound
        | OutOfFuel => Stuck
        end
      else search fl (compiled R) before rest in
    match result with
    | Found x y => (result, if stateful then set_lastIndex R (end_index y) else R)
    | NotFound => (result, if stateful then set_lastIndex R 0 else R)
    | Stuck => (result, R)
    end.

Definition is_found (s : sres) : bool :=
  match s with Found _ _ => true | _ => false end.

(** [R.test(S)] *)
Definition test (R : regexp) (S : jsstring) : bool * regexp :=
  let (result, R') := exec R S in (is_found result, R').

(** *** [String.prototype.replace] with a RegExp and a replacement string *)

(** GetSubstitution for a match without capture groups: [$$] is a dollar
    sign, [$&] the matched text, [$`] the text before the match, [$'] the
    text after it; any other [$] stands for itself. *)
Fixpoint get_substitution (matched before after template : jsstring)
  : jsstring :=
  match template with
  | [] => []
  | c :: t =>
      if chr_is "$" c then
        match t with
        | d :: t' =>
            if chr_is "$" d then d :: get_substitution matched before after t'
            else if chr_is "&" d then
              matched ++ get_substitution matched before after t'
            else if chr_is "`" d then
              before ++ get_substitution matched before after t'
            else if chr_is "'" d then
              after ++ get_substitution matched before after t'
            else c :: get_substitution matched before after t
        | [] => [c]
        end
      else c :: get_substitution matched before after t
  end.

(** The loop of RegExp.prototype[Symbol.replace] that collects the
    matches: one for a pattern that is not global; for a global one every
    match from [lastIndex] on, stepping over an empty match. *)
Fixpoint collect (fuel : nat) (R : regexp) (S : jsstring)
         (acc : list (pos * pos)) : option (list (pos * pos) * regexp) :=
  match fuel with
  | O => None
  | S fuel' =>
      match exec R S with
      | (Found x y, R') =>
          if global (re_flags R) then
            let R'' := if end_index y =? end_index x
                       then set_lastIndex R' (lastIndex R' + 1) else R' in
            collect fuel' R'' S (acc ++ [(x, y)])
          else Some (acc ++ [(x, y)], R')
      | (NotFound, R') => Some (acc, R')
      | (Stuck, _) => None
      end
  end.

(** The assembly of the result from the matches. *)
Fixpoint assemble (S template : jsstring) (results : list (pos * pos))
         (nextSourcePosition : nat) (accumulated : jsstring) : jsstring :=
  match results with
  | [] => accumulated ++ skipn nextSourcePosition S
  | (x, y) :: results' =>
      let position := end_index x in
      let matchLength := end_index y - position in
      let matched := firstn matchLength (skipn position S) in
      let replacement :=
        get_substitution matched (firstn position S)
                         (skipn (position + matchLength) S) template in
      if nextSourcePosition <=? position then
        assemble S template results' (position + matchLength)
                 (accumulated
                  ++ firstn (position - nextSourcePosition)
                            (skipn nextSourcePosition S)
                  ++ replacement)
      else assemble S template results' nextSourcePosition accumulated
  end.

(** [S.replace(R, template)] for a pattern without capture groups: the new
    string and the RegExp object as the call leaves it.  [None]: the
    pattern has capture groups, which the model of GetSubstitution does not
    cover. *)
Definition replace (S : jsstring) (R : regexp) (template : jsstring)
  : option (jsstring * regexp) :=
  if ncaptures (compiled R) =? 0 then
    let R0 := if global (re_flags R) then set_lastIndex R 0 else R in
    match collect (length S + 2) R0 S [] with
    | Some (results, R') => Some (assemble S template results 0 [], R')
    | None => None
    end
  else None.

(** A RegExp literal [/src/flags] of the source.  The literals below
    are all inside the fragment, so the default is never used. *)
Definition regexp_literal (src flagstr : string) : regexp :=
  match new_RegExp (lit src) (lit flagstr) with
  | Some R => R
  | None => mkRegExp (lit src) no_flags Empty 0
  end.


(** ** Submatchers and the generators *)

Inductive submatcher_type : Type :=
| number
| text
| option_
| separator.

Record submatcher : Type := mkSubmatcher {
  type : submatcher_type;
  description : option jsstring;
  regex : option regexp;
  radioGroup : option jsstring;
  cssClasses : option (list jsstring);
  groups : option (list nat)
}.

(** The tables of the module that the generators read. *)
Record module_state : Type := mkModule {
  orbKoMap : obj jsstring;
  typeKoMap : obj jsstring;
  classKoMap : obj jsstring;
  types : list jsstring;
  classes : list jsstring
}.

Definition module_init : module_state := {|
  orbKoMap := obj_literal
    [ (lit "STR", [0xD798]%N);                    (* 힘 *)
      (lit "DEX", [0xAE30]%N);                    (* 기 *)
      (lit "QCK", [0xC18D]%N);                    (* 속 *)
      (lit "PSY", [0xC2EC]%N);                    (* 심 *)
      (lit "INT", [0xC9C0]%N);                    (* 지 *)
      (lit "G", lit "G");
      (lit "RCV", [0xACE0; 0xAE30]%N);            (* 고기 *)
      (lit "TND", [0xC5F0]%N);                    (* 연 *)
      (lit "BOMB", [0xD3ED; 0xD0C4]%N);           (* 폭탄 *)
      (lit "EMPTY", [0xACF5; 0xBC31]%N);          (* 공백 *)
      (lit "SUPERBOMB", [0xC288; 0xD37C; 0x20; 0xD3ED; 0xD0C4]%N);
                                                  (* 슈퍼 폭탄 *)
      (lit "RAINBOW", [0xBB34; 0xC9C0; 0xAC1C]%N);(* 무지개 *)
      (lit "SEMLA", [0xC148; 0xB77C]%N);          (* 셈라 *)
      (lit "WANO", [0x548C]%N) ];                 (* 和 *)
  typeKoMap := obj_literal
    [ (lit "STR", [0xD798]%N);
      (lit "DEX", [0xAE30]%N);
      (lit "QCK", [0xC18D]%N);
      (lit "PSY", [0xC2EC]%N);
      (lit "INT", [0xC9C0]%N) ];
  classKoMap := obj_literal
    [ (lit "Fighter", [0xACA9; 0xD22C]%N);        (* 격투 *)
      (lit "Shooter", [0xC0AC; 0xACA9]%N);        (* 사격 *)
      (lit "Slasher", [0xCC38; 0xACA9]%N);        (* 참격 *)
      (lit "Striker", [0xD0C0; 0xACA9]%N);        (* 타격 *)
      (lit "Free Spirit", [0xC790; 0xC720]%N);    (* 자유 *)
      (lit "Cerebral", [0xBC15; 0xC2DD]%N);       (* 박식 *)
      (lit "Powerhouse", [0xAC15; 0xC778]%N);     (* 강인 *)
      (lit "Driven", [0xC57C; 0xC2EC]%N) ];       (* 야심 *)
  types := [lit "STR"; lit "DEX"; lit "QCK"; lit "PSY"; lit "INT"];
  classes := [lit "Fighter"; lit "Shooter"; lit "Slasher"; lit "Striker";
              lit "Free Spirit"; lit "Cerebral"; lit "Powerhouse";
              lit "Driven"]
|}.

(** 모두 *)
Definition modu : jsstring := [0xBAA8; 0xB450]%N.

(** A call runs on the state of the module and returns a value and the
    state it leaves.  [None]: the call is not covered by the model; it
    throws, or it builds a RegExp from a pattern outside the fragment. *)
Definition M (A : Type) : Type := module_state -> option (A * module_state).

Definition ret (A : Type) (a : A) : M A := fun s => Some (a, s).

Definition bind (A B : Type) (c : M A) (f : A -> M B) : M B :=
  fun s => match c s with
           | Some (a, s') => f a s'
           | None => None
           end.

Definition read (A : Type) (f : module_state -> A) : M A :=
  fun s => Some (f s, s).

(** The value of an expression that the model may not cover. *)
Definition throwing (A : Type) (o : option A) : M A :=
  fun s => match o with
           | Some a => Some (a, s)
           | None => None
           end.

Notation "x <- c ;; k" := (bind c (fun x => k))
  (at level 61, c at next level, right associativity).

(** [for (var x of l) body], threading the local variables [acc]. *)
Fixpoint for_of (A B : Type) (l : list A) (acc : B) (body : B -> A -> M B)
  : M B :=
  match l with
  | [] => ret acc
  | x :: l' => acc' <- body acc x ;; for_of l' acc' body
  end.

(** A parameter with a default value: the default stands in when the
    argument is left out ([None]). *)
Definition or_default (A : Type) (d : A) (o : option A) : A :=
  match o with
  | Some a => a
  | None => d
  end.

Definition createTypesSubmatchers (groups : list nat)
           (includeUniversal : option bool)
           (universalRegex : option jsstring) : M (list submatcher) :=
  let includeUniversal := or_default true includeUniversal in
  let universalRegex := or_default (lit "all|type") universalRegex in
  types <- read types ;;
  for_of (entries types) [] (fun result it =>
    let (i, type_) := it : nat * jsstring in
    typeKoMap <- read typeKoMap ;;
    re <- throwing
            (new_RegExp
               (lit "\[" ++ type_ ++ lit "\]"
                ++ (if includeUniversal then lit "|" ++ universalRegex
                    else []))
               (lit "i")) ;;
    ret (result ++ [ {|
      type := option_;
      description := get typeKoMap type_;
      regex := Some re;
      radioGroup := None;
      cssClasses :=
        Some [if i <? 3 then lit "min-width-4" else lit "min-width-6"];
      groups := Some groups
    |} ])).

Definition createClassesSubmatchers (groups : list nat)
           (includeUniversal : option bool)
           (universalRegex : option jsstring) : M (list submatcher) :=
  let includeUniversal := or_default true includeUniversal in
  let universalRegex := or_default modu universalRegex in
  classes <- read classes ;;
  for_of (entries classes) [] (fun result it =>
    let (i, class_) := it : nat * jsstring in
    classKoMap <- read classKoMap ;;
    re <- throwing
            (new_RegExp
               (class_
                ++ (if includeUniversal then lit "|" ++ universalRegex
                    else []))
               (lit "i")) ;;
    ret (result ++ [ {|
      type := option_;
      description := get classKoMap class_;
      regex := Some re;
      radioGroup := None;
      cssClasses := Some [lit "min-width-6"];
      groups := Some groups
    |} ])).

Definition createOrbsSubmatchers (orbs : list jsstring) (groups : list nat)
           (includeUniversal : option bool)
           (universalRegex : option jsstring) : M (list submatcher) :=
  let includeUniversal := or_default true includeUniversal in
  let universalRegex := or_default modu universalRegex in
  for_of (entries orbs) [] (fun result it =>
    let (i, orb) := it : nat * jsstring in
    let minWidth :=
      if length orb <=? 3 then lit "2"
      else if length orb <=? 5 then lit "3"
      else lit "6" in
    orbKoMap <- read orbKoMap ;;
    re <- throwing
            (new_RegExp
               (lit "\[" ++ orb ++ lit "\]"
                ++ (if includeUniversal then lit "|" ++ universalRegex
                    else []))
               (lit "i")) ;;
    ret (result ++ [ {|
      type := option_;
      description :=
        Some match get orbKoMap orb with
             | Some ((_ :: _) as d) => d
             | _ => orb
             end;
      regex := Some re;
      radioGroup := None;
      cssClasses := Some [lit "min-width-" ++ minWidth];
      groups := Some groups
    |} ])).

(** One [result.push({ type: "option", ... })] of
    [createPositionsSubmatchers]: the RegExp is built from the source
    [base] and the universal alternative. *)
Definition push_option (result : list submatcher)
           (description_ : option jsstring) (base : jsstring)
           (includeUniversal : bool) (universalRegex : jsstring)
           (cssClass : jsstring) (groups : list nat) : M (list submatcher) :=
  re <- throwing
          (new_RegExp
             (base ++ (if includeUniversal then lit "|" ++ universalRegex
                       else []))
             (lit "i")) ;;
  ret (result ++ [ {|
    type := option_;
    description := description_;
    regex := Some re;
    radioGroup := None;
    cssClasses := Some [cssClass];
    groups := Some groups
  |} ]).

Definition createPositionsSubmatchers (groups : list nat)
           (includeUniversal : option bool)
           (universalRegex : option jsstring)
           (excludedSubmatchers : option (list jsstring))
           (useRowsAndColumns : option bool) : M (list submatcher) :=
  let includeUniversal := or_default true includeUniversal in
  let universalRegex := or_default modu universalRegex in
  let excludedSubmatchers := or_default [] excludedSubmatchers in
  let useRowsAndColumns := or_default true useRowsAndColumns in
  let rows := [lit "Top"; lit "Middle"; lit "Bottom"] in
  let columns := [lit "Left"; lit "Right"] in
  let rowKoMap := obj_literal
    [ (lit "Top", [0xC0C1; 0xB2E8]%N);            (* 상단 *)
      (lit "Middle", [0xC911; 0xB2E8]%N);         (* 중단 *)
      (lit "Bottom", [0xD558; 0xB2E8]%N) ] in     (* 하단 *)
  let colKoMap := obj_literal
    [ (lit "Left", [0xC88C; 0xCE21]%N);           (* 좌측 *)
      (lit "Right", [0xC6B0; 0xCE21]%N) ] in      (* 우측 *)
  let result := [] in
  result <-
    (if useRowsAndColumns then
       result <- for_of (entries rows) result (fun result it =>
         let (i, row) := it : nat * jsstring in
         if negb (includes excludedSubmatchers row) then
           push_option result (get rowKoMap row) row
                       includeUniversal universalRegex
                       (lit "min-width-4") groups
         else ret result) ;;
       for_of (entries columns) result (fun result it =>
         let (i, col) := it : nat * jsstring in
         if negb (includes excludedSubmatchers col) then
           push_option result (get colKoMap col) col
                       includeUniversal universalRegex
                       (lit "min-width-6") groups
         else ret result)
     else
       (* 친구 선장 *)
       result <- push_option result
                   (Some [0xCE5C; 0xAD6C; 0x20; 0xC120; 0xC7A5]%N)
                   (lit "left column|top(?! right)|Friend Captain")
                   includeUniversal universalRegex
                   (lit "min-width-6") groups ;;
       (* 선장 *)
       result <- push_option result
                   (Some [0xC120; 0xC7A5]%N)
                   (lit "right column|top(?! left)|(?:^|(?!end ).{4})Captain")
                   includeUniversal universalRegex
                   (lit "min-width-6") groups ;;
       (* 중단 좌측 *)
       result <- push_option result
                   (Some [0xC911; 0xB2E8; 0x20; 0xC88C; 0xCE21]%N)
                   (lit "left column|middle(?! right)")
                   includeUniversal universalRegex
                   (lit "min-width-6") groups ;;
       (* 중단 우측 *)
       result <- push_option result
                   (Some [0xC911; 0xB2E8; 0x20; 0xC6B0; 0xCE21]%N)
                   (lit "right column|middle(?! left)")
                   includeUniversal universalRegex
                   (lit "min-width-6") groups ;;
       (* 하단 좌측 *)
       result <- push_option result
                   (Some [0xD558; 0xB2E8; 0x20; 0xC88C; 0xCE21]%N)
                   (lit "left column|bottom(?! right)")
                   includeUniversal universalRegex
                   (lit "min-width-6") groups ;;
       (* 하단 우측 *)
       push_option result
                   (Some [0xD558; 0xB2E8; 0x20; 0xC6B0; 0xCE21]%N)
                   (lit "right column|bottom(?! left)")
                   includeUniversal universalRegex
                   (lit "min-width-6") groups) ;;
  result <-
    (if negb (includes excludedSubmatchers (lit "Adjacent")) then
       (* 인접 *)
       push_option result (Some [0xC778; 0xC811]%N) (lit "adjacent")
                   includeUniversal universalRegex
                   (lit "min-width-4") groups
     else ret result) ;;
  result <-
    (if negb (includes excludedSubmatchers (lit "Selected")) then
       (* 선택 *)
       push_option result (Some [0xC120; 0xD0DD]%N) (lit "selected")
                   includeUniversal universalRegex
                   (lit "min-width-4") groups
     else ret result) ;;
  result <-
    (if negb (includes excludedSubmatchers (lit "Self")) then
       (* 자신 *)
       push_option result (Some [0xC790; 0xC2E0]%N) (lit "this|own|supported")
                   includeUniversal universalRegex
                   (lit "min-width-4") groups
     else ret result) ;;
  ret result.

Definition createUniversalSubmatcher (groups : list nat)
           (universalRegex : option jsstring) : M (list submatcher) :=
  let universalRegex := or_default (lit "all|type") universalRegex in
  let result := [] in
  re <- throwing
          (new_RegExp
             (match universalRegex with
              | [] => lit "all|type"
              | _ => universalRegex
              end)
             (lit "i")) ;;
  ret (result ++ [ {|
    type := option_;
    description := Some [0xBAA8; 0xB4E0; 0x20; 0xC18D; 0xC131]%N;
                                                  (* 모든 속성 *)
    regex := Some re;
    radioGroup := None;
    cssClasses := None;
    groups := Some groups
  |} ]).

(** ** The rule table and the registry *)

(** An entry of the rule table [matchers], and its copy under
    [window.matchers]: the table's entries have no [target] and no
    [group]; the copies do. *)
Record matcher : Type := mkMatcher {
  name : jsstring;
  targets : list jsstring;
  matcher_regex : regexp;
  submatchers : option (list submatcher);
  include : option (list nat);
  target : option jsstring;
  group : option jsstring
}.

Definition includeOldFilters : bool := false.
Definition alphabeticalOrder : bool := true.

Definition allTargets : list jsstring :=
  [ lit "captain"; lit "special"; lit "superSpecialCriteria";
    lit "superSpecial"; lit "swap"; lit "sailor"; lit "limit";
    lit "potential"; lit "support" ].

(** What the construction has written: [window.matchers] and the lines of
    [console.error]. *)
Record registry : Type := mkRegistry {
  window_matchers : obj (obj (obj matcher));
  console_error : list jsstring
}.

(** [matcher.name.replace(/%target%/g, template)] *)
Definition replace_target (name_ template : jsstring) : jsstring :=
  match replace name_ (regexp_literal "%target%" "g") template with
  | Some (s, _) => s
  | None => name_
  end.

(** [newName]: the name of the copy for one target. *)
Definition newName (matcher_ : matcher) (target_ : jsstring) : jsstring :=
  if str_eqb target_ (lit "superSpecial")
  then replace_target (name matcher_) (lit "super specials")
  else replace_target (name matcher_) (target_ ++ lit "s").

(** [matcherCopy]: the shallow copy
    [{ ...matcher, ...{ target, group, name: newName } }].  The copy of the
    [submatchers] array has the elements of the original. *)
Definition matcherCopy (matcher_ : matcher) (target_ group_ : jsstring)
  : matcher := {|
    name := newName matcher_ target_;
    targets := targets matcher_;
    matcher_regex := matcher_regex matcher_;
    submatchers := submatchers matcher_;
    include := include matcher_;
    target := Some target_;
    group := Some group_
  |}.

(** The test in front of [continue]. *)
Definition skipped (includeOldFilters : bool) (matcher_ : matcher) : bool :=
  negb includeOldFilters
  && fst (test (regexp_literal "^old" "i") (name matcher_)).

(** The line that [console.error] prints for an overridden matcher. *)
Definition duplicate_message (newName_ : jsstring) : jsstring :=
  lit "Duplicate matcher " ++ [34%N] ++ newName_ ++ [34%N].

(** The body of the innermost loop, for one [matcher] of [group] and one of
    its [targets].  The tests on lines 8017, 8020 and 8031 and the
    assignment on line 8043 are modelled as reads and writes of own
    properties.  That is what the code does when neither the target, nor
    the group, nor the new name is a name of [Object.prototype]
    ([inherited]); for such a name the code reads the inherited value or
    sets the prototype, and this definition does not cover it. *)
Definition register (includeOldFilters : bool) (group_ : jsstring)
           (matcher_ : matcher) (reg : registry) (target_ : jsstring)
  : registry :=
  if skipped includeOldFilters matcher_ then reg
  else
    let wm := window_matchers reg in
    let wm := match get wm target_ with
              | Some _ => wm
              | None => set wm target_ []
              end in
    let of_target := or_default [] (get wm target_) in
    let of_target := match get of_target group_ with
                     | Some _ => of_target
                     | None => set of_target group_ []
                     end in
    let of_group := or_default [] (get of_target group_) in
    let console :=
      match get of_group (newName matcher_ target_) with
      | Some _ =>
          console_error reg
          ++ [duplicate_message (newName matcher_ target_)]
      | None => console_error reg
      end in
    {| window_matchers :=
         set wm target_
             (set of_target group_
                  (set of_group (newName matcher_ target_)
                       (matcherCopy matcher_ target_ group_)));
       console_error := console |}.

(** [sortObj] *)
Definition sortObj (o : obj matcher) : obj matcher :=
  fold_left (fun result key =>
               match get o key with
               | Some v => set result key v
               | None => result
               end)
            (array_sort (keys o)) [].

(** The last two loops: every group of every target is replaced by its
    sorted copy. *)
Definition sort_groups (wm : obj (obj (obj matcher)))
  : obj (obj (obj matcher)) :=
  fold_left (fun wm target_ =>
    fold_left (fun wm group_ =>
      match get wm target_ with
      | Some of_target =>
          match get of_target group_ with
          | Some of_group =>
              set wm target_ (set of_target group_ (sortObj of_group))
          | None => wm
          end
      | None => wm
      end)
      (keys (or_default [] (get wm target_))) wm)
    (keys wm) wm.

(** The whole construction, from the table [matchers] and the two
    switches. *)
Definition build (includeOldFilters alphabeticalOrder : bool)
           (matchers : obj (list matcher)) : registry :=
  let reg := {|
    window_matchers := fold_left (fun wm target_ => set wm target_ [])
                                 allTargets [];
    console_error := []
  |} in
  let reg :=
    fold_left (fun reg group_ =>
      fold_left (fun reg matcher_ =>
        fold_left (register includeOldFilters group_ matcher_)
                  (targets matcher_) reg)
        (or_default [] (get matchers group_)) reg)
      (keys matchers) reg in
  if alphabeticalOrder then
    {| window_matchers := sort_groups (window_matchers reg);
       console_error := console_error reg |}
  else reg.

(** [window.matchers[target][group][name]] *)
Definition lookup (reg : registry) (target_ group_ name_ : jsstring)
  : option matcher :=
  match get (window_matchers reg) target_ with
  | Some of_target =>
      match get of_target group_ with
      | Some of_group => get of_group name_
      | None => None
      end
  | None => None
  end.

(** ** Number-type submatchers

    Modelled from the spec: the extraction of the value of a number-type
    submatcher from a captured token and its comparison with the number
    the user entered.  The code that does this is
    [CharUtils.checkMatcher] in [characters/js/utils.js], which is not
    among the sources; [matchers.js] only documents it.  A token
    ["completely"] or ["99+"] is Infinity; otherwise every ["?"] is
    replaced by ["0"] and the token is read as a decimal number; a token
    that is not a decimal number counts as unknown, that is 0. *)

Inductive number_value : Type :=
| Finite (q : Q)
| Infinity.

Fixpoint digits_value (acc : N) (s : jsstring) : option N :=
  match s with
  | [] => Some acc
  | c :: s' =>
      if is_digit c then digits_value (10 * acc + (c - 48)) s' else None
  end.

Fixpoint split_at_dot (s : jsstring) : jsstring * option jsstring :=
  match s with
  | [] => ([], None)
  | c :: s' =>
      if chr_is "." c then ([], Some s')
      else let (a, b) := split_at_dot s' in (c :: a, b)
  end.

Definition parse_decimal (s : jsstring) : option Q :=
  let (int_part, frac) := split_at_dot s in
  let frac_part := or_default [] frac in
  match int_part ++ frac_part with
  | [] => None
  | _ =>
      match digits_value 0 int_part, digits_value 0 frac_part with
      | Some n, Some f =>
          Some (Qred ((Z.of_N n # 1)
                      + (Z.of_N f
                         # Pos.pow 10 (Pos.of_nat (length frac_part)))))%Q
      | _, _ => None
      end
  end.

Definition extract_number (token : jsstring) : number_value :=
  if str_eqb token (lit "completely") || str_eqb token (lit "99+")
  then Infinity
  else
    match parse_decimal
            (map (fun c => if chr_is "?" c then N_of_ascii "0" else c) token)
    with
    | Some q => Finite q
    | None => Finite 0%Q
    end.

Inductive comparator : Type :=
| less          (* <  *)
| less_equal    (* <= *)
| equal         (* =  *)
| greater_equal (* >= *)
| greater.      (* >  *)

(** [value <comparator> n], for a finite [n] entered by the user. *)
Definition satisfies (c : comparator) (value : number_value) (n : Q) : bool :=
  match value with
  | Infinity =>
      match c with
      | greater | greater_equal => true
      | _ => false
      end
  | Finite q =>
      match c with
      | less => negb (Qle_bool n q)
      | less_equal => Qle_bool q n
      | equal => Qeq_bool q n
      | greater_equal => Qle_bool n q
      | greater => negb (Qle_bool q n)
      end
  end.

(** * Properties *)

(** ** Strings *)

Lemma str_eqb_eq (a b : jsstring) : str_eqb a b = true <-> a = b.
Proof.
  revert b; induction a as [|x a IH]; intros [|y b]; simpl;
    try (split; [discriminate | discriminate]); try tauto.
  rewrite andb_true_iff, N.eqb_eq, IH.
  split; [intros [-> ->]; reflexivity | intros H; inversion H; auto].
Qed.

Lemma str_eqb_refl (a : jsstring) : str_eqb a a = true.
Proof. apply str_eqb_eq; reflexivity. Qed.

Lemma str_eqb_neq (a b : jsstring) : str_eqb a b = false <-> a <> b.
Proof.
  rewrite <- str_eqb_eq. destruct (str_eqb a b); split; congruence.
Qed.

Lemma str_eqb_sym (a b : jsstring) : str_eqb a b = str_eqb b a.
Proof.
  destruct (str_eqb a b) eqn:E.
  - apply str_eqb_eq in E; subst; symmetry; apply str_eqb_refl.
  - apply str_eqb_neq in E. symmetry; apply str_eqb_neq; congruence.
Qed.

Lemma str_ltb_irrefl (a : jsstring) : str_ltb a a = false.
Proof.
  induction a as [|x a IH]; simpl; [reflexivity|].
  rewrite N.ltb_irrefl, N.eqb_refl, IH; reflexivity.
Qed.

Lemma str_ltb_trans (a b c : jsstring) :
  str_ltb a b = true -> str_ltb b c = true -> str_ltb a c = true.
Proof.
  revert b c; induction a as [|x a IH]; intros [|y b] [|z c]; simpl;
    try discriminate; try reflexivity.
  rewrite !orb_true_iff, !andb_true_iff, !N.ltb_lt, !N.eqb_eq.
  intros [H1|[H1 H1']] [H2|[H2 H2']].
  - left; lia.
  - left; lia.
  - left; lia.
  - right; split; [lia | eauto].
Qed.

Lemma str_ltb_total (a b : jsstring) :
  str_ltb a b = false -> str_ltb b a = false -> a = b.
Proof.
  revert b; induction a as [|x a IH]; intros [|y b]; simpl;
    try discriminate; try reflexivity.
  rewrite !orb_false_iff, !andb_false_iff, !N.ltb_ge, !N.eqb_neq.
  intros [H1 H1'] [H2 H2'].
  assert (x = y) by lia; subst y.
  f_equal. apply IH.
  - destruct H1' as [H|H]; [congruence | exact H].
  - destruct H2' as [H|H]; [congruence | exact H].
Qed.

Lemma str_ltb_asym (a b : jsstring) :
  str_ltb a b = true -> str_ltb b a = false.
Proof.
  intros H. destruct (str_ltb b a) eqn:E; [|reflexivity].
  pose proof (str_ltb_trans _ _ _ H E) as T.
  rewrite str_ltb_irrefl in T; discriminate.
Qed.

(** ** Objects *)

Section ObjFacts.
Variable V : Type.
Implicit Types (o : obj V) (k : jsstring) (v : V).

Lemma get_set_same o k v : get (set o k v) k = Some v.
Proof.
  induction o as [|[k' v'] o IH]; simpl.
  - rewrite str_eqb_refl; reflexivity.
  - destruct (str_eqb k' k) eqn:E; simpl; rewrite E; auto.
Qed.

Lemma get_set_other o k k' v : k <> k' -> get (set o k v) k' = get o k'.
Proof.
  intros N. induction o as [|[k0 v0] o IH]; simpl.
  - apply str_eqb_neq in N; rewrite N; reflexivity.
  - destruct (str_eqb k0 k) eqn:E; simpl.
    + apply str_eqb_eq in E; subst k0.
      apply str_eqb_neq in N; rewrite N; reflexivity.
    + rewrite IH; reflexivity.
Qed.

Lemma get_set o k k' v :
  get (set o k v) k' = if str_eqb k k' then Some v else get o k'.
Proof.
  destruct (str_eqb k k') eqn:E.
  - apply str_eqb_eq in E; subst; apply get_set_same.
  - apply str_eqb_neq in E; apply get_set_other; assumption.
Qed.

Lemma get_In o k v : get o k = Some v -> In (k, v) o.
Proof.
  induction o as [|[k' v'] o IH]; simpl; [discriminate|].
  destruct (str_eqb k' k) eqn:E.
  - apply str_eqb_eq in E; subst. intros H; inversion H; auto.
  - auto.
Qed.

Lemma get_None o k : get o k = None <-> ~ In k (map fst o).
Proof.
  induction o as [|[k' v'] o IH]; simpl; [tauto|].
  destruct (str_eqb k' k) eqn:E.
  - apply str_eqb_eq in E; subst. split; [discriminate | tauto].
  - apply str_eqb_neq in E. rewrite IH; tauto.
Qed.

Lemma In_get o k v : NoDup (map fst o) -> In (k, v) o -> get o k = Some v.
Proof.
  induction o as [|[k' v'] o IH]; simpl; [tauto|].
  intros ND [H|H].
  - inversion H; subst. rewrite str_eqb_refl; reflexivity.
  - inversion ND as [|? ? NI ND']; subst.
    destruct (str_eqb k' k) eqn:E.
    + apply str_eqb_eq in E; subst.
      exfalso; apply NI. apply (in_map fst) in H; exact H.
    + auto.
Qed.

Lemma map_fst_set o k v :
  map fst (set o k v)
  = if existsb (str_eqb k) (map fst o) then map fst o
    else map fst o ++ [k].
Proof.
  induction o as [|[k' v'] o IH]; simpl; [reflexivity|].
  rewrite (str_eqb_sym k k').
  destruct (str_eqb k' k) eqn:E; simpl; [reflexivity|].
  rewrite IH. destruct (existsb _ _); reflexivity.
Qed.

Lemma existsb_str_eqb k (l : list jsstring) :
  existsb (str_eqb k) l = true <-> In k l.
Proof.
  rewrite existsb_exists. split.
  - intros (x & Hx & E). apply str_eqb_eq in E; subst; assumption.
  - intros H; exists k; split; [assumption | apply str_eqb_refl].
Qed.

Lemma NoDup_set o k v : NoDup (map fst o) -> NoDup (map fst (set o k v)).
Proof.
  intros ND. rewrite map_fst_set.
  destruct (existsb (str_eqb k) (map fst o)) eqn:E; [assumption|].
  apply NoDup_app; [assumption | repeat constructor; simpl; tauto |].
  intros x Hx [<-|[]].
  apply existsb_str_eqb in Hx. congruence.
Qed.

Lemma set_get_id o k v : get o k = Some v -> set o k v = o.
Proof.
  induction o as [|[k' v'] o IH]; simpl; [discriminate|].
  destruct (str_eqb k' k) eqn:E.
  - intros H; inversion H; reflexivity.
  - intros H; rewrite IH; auto.
Qed.

Lemma In_set o k v k' v' :
  In (k', v') (set o k v) -> (k' = k /\ v' = v) \/ In (k', v') o.
Proof.
  induction o as [|[k0 v0] o IH]; simpl.
  - intros [H|[]]; inversion H; auto.
  - destruct (str_eqb k0 k) eqn:E; simpl.
    + apply str_eqb_eq in E; subst.
      intros [H|H]; [inversion H; auto | auto].
    + intros [H|H]; [auto|]. destruct (IH H); auto.
Qed.

Lemma NoDup_obj_literal (props : list (jsstring * V)) :
  NoDup (map fst (obj_literal props)).
Proof.
  unfold obj_literal.
  assert (G : forall o, NoDup (map fst o) ->
            NoDup (map fst (fold_left
              (fun o kv => set o (fst kv) (snd kv)) props o))).
  { induction props as [|p props IH]; simpl; intros o ND; [assumption|].
    apply IH, NoDup_set, ND. }
  apply G; constructor.
Qed.
End ObjFacts.

(** ** Sorting *)

Section SortFacts.
Variable A : Type.
Variable ltb : A -> A -> bool.

Lemma insert_sorted_perm (x : A) (l : list A) :
  Permutation (insert_sorted ltb x l) (x :: l).
Proof.
  induction l as [|y l IH]; simpl; [reflexivity|].
  destruct (ltb x y); [reflexivity|].
  rewrite IH. apply perm_swap.
Qed.

Lemma sort_by_perm_acc (l acc : list A) :
  Permutation (fold_left (fun acc x => insert_sorted ltb x acc) l acc)
              (l ++ acc).
Proof.
  revert acc; induction l as [|x l IH]; intros acc; simpl; [reflexivity|].
  rewrite IH, insert_sorted_perm. symmetry; apply Permutation_middle.
Qed.

Lemma sort_by_perm (l : list A) : Permutation (sort_by ltb l) l.
Proof.
  unfold sort_by. rewrite sort_by_perm_acc, app_nil_r. reflexivity.
Qed.

Hypothesis ltb_asym : forall x y, ltb x y = true -> ltb y x = false.

Let le (x y : A) : Prop := ltb y x = false.

Lemma insert_sorted_sorted (x : A) (l : list A) :
  Sorted le l -> Sorted le (insert_sorted ltb x l).
Proof.
  induction l as [|y l IH]; simpl; intros S.
  - repeat constructor.
  - destruct (ltb x y) eqn:E.
    + constructor; [assumption|]. constructor. apply ltb_asym, E.
    + inversion S as [|? ? S' H]; subst.
      constructor; [apply IH, S'|].
      destruct l as [|z l]; simpl.
      * constructor; exact E.
      * destruct (ltb x z); constructor;
          [exact E | apply HdRel_inv in H; exact H].
Qed.

Lemma sort_by_sorted (l : list A) : Sorted le (sort_by ltb l).
Proof.
  unfold sort_by.
  assert (G : forall acc, Sorted le acc ->
            Sorted le (fold_left (fun acc x => insert_sorted ltb x acc)
                                 l acc)).
  { induction l as [|x l IH]; simpl; intros acc S; [assumption|].
    apply IH, insert_sorted_sorted, S. }
  apply G; constructor.
Qed.
End SortFacts.

Definition str_lt (a b : jsstring) : Prop := str_ltb a b = true.

Lemma str_lt_trans : Relations_1.Transitive str_lt.
Proof. intros a b c; apply str_ltb_trans. Qed.

(** An array of distinct strings comes out of [sort()] in strictly
    ascending order. *)
Lemma array_sort_ascending (l : list jsstring) :
  NoDup l -> StronglySorted str_lt (array_sort l).
Proof.
  intros ND.
  assert (ND' : NoDup (array_sort l)).
  { eapply Permutation_NoDup; [symmetry; apply sort_by_perm | exact ND]. }
  apply Sorted_StronglySorted; [exact str_lt_trans|].
  pose proof (sort_by_sorted str_ltb str_ltb_asym l) as S.
  unfold array_sort in *. revert S ND'.
  generalize (sort_by str_ltb l). intros s S.
  induction S as [|x s S IH H]; intros ND'; constructor.
  - apply IH. inversion ND'; assumption.
  - destruct H as [|y s H]; constructor.
    unfold str_lt. destruct (str_ltb x y) eqn:E; [reflexivity|].
    exfalso. inversion ND' as [|? ? NI _]; subst. apply NI.
    rewrite (str_ltb_total _ _ E H). left; reflexivity.
Qed.

Lemma array_sort_perm (l : list jsstring) : Permutation (array_sort l) l.
Proof. apply sort_by_perm. Qed.

(** ** Enumeration *)

Lemma filter_partition_perm (A : Type) (p : A -> bool) (l : list A) :
  Permutation (filter p l ++ filter (fun x => negb (p x)) l) l.
Proof.
  induction l as [|x l IH]; simpl; [reflexivity|].
  destruct (p x); simpl.
  - constructor; exact IH.
  - rewrite <- Permutation_middle. constructor; exact IH.
Qed.

Lemma keys_perm (V : Type) (o : obj V) : Permutation (keys o) (map fst o).
Proof.
  unfold keys. rewrite sort_by_perm. apply filter_partition_perm.
Qed.

Lemma keys_NoDup (V : Type) (o : obj V) :
  NoDup (map fst o) -> NoDup (keys o).
Proof.
  intros ND. eapply Permutation_NoDup; [symmetry; apply keys_perm | exact ND].
Qed.

Lemma filter_none (A : Type) (p : A -> bool) (l : list A) :
  forallb (fun x => negb (p x)) l = true -> filter p l = [].
Proof.
  induction l as [|x l IH]; simpl; [reflexivity|].
  intros H; apply andb_true_iff in H as [H1 H2].
  destruct (p x); simpl in *; [discriminate | auto].
Qed.

Lemma filter_all (A : Type) (p : A -> bool) (l : list A) :
  forallb p l = true -> filter p l = l.
Proof.
  induction l as [|x l IH]; simpl; [reflexivity|].
  intros H; apply andb_true_iff in H as [H1 H2].
  rewrite H1. f_equal; auto.
Qed.

Lemma keys_no_index (V : Type) (o : obj V) :
  forallb (fun k => negb (is_array_index k)) (map fst o) = true ->
  keys o = map fst o.
Proof.
  intros H. unfold keys.
  rewrite (filter_none _ _ H), (filter_all _ _ H). reflexivity.
Qed.

(** ** The matcher *)

(** The matcher only looks at the values of its continuation. *)
Lemma repeat_matcher_ext (mr : pos -> (pos -> mres) -> mres) :
  (forall x k k', (forall y, k y = k' y) -> mr x k = mr x k') ->
  forall fuel min max greedy x k k',
    (forall y, k y = k' y) ->
    repeat_matcher mr fuel min max greedy x k
    = repeat_matcher mr fuel min max greedy x k'.
Proof.
  intros Hmr. induction fuel as [|fuel IH]; intros min max greedy x k k' E;
    simpl; [reflexivity|].
  assert (D : forall y : pos,
    (if (min =? 0) && (length (snd y) =? length (snd x)) then Failure
     else repeat_matcher mr fuel (pred min) (option_map pred max) greedy y k)
    = (if (min =? 0) && (length (snd y) =? length (snd x)) then Failure
       else repeat_matcher mr fuel (pred min) (option_map pred max) greedy y k')).
  { intros y. destruct (_ && _); [reflexivity | apply IH, E]. }
  destruct max as [[|mx]|]; [apply E | |];
    rewrite (Hmr x _ _ D), (E x); reflexivity.
Qed.

Lemma m_ext (fl : flags) (r : pattern) :
  forall x k k', (forall y, k y = k' y) -> m fl r x k = m fl r x k'.
Proof.
  induction r as [ |c| |r1 IH1 r2 IH2|r1 IH1 r2 IH2|r IH min max greedy
                 |cap r IH| | |neg|neg r IH]; intros x k k' E; simpl.
  - apply E.
  - destruct (snd x); [reflexivity|]. destruct (_ =? _)%N; [apply E | reflexivity].
  - destruct (snd x); [reflexivity|]. destruct (_ || _); [apply E | reflexivity].
  - apply IH1. intros y. apply IH2, E.
  - rewrite (IH1 x k k' E), (IH2 x k k' E). reflexivity.
  - apply repeat_matcher_ext; [exact IH | exact E].
  - apply IH, E.
  - destruct (fst x); [apply E|]. destruct (_ && _); [apply E | reflexivity].
  - destruct (snd x); [apply E|]. destruct (_ && _); [apply E | reflexivity].
  - destruct (xorb _ _); [apply E | reflexivity].
  - rewrite (E x). reflexivity.
Qed.

(** The fuel of [repeat_matcher] is never used up: a continuation that
    never runs out of fuel at or after [x] gives a matcher that does not
    either. *)
Definition not_after (x y : pos) : Prop := length (snd y) <= length (snd x).

Ltac len_lia := unfold not_after, pos, jsstring, code_unit in *; simpl in *; lia.

Lemma repeat_matcher_fuel (mr : pos -> (pos -> mres) -> mres) :
  (forall x k, (forall y, not_after x y -> k y <> OutOfFuel) ->
               mr x k <> OutOfFuel) ->
  forall fuel min max greedy x k,
    min + length (snd x) < fuel ->
    (forall y, not_after x y -> k y <> OutOfFuel) ->
    repeat_matcher mr fuel min max greedy x k <> OutOfFuel.
Proof.
  intros Hmr. induction fuel as [|fuel IH]; intros min max greedy x k F K;
    [lia|]. simpl.
  assert (Kx : k x <> OutOfFuel) by (apply K; len_lia).
  assert (D : forall y : pos, not_after x y ->
    (if (min =? 0) && (length (snd y) =? length (snd x)) then Failure
     else repeat_matcher mr fuel (pred min) (option_map pred max) greedy y k)
    <> OutOfFuel).
  { intros y Y.
    destruct (Nat.eqb_spec min 0) as [->|M]; simpl.
    - destruct (Nat.eqb_spec (length (snd y)) (length (snd x)));
        [discriminate|].
      apply IH; [len_lia|]. intros z Z; apply K; len_lia.
    - apply IH; [len_lia|]. intros z Z; apply K; len_lia. }
  pose proof (Hmr x _ D) as HD.
  destruct max as [[|mx]|]; [exact Kx | |];
    (destruct (negb (min =? 0)); [exact HD|];
     destruct greedy;
     [ destruct (mr x _); [discriminate | exact Kx | congruence]
     | destruct (k x); [discriminate | exact HD | congruence] ]).
Qed.

Lemma m_never_out_of_fuel (fl : flags) (r : pattern) :
  forall x k, (forall y, not_after x y -> k y <> OutOfFuel) ->
              m fl r x k <> OutOfFuel.
Proof.
  induction r as [ |c| |r1 IH1 r2 IH2|r1 IH1 r2 IH2|r IH min max greedy
                 |cap r IH| | |neg|neg r IH]; intros x k K; simpl.
  - apply K; len_lia.
  - destruct x as [b [|ch rest]]; simpl; [discriminate|].
    destruct (_ =? _)%N; [|discriminate].
    apply K; len_lia.
  - destruct x as [b [|ch rest]]; simpl; [discriminate|].
    destruct (_ || _); [|discriminate].
    apply K; len_lia.
  - apply IH1. intros y Y. apply IH2. intros z Z. apply K. len_lia.
  - pose proof (IH1 x k K). pose proof (IH2 x k K).
    destruct (m fl r1 x k); congruence.
  - apply repeat_matcher_fuel; [exact IH | len_lia | exact K].
  - apply IH, K.
  - assert (k x <> OutOfFuel) by (apply K; len_lia).
    destruct (fst x); [assumption|]. destruct (_ && _); [assumption | discriminate].
  - assert (k x <> OutOfFuel) by (apply K; len_lia).
    destruct (snd x); [assumption|]. destruct (_ && _); [assumption | discriminate].
  - assert (k x <> OutOfFuel) by (apply K; len_lia).
    destruct (xorb _ _); [assumption | discriminate].
  - assert (k x <> OutOfFuel) by (apply K; len_lia).
    assert (I : m fl r x (fun y => Matched y) <> OutOfFuel)
      by (apply IH; discriminate).
    destruct (m fl r x _); [| |congruence]; destruct neg;
      assumption || discriminate.
Qed.

(** A search always comes to an end. *)
Lemma m_top_never_out_of_fuel (fl : flags) (r : pattern) (x : pos) :
  m fl r x (fun y => Matched y) <> OutOfFuel.
Proof. apply m_never_out_of_fuel; discriminate. Qed.

Lemma search_never_stuck (fl : flags) (r : pattern) (before rest : jsstring) :
  search fl r before rest <> Stuck.
Proof.
  revert before; induction rest as [|c rest IH]; intros before; simpl.
  - pose proof (m_top_never_out_of_fuel fl r (before, [])) as T.
    destruct (m fl r _ _); [discriminate | discriminate | congruence].
  - pose proof (m_top_never_out_of_fuel fl r (before, c :: rest)) as T.
    destruct (m fl r _ _); [discriminate | apply IH | congruence].
Qed.

Lemma exec_never_stuck (R : regexp) (S : jsstring) : fst (exec R S) <> Stuck.
Proof.
  unfold exec.
  destruct (length S <? _); [discriminate|].
  destruct (sticky (re_flags R)).
  - match goal with
    | |- context [m ?fl ?r ?x _] =>
        pose proof (m_top_never_out_of_fuel fl r x) as T;
        destruct (m fl r x _)
    end; simpl; [discriminate | discriminate | congruence].
  - match goal with
    | |- context [search ?fl ?r ?b ?s] =>
        pose proof (search_never_stuck fl r b s) as T;
        destruct (search fl r b s)
    end; simpl; [discriminate | discriminate | congruence].
Qed.

(** *** Literal text *)

(** [lit_match fl cs x]: the text [cs] stands at [x], up to the case folding
    of [fl]; the result is the position after it. *)
Fixpoint lit_match (fl : flags) (cs : jsstring) (x : pos) : option pos :=
  match cs with
  | [] => Some x
  | c :: cs' =>
      match snd x with
      | ch :: rest =>
          if (canonicalize fl ch =? canonicalize fl c)%N
          then lit_match fl cs' (ch :: fst x, rest) else None
      | [] => None
      end
  end.

(** The pattern that the parser builds for a run of pattern characters. *)
Definition lit_pattern (cs : jsstring) : pattern := mk_seq (rev (map Char cs)).

(** [occurs_from fl cs before rest]: the text [cs] occurs in [rest]. *)
Fixpoint occurs_from (fl : flags) (cs before rest : jsstring) : bool :=
  match lit_match fl cs (before, rest) with
  | Some _ => true
  | None =>
      match rest with
      | [] => false
      | c :: rest' => occurs_from fl cs (c :: before) rest'
      end
  end.

Definition occurs (fl : flags) (cs text : jsstring) : bool :=
  occurs_from fl cs [] text.

Lemma m_chars (fl : flags) (cs : jsstring) :
  forall earlier x k,
    m fl (mk_seq (rev (map Char cs) ++ earlier)) x k
    = m fl (mk_seq earlier) x
        (fun y => match lit_match fl cs y with
                  | Some z => k z
                  | None => Failure
                  end).
Proof.
  induction cs as [|c cs IH]; intros earlier x k; simpl.
  - apply m_ext; reflexivity.
  - rewrite <- app_assoc. simpl. rewrite IH. simpl.
    apply m_ext. intros y. destruct (snd y); [reflexivity|].
    destruct (_ =? _)%N; reflexivity.
Qed.

Lemma m_lit_pattern (fl : flags) (cs : jsstring) (x : pos) (k : pos -> mres) :
  m fl (lit_pattern cs) x k
  = match lit_match fl cs x with
    | Some z => k z
    | None => Failure
    end.
Proof.
  unfold lit_pattern.
  rewrite <- (app_nil_r (rev (map Char cs))), m_chars. reflexivity.
Qed.

Lemma search_lit_pattern (fl : flags) (cs before rest : jsstring) :
  is_found (search fl (lit_pattern cs) before rest)
  = occurs_from fl cs before rest.
Proof.
  revert before; induction rest as [|c rest IH]; intros before; simpl;
    rewrite m_lit_pattern; destruct (lit_match fl cs _); auto.
Qed.

Lemma lit_match_self (fl : flags) (cs : jsstring) :
  forall before rest, lit_match fl cs (before, cs ++ rest)
                      = Some (rev cs ++ before, rest).
Proof.
  induction cs as [|c cs IH]; intros before rest; simpl; [reflexivity|].
  rewrite N.eqb_refl, IH, <- app_assoc. reflexivity.
Qed.

Lemma occurs_self (fl : flags) (cs : jsstring) : occurs fl cs cs = true.
Proof.
  unfold occurs. destruct cs as [|c cs]; [reflexivity|].
  unfold occurs_from.
  rewrite <- (app_nil_r (c :: cs)) at 2. rewrite lit_match_self.
  reflexivity.
Qed.

(** *** Alternation under a search *)

Lemma search_Alt (fl : flags) (a u : pattern) (before rest : jsstring) :
  is_found (search fl (Alt a u) before rest)
  = is_found (search fl a before rest) || is_found (search fl u before rest).
Proof.
  revert before; induction rest as [|c rest IH]; intros before; simpl.
  - pose proof (m_top_never_out_of_fuel fl a (before, [])) as Ta.
    pose proof (m_top_never_out_of_fuel fl u (before, [])) as Tu.
    destruct (m fl a _ _); [reflexivity | | congruence].
    destruct (m fl u _ _); [reflexivity | reflexivity | congruence].
  - pose proof (m_top_never_out_of_fuel fl a (before, c :: rest)) as Ta.
    pose proof (m_top_never_out_of_fuel fl u (before, c :: rest)) as Tu.
    destruct (m fl a _ _); [reflexivity | | congruence].
    destruct (m fl u _ _); [apply eq_sym, orb_true_r | apply IH | congruence].
Qed.

(** *** [test] on a RegExp that is neither global nor sticky *)

Definition stateless (R : regexp) : Prop :=
  global (re_flags R) = false /\ sticky (re_flags R) = false.

Lemma test_stateless (R : regexp) (S : jsstring) :
  stateless R ->
  test R S = (is_found (search (re_flags R) (compiled R) [] S), R).
Proof.
  intros [G Y]. unfold test, exec. rewrite G, Y. simpl.
  destruct (search _ _ _ _); reflexivity.
Qed.

Definition flags_i : flags := mkFlags false true false false false.

Lemma new_RegExp_i (src : jsstring) :
  new_RegExp src (lit "i")
  = match parse src with
    | Some r => Some (mkRegExp src flags_i r 0)
    | None => None
    end.
Proof. unfold new_RegExp. destruct (parse src); reflexivity. Qed.

(** ** The parser *)

Lemma run_app (a b : jsstring) :
  forall st, run st (a ++ b)
             = match run st a with
               | Some st' => run st' b
               | None => None
               end.
Proof.
  induction a as [|c a IH]; intros st; simpl; [reflexivity|].
  destruct (step st c); [apply IH | reflexivity].
Qed.

(** A pattern character that is not a syntax character stands for itself. *)
Definition plain (cs : jsstring) : Prop :=
  forallb (fun c => negb (is_syntax_char c)) cs = true.

Lemma step_normal_plain (l : last_term) (fs : list frame) (c : code_unit) :
  is_syntax_char c = false ->
  step_normal l fs c = push_term (Char c) LAtom fs.
Proof.
  unfold is_syntax_char, step_normal. intros H.
  repeat match type of H with
         | _ || _ = false => apply orb_false_iff in H; destruct H as [H ?]
         end.
  repeat match goal with
         | E : chr_is _ c = false |- _ => rewrite E; clear E
         end.
  reflexivity.
Qed.

Lemma run_plain (cs : jsstring) :
  plain cs ->
  forall l f fs,
    run (mkP (MNormal l) (f :: fs)) cs
    = Some (mkP (MNormal (match cs with [] => l | _ => LAtom end))
                (mkFrame (f_kind f) (f_alts f)
                         (rev (map Char cs) ++ f_terms f) :: fs)).
Proof.
  unfold plain. induction cs as [|c cs IH]; intros P l f fs; simpl.
  - destruct f; reflexivity.
  - simpl in P. apply andb_true_iff in P as [Pc P].
    apply negb_true_iff in Pc.
    unfold step at 1; simpl. rewrite (step_normal_plain _ _ _ Pc). simpl.
    rewrite (IH P). simpl. rewrite <- app_assoc. simpl.
    destruct cs; reflexivity.
Qed.

Lemma parse_plain (cs : jsstring) : plain cs -> parse cs = Some (lit_pattern cs).
Proof.
  intros P. unfold parse, pstart. rewrite (run_plain P). simpl.
  unfold finish, mk_disj, lit_pattern; simpl. rewrite app_nil_r. reflexivity.
Qed.

(** The source ["\[" + id + "\]"] of the types and orbs generators. *)
Lemma run_bracketed (id : jsstring) :
  plain id ->
  run pstart (lit "\[" ++ id ++ lit "\]")
  = Some (mkP (MNormal LAtom)
              [mkFrame GNonCapture []
                       (rev (map Char (lit "[" ++ id ++ lit "]")))]).
Proof.
  intros P.
  assert (E : run pstart (lit "\[" ++ id ++ lit "\]")
              = match run (mkP (MNormal LAtom)
                               [mkFrame GNonCapture [] [Char 91%N]]) id with
                | Some st' => run st' (lit "\]")
                | None => None
                end).
  { change (lit "\[" ++ id ++ lit "\]") with ((92 :: 91 :: id) ++ lit "\]")%N.
    rewrite run_app. reflexivity. }
  rewrite E, (run_plain P). cbn [f_kind f_alts f_terms].
  rewrite !map_app, !rev_app_distr. destruct id; reflexivity.
Qed.

Lemma parse_bracketed (id : jsstring) :
  plain id ->
  parse (lit "\[" ++ id ++ lit "\]")
  = Some (lit_pattern (lit "[" ++ id ++ lit "]")).
Proof.
  intros P. unfold parse. rewrite (run_bracketed P). reflexivity.
Qed.

(** *** A first alternative in front of a pattern

    [add_alt a st] is the parser state [st] with the alternative [a] in
    front of everything that the outermost group holds.  The parser never
    looks at it, so reading a pattern after ["|"] goes the same way as
    reading it alone. *)

Fixpoint add_alt_frames (a : pattern) (fs : list frame) : list frame :=
  match fs with
  | [] => []
  | f :: fs' =>
      match fs' with
      | [] => [mkFrame (f_kind f) (f_alts f ++ [a]) (f_terms f)]
      | _ => f :: add_alt_frames a fs'
      end
  end.

Definition add_alt (a : pattern) (st : pstate) : pstate :=
  mkP (p_mode st) (add_alt_frames a (p_frames st)).

Lemma push_term_add_alt a t l fs :
  push_term t l (add_alt_frames a fs)
  = option_map (add_alt a) (push_term t l fs).
Proof. destruct fs as [|f [|f' fs]]; reflexivity. Qed.

Lemma quantify_add_alt a mn mx fs :
  quantify mn mx (add_alt_frames a fs)
  = option_map (add_alt a) (quantify mn mx fs).
Proof.
  destruct fs as [|f [|f' fs]]; try reflexivity;
    simpl; destruct (f_terms f); reflexivity.
Qed.

Lemma make_lazy_add_alt a fs :
  make_lazy (add_alt_frames a fs) = option_map (add_alt a) (make_lazy fs).
Proof.
  destruct fs as [|f [|f' fs]]; try reflexivity;
    simpl; destruct (f_terms f) as [|[] ?]; reflexivity.
Qed.

Lemma push_frame_add_alt a k fs :
  fs <> [] ->
  push_frame k (add_alt_frames a fs) = add_alt a (push_frame k fs).
Proof. destruct fs as [|f [|f' fs]]; [congruence | reflexivity | reflexivity]. Qed.

Lemma step_normal_add_alt a l fs c :
  step_normal l (add_alt_frames a fs) c
  = option_map (add_alt a) (step_normal l fs c).
Proof.
  unfold step_normal.
  repeat match goal with
         | |- context [if ?b then _ else _] => destruct b
         end;
    try (destruct l);
    try apply push_term_add_alt; try apply quantify_add_alt;
    try apply make_lazy_add_alt; try reflexivity;
    destruct fs as [|f [|f' [|f'' fs]]]; reflexivity.
Qed.

Lemma step_escape_add_alt a fs c :
  step_escape (add_alt_frames a fs) c
  = option_map (add_alt a) (step_escape fs c).
Proof.
  unfold step_escape.
  repeat match goal with
         | |- context [if ?b then _ else _] => destruct b
         end;
    try apply push_term_add_alt; reflexivity.
Qed.

Lemma step_add_alt a st c :
  p_frames st <> [] ->
  step (add_alt a st) c = option_map (add_alt a) (step st c).
Proof.
  destruct st as [mode fs].
  change (add_alt a (mkP mode fs)) with (mkP mode (add_alt_frames a fs)).
  unfold step. cbn [p_mode p_frames]. intros NE.
  destruct mode as [l| | | |n|n mx].
  - apply step_normal_add_alt.
  - apply step_escape_add_alt.
  - destruct (chr_is "?" c); [reflexivity|].
    rewrite (push_frame_add_alt a GCapture NE).
    unfold add_alt at 1. cbn [p_frames]. apply step_normal_add_alt.
  - repeat match goal with
           | |- context [if ?b then _ else _] => destruct b
           end;
      try (rewrite (push_frame_add_alt a _ NE)); reflexivity.
  - destruct (is_digit c); [reflexivity|].
    destruct n; [|reflexivity].
    destruct (chr_is "," c); [reflexivity|].
    destruct (chr_is "}" c); [apply quantify_add_alt | reflexivity].
  - destruct (is_digit c); [reflexivity|].
    destruct (chr_is "}" c); [|reflexivity].
    destruct mx; [|apply quantify_add_alt].
    destruct (n <=? n0); [apply quantify_add_alt | reflexivity].
Qed.

Lemma step_frames_nonempty st c st' :
  p_frames st <> [] -> step st c = Some st' -> p_frames st' <> [].
Proof.
  destruct st as [mode fs]. unfold step; simpl. intros NE.
  destruct fs as [|f fs]; [congruence|]. clear NE.
  unfold step_normal, step_escape, push_term, quantify, make_lazy, push_frame.
  destruct mode as [l| | | |n|n mx]; simpl;
    repeat match goal with
           | |- context [if ?b then _ else _] => destruct b
           | |- context [match ?x with _ => _ end] => destruct x
           end;
    intros H; inversion H; subst; simpl; discriminate.
Qed.

Lemma run_add_alt a src :
  forall st, p_frames st <> [] ->
             run (add_alt a st) src = option_map (add_alt a) (run st src).
Proof.
  induction src as [|c src IH]; intros st NE; simpl; [reflexivity|].
  rewrite (@step_add_alt a st c NE).
  destruct (step st c) as [st'|] eqn:E; simpl; [|reflexivity].
  apply IH. eapply step_frames_nonempty; eassumption.
Qed.

Lemma finish_add_alt a st :
  finish (add_alt a st) = option_map (Alt a) (finish st).
Proof.
  destruct st as [mode fs]. unfold finish, add_alt; simpl.
  destruct mode; try reflexivity.
  destruct fs as [|f [|f' fs]]; try reflexivity.
  - simpl. unfold mk_disj; simpl. rewrite fold_left_app. reflexivity.
  - simpl. destruct fs; reflexivity.
Qed.

(** [P + "|" + U], where [P] is a single alternative, parses as the
    alternation of [P] and the pattern [U]. *)
Lemma parse_alt_prefix (P U : jsstring) (l : last_term) (terms : list pattern) :
  run pstart P = Some (mkP (MNormal l) [mkFrame GNonCapture [] terms]) ->
  parse (P ++ lit "|" ++ U) = option_map (Alt (mk_seq terms)) (parse U).
Proof.
  intros HP. unfold parse. rewrite run_app, HP.
  change (lit "|" ++ U) with (124%N :: U). cbn [run].
  assert (E : step (mkP (MNormal l) [mkFrame GNonCapture [] terms]) 124%N
              = Some (add_alt (mk_seq terms) pstart)) by reflexivity.
  rewrite E, run_add_alt by discriminate.
  destruct (run pstart U) as [st|]; simpl; [apply finish_add_alt | reflexivity].
Qed.

(** ** The generators *)

Lemma bind_read (A B : Type) (f : module_state -> A) (k : A -> M B) s :
  bind (read f) k s = k (f s) s.
Proof. reflexivity. Qed.

Lemma bind_ret (A B : Type) (a : A) (k : A -> M B) s :
  bind (ret a) k s = k a s.
Proof. reflexivity. Qed.

Lemma bind_throwing (A B : Type) (o : option A) (k : A -> M B) s :
  bind (throwing o) k s = match o with Some a => k a s | None => None end.
Proof. destruct o; reflexivity. Qed.

(** A loop whose body pushes one element for each [x]. *)
Lemma for_of_push (A B : Type) (Q : A -> B -> Prop) (s : module_state)
      (body : list B -> A -> M (list B)) (l : list A) (acc : list B) :
  (forall acc x, In x l ->
                 exists b, body acc x s = Some (acc ++ [b], s) /\ Q x b) ->
  exists bs, for_of l acc body s = Some (acc ++ bs, s) /\ Forall2 Q l bs.
Proof.
  revert acc. induction l as [|x l IH]; intros acc H; simpl.
  - exists []. rewrite app_nil_r. split; [reflexivity | constructor].
  - destruct (H acc x (or_introl eq_refl)) as (b & Hb & Qb).
    unfold bind. rewrite Hb.
    destruct (IH (acc ++ [b]) (fun acc x Hx => H acc x (or_intror Hx)))
      as (bs & Hbs & Qbs).
    exists (b :: bs). rewrite Hbs, <- app_assoc. split; [reflexivity|].
    constructor; assumption.
Qed.

Lemma map_snd_entries (A : Type) (l : list A) : map snd (entries l) = l.
Proof.
  unfold entries. generalize 0.
  induction l as [|x l IH]; intros n; simpl; [reflexivity|].
  f_equal. apply IH.
Qed.

Lemma Forall2_map_l (A A' B : Type) (f : A -> A') (Q : A' -> B -> Prop) l bs :
  Forall2 (fun x b => Q (f x) b) l bs -> Forall2 Q (map f l) bs.
Proof. induction 1; simpl; constructor; assumption. Qed.

(** The pattern that the universal alternative stands for, tested on its
    own. *)
Definition universal_test (universalRegex text_ : jsstring) : bool :=
  match new_RegExp universalRegex (lit "i") with
  | Some RU => fst (test RU text_)
  | None => false
  end.

Definition valid_pattern (src : jsstring) : Prop := parse src <> None.

(** The RegExp of an option: built from a source [P] that parses as the
    literal text [b], and the universal alternative. *)
Lemma option_regexp (P U b : jsstring) (includeUniversal : bool)
      (l : last_term) :
  run pstart P
  = Some (mkP (MNormal l) [mkFrame GNonCapture [] (rev (map Char b))]) ->
  (includeUniversal = true -> valid_pattern U) ->
  exists R,
    new_RegExp (P ++ (if includeUniversal then lit "|" ++ U else []))
               (lit "i") = Some R
    /\ re_flags R = flags_i
    /\ original_source R = P ++ (if includeUniversal then lit "|" ++ U else [])
    /\ forall text_,
         fst (test R text_)
         = occurs flags_i b text_
           || (if includeUniversal then universal_test U text_ else false).
Proof.
  intros HP HU. rewrite new_RegExp_i. destruct includeUniversal.
  - rewrite (@parse_alt_prefix P U l _ HP).
    destruct (parse U) as [rU|] eqn:EU; [|exfalso; apply (HU eq_refl EU)].
    simpl. eexists; repeat split.
    intros text_. rewrite test_stateless by (split; reflexivity). simpl.
    rewrite search_Alt. fold (lit_pattern b). rewrite search_lit_pattern.
    unfold universal_test. rewrite new_RegExp_i, EU.
    rewrite test_stateless by (split; reflexivity). reflexivity.
  - rewrite app_nil_r. unfold parse. rewrite HP. simpl.
    eexists; repeat split.
    intros text_. rewrite test_stateless by (split; reflexivity). simpl.
    unfold mk_disj; simpl. fold (lit_pattern b). rewrite search_lit_pattern.
    rewrite orb_false_r. reflexivity.
Qed.

(** [a || b] for a string [a] that may be undefined: [b] when [a] is
    undefined or empty. *)
Definition or_else (a : option jsstring) (b : jsstring) : jsstring :=
  match a with
  | Some d => if length d =? 0 then b else d
  | None => b
  end.

Lemma or_else_eq (a : option jsstring) (b : jsstring) :
  Some match a with
       | Some ((_ :: _) as d) => d
       | _ => b
       end
  = Some (or_else a b).
Proof. destruct a as [[|c d]|]; reflexivity. Qed.

(** What one generated option is: an option bound to [groups_] with the
    description [d], whose RegExp was made from the text [P] followed by
    the universal alternative, and finds the text [b], or what the
    universal pattern finds when that is included. *)
Definition generated_option (groups_ : list nat) (includeUniversal : bool)
           (universalRegex P b : jsstring) (d : option jsstring)
           (sm : submatcher) : Prop :=
  type sm = option_
  /\ groups sm = Some groups_
  /\ description sm = d
  /\ exists R,
       regex sm = Some R
       /\ re_flags R = flags_i
       /\ original_source R
          = P ++ (if includeUniversal then lit "|" ++ universalRegex else [])
       /\ forall text_,
            fst (test R text_)
            = occurs flags_i b text_
              || (if includeUniversal then universal_test universalRegex text_
                  else false).

Lemma In_entries (A : Type) (l : list A) (i : nat) (x : A) :
  In (i, x) (entries l) -> In x l.
Proof.
  intros H. apply (in_map snd) in H. rewrite map_snd_entries in H. exact H.
Qed.

Lemma valid_all_type : valid_pattern (lit "all|type").
Proof. vm_compute. discriminate. Qed.

Lemma valid_modu : valid_pattern modu.
Proof. vm_compute. discriminate. Qed.

Lemma universal_valid (includeUniversal : option bool)
      (universalRegex : option jsstring) (d : jsstring) :
  valid_pattern d ->
  (includeUniversal <> Some false ->
   forall u, universalRegex = Some u -> valid_pattern u) ->
  or_default true includeUniversal = true ->
  valid_pattern (or_default d universalRegex).
Proof.
  intros Hd H Hi. destruct universalRegex as [u|]; simpl; [|exact Hd].
  apply H; [|reflexivity]. intros ->. discriminate.
Qed.

Lemma bracketed_source (id X : jsstring) :
  lit "\[" ++ id ++ lit "\]" ++ X = (lit "\[" ++ id ++ lit "\]") ++ X.
Proof. simpl. rewrite <- app_assoc. reflexivity. Qed.

Lemma run_plain_start (id : jsstring) :
  plain id ->
  run pstart id
  = Some (mkP (MNormal (match id with [] => LNone | _ => LAtom end))
              [mkFrame GNonCapture [] (rev (map Char id))]).
Proof.
  intros P. unfold pstart. rewrite (run_plain P). simpl.
  rewrite app_nil_r. reflexivity.
Qed.

Section Generated.
Variables (s : module_state) (groups_ : list nat).
Variables (includeUniversal : option bool) (universalRegex : option jsstring).
Hypothesis universal_ok :
  includeUniversal <> Some false ->
  forall u, universalRegex = Some u -> valid_pattern u.

Let inc : bool := or_default true includeUniversal.

Lemma types_generated :
  Forall plain (types s) ->
  exists subs,
    createTypesSubmatchers groups_ includeUniversal universalRegex s
    = Some (subs, s)
    /\ Forall2 (fun id sm =>
                  generated_option groups_ inc
                    (or_default (lit "all|type") universalRegex)
                    (lit "\[" ++ id ++ lit "\]") (lit "[" ++ id ++ lit "]")
                    (get (typeKoMap s) id) sm)
               (types s) subs.
Proof.
  intros Pt. rewrite Forall_forall in Pt.
  assert (Vt : inc = true ->
               valid_pattern (or_default (lit "all|type") universalRegex))
    by (apply universal_valid; [apply valid_all_type | exact universal_ok]).
  unfold createTypesSubmatchers. fold inc. rewrite bind_read.
  destruct (@for_of_push (nat * jsstring) submatcher
              (fun p sm => generated_option groups_ inc
                             (or_default (lit "all|type") universalRegex)
                             (lit "\[" ++ snd p ++ lit "\]")
                             (lit "[" ++ snd p ++ lit "]")
                             (get (typeKoMap s) (snd p)) sm)
              s
              (fun result it =>
                 let (i, type_) := it : nat * jsstring in
                 bind (read typeKoMap) (fun typeKoMap =>
                 bind (throwing
                         (new_RegExp
                            (lit "\[" ++ type_ ++ lit "\]"
                             ++ (if inc
                                 then lit "|"
                                      ++ or_default (lit "all|type")
                                                    universalRegex
                                 else []))
                            (lit "i")))
                      (fun re =>
                 ret (result ++ [ {|
                   type := option_;
                   description := get typeKoMap type_;
                   regex := Some re;
                   radioGroup := None;
                   cssClasses :=
                     Some [if i <? 3 then lit "min-width-4"
                           else lit "min-width-6"];
                   groups := Some groups_ |} ]))))
              (entries (types s)) []) as (subs & Hs & Hq).
  - intros acc [i id] Hin. apply In_entries in Hin.
    rewrite bind_read, bind_throwing, bracketed_source.
    destruct (@option_regexp (lit "\[" ++ id ++ lit "\]")
                (or_default (lit "all|type") universalRegex)
                (lit "[" ++ id ++ lit "]") inc LAtom
                (run_bracketed (Pt id Hin)) Vt) as (R & HR & Hf & Hsrc & HT).
    rewrite HR. eexists; split; [reflexivity|].
    split; [reflexivity|]. split; [reflexivity|]. split; [reflexivity|].
    exists R. split; [reflexivity|]. split; [exact Hf|].
    split; [exact Hsrc | exact HT].
  - exists subs. split; [exact Hs|].
    rewrite <- (map_snd_entries (types s)).
    apply Forall2_map_l. exact Hq.
Qed.

Lemma classes_generated :
  Forall plain (classes s) ->
  exists subs,
    createClassesSubmatchers groups_ includeUniversal universalRegex s
    = Some (subs, s)
    /\ Forall2 (fun id sm =>
                  generated_option groups_ inc
                    (or_default modu universalRegex) id id
                    (get (classKoMap s) id) sm)
               (classes s) subs.
Proof.
  intros Pc. rewrite Forall_forall in Pc.
  assert (Vm : inc = true -> valid_pattern (or_default modu universalRegex))
    by (apply universal_valid; [apply valid_modu | exact universal_ok]).
  unfold createClassesSubmatchers. fold inc. rewrite bind_read.
  destruct (@for_of_push (nat * jsstring) submatcher
              (fun p sm => generated_option groups_ inc
                             (or_default modu universalRegex)
                             (snd p) (snd p)
                             (get (classKoMap s) (snd p)) sm)
              s
              (fun result it =>
                 let (i, class_) := it : nat * jsstring in
                 bind (read classKoMap) (fun classKoMap =>
                 bind (throwing
                         (new_RegExp
                            (class_
                             ++ (if inc
                                 then lit "|"
                                      ++ or_default modu universalRegex
                                 else []))
                            (lit "i")))
                      (fun re =>
                 ret (result ++ [ {|
                   type := option_;
                   description := get classKoMap class_;
                   regex := Some re;
                   radioGroup := None;
                   cssClasses := Some [lit "min-width-6"];
                   groups := Some groups_ |} ]))))
              (entries (classes s)) []) as (subs & Hs & Hq).
  - intros acc [i id] Hin. apply In_entries in Hin.
    rewrite bind_read, bind_throwing.
    destruct (@option_regexp id (or_default modu universalRegex) id inc _
                (run_plain_start (Pc id Hin)) Vm) as (R & HR & Hf & Hsrc & HT).
    rewrite HR. eexists; split; [reflexivity|].
    split; [reflexivity|]. split; [reflexivity|]. split; [reflexivity|].
    exists R. split; [reflexivity|]. split; [exact Hf|].
    split; [exact Hsrc | exact HT].
  - exists subs. split; [exact Hs|].
    rewrite <- (map_snd_entries (classes s)).
    apply Forall2_map_l. exact Hq.
Qed.

Lemma orbs_generated (orbs : list jsstring) :
  Forall plain orbs ->
  exists subs,
    createOrbsSubmatchers orbs groups_ includeUniversal universalRegex s
    = Some (subs, s)
    /\ Forall2 (fun id sm =>
                  generated_option groups_ inc
                    (or_default modu universalRegex)
                    (lit "\[" ++ id ++ lit "\]") (lit "[" ++ id ++ lit "]")
                    (Some (or_else (get (orbKoMap s) id) id)) sm)
               orbs subs.
Proof.
  intros Po. rewrite Forall_forall in Po.
  assert (Vm : inc = true -> valid_pattern (or_default modu universalRegex))
    by (apply universal_valid; [apply valid_modu | exact universal_ok]).
  unfold createOrbsSubmatchers. fold inc.
  destruct (@for_of_push (nat * jsstring) submatcher
              (fun p sm => generated_option groups_ inc
                             (or_default modu universalRegex)
                             (lit "\[" ++ snd p ++ lit "\]")
                             (lit "[" ++ snd p ++ lit "]")
                             (Some (or_else (get (orbKoMap s) (snd p))
                                            (snd p))) sm)
              s
              (fun result it =>
                 let (i, orb) := it : nat * jsstring in
                 let minWidth :=
                   if length orb <=? 3 then lit "2"
                   else if length orb <=? 5 then lit "3"
                   else lit "6" in
                 bind (read orbKoMap) (fun orbKoMap =>
                 bind (throwing
                         (new_RegExp
                            (lit "\[" ++ orb ++ lit "\]"
                             ++ (if inc
                                 then lit "|"
                                      ++ or_default modu universalRegex
                                 else []))
                            (lit "i")))
                      (fun re =>
                 ret (result ++ [ {|
                   type := option_;
                   description :=
                     Some match get orbKoMap orb with
                          | Some ((_ :: _) as d) => d
                          | _ => orb
                          end;
                   regex := Some re;
                   radioGroup := None;
                   cssClasses := Some [lit "min-width-" ++ minWidth];
                   groups := Some groups_ |} ]))))
              (entries orbs) []) as (subs & Hs & Hq).
  - intros acc [i id] Hin. apply In_entries in Hin.
    cbv zeta. rewrite bind_read, bind_throwing, bracketed_source.
    destruct (@option_regexp (lit "\[" ++ id ++ lit "\]")
                (or_default modu universalRegex)
                (lit "[" ++ id ++ lit "]") inc LAtom
                (run_bracketed (Po id Hin)) Vm) as (R & HR & Hf & Hsrc & HT).
    rewrite HR. eexists; split; [reflexivity|].
    split; [reflexivity|]. split; [reflexivity|].
    split; [apply or_else_eq|].
    exists R. split; [reflexivity|]. split; [exact Hf|].
    split; [exact Hsrc | exact HT].
  - exists subs. split; [exact Hs|].
    rewrite <- (map_snd_entries orbs) at 1.
    apply Forall2_map_l. exact Hq.
Qed.
End Generated.

(** What C5 says of one generated option: an option bound to [groups_]
    whose RegExp finds the text [b] and, in any text, finds exactly an
    occurrence of [b] or, when the universal alternative is included, what
    the universal pattern finds. *)
Definition option_for (groups_ : list nat) (includeUniversal : bool)
           (universalRegex b : jsstring) (sm : submatcher) : Prop :=
  type sm = option_
  /\ groups sm = Some groups_
  /\ exists R,
       regex sm = Some R
       /\ fst (test R b) = true
       /\ forall text_,
            fst (test R text_)
            = occurs flags_i b text_
              || (if includeUniversal then universal_test universalRegex text_
                  else false).

Lemma generated_option_for groups_ inc U P b d sm :
  generated_option groups_ inc U P b d sm ->
  option_for groups_ inc U b sm /\ description sm = d.
Proof.
  intros (Ht & Hg & Hd & R & HR & _ & _ & HT).
  split; [|exact Hd].
  split; [exact Ht|]. split; [exact Hg|].
  exists R. split; [exact HR|]. split; [|exact HT].
  rewrite HT, occurs_self. reflexivity.
Qed.

(** C5. For the tables of types and classes and for every list of orbs,
    whose ids are free of pattern syntax, the generators return one option
    per entry, in the order of the table, each bound to the given groups;
    its RegExp finds exactly the texts that contain ["[" + id + "]"] (the
    bare id for classes), together with the texts that the universal
    pattern finds exactly when [includeUniversal] is set.  For an id that
    is not a name of [Object.prototype], the description of the option is
    the entry of the id in the map of the table; for orbs, the id itself
    when the map has no text for it.  The state of the module is left as
    it was. *)
Theorem option_set_one_per_entry :
  forall (s : module_state) (orbs : list jsstring) (groups_ : list nat)
         (includeUniversal : option bool) (universalRegex : option jsstring),
    Forall plain (types s) ->
    Forall plain (classes s) ->
    Forall plain orbs ->
    (includeUniversal <> Some false ->
     forall u, universalRegex = Some u -> valid_pattern u) ->
    let inc := or_default true includeUniversal in
    (exists subs,
        createTypesSubmatchers groups_ includeUniversal universalRegex s
        = Some (subs, s)
        /\ Forall2 (fun id sm =>
                      option_for groups_ inc
                                 (or_default (lit "all|type") universalRegex)
                                 (lit "[" ++ id ++ lit "]") sm
                      /\ (inherited id = false ->
                          description sm = get (typeKoMap s) id))
                   (types s) subs)
    /\ (exists subs,
           createClassesSubmatchers groups_ includeUniversal universalRegex s
           = Some (subs, s)
           /\ Forall2 (fun id sm =>
                         option_for groups_ inc
                                    (or_default modu universalRegex) id sm
                         /\ (inherited id = false ->
                             description sm = get (classKoMap s) id))
                      (classes s) subs)
    /\ (exists subs,
           createOrbsSubmatchers orbs groups_ includeUniversal universalRegex s
           = Some (subs, s)
           /\ Forall2 (fun id sm =>
                         option_for groups_ inc
                                    (or_default modu universalRegex)
                                    (lit "[" ++ id ++ lit "]") sm
                         /\ (inherited id = false ->
                             description sm
                             = Some (or_else (get (orbKoMap s) id) id)))
                      orbs subs).
Proof.
  intros s orbs groups_ includeUniversal universalRegex Pt Pc Po HU inc.
  split; [|split].
  - destruct (types_generated s groups_ HU Pt) as (subs & Hs & Hq).
    exists subs. split; [exact Hs|].
    revert Hq. apply Forall2_impl. intros id sm G.
    destruct (generated_option_for G) as [O D].
    split; [exact O | intros _; exact D].
  - destruct (classes_generated s groups_ HU Pc) as (subs & Hs & Hq).
    exists subs. split; [exact Hs|].
    revert Hq. apply Forall2_impl. intros id sm G.
    destruct (generated_option_for G) as [O D].
    split; [exact O | intros _; exact D].
  - destruct (orbs_generated s groups_ HU Po) as (subs & Hs & Hq).
    exists subs. split; [exact Hs|].
    revert Hq. apply Forall2_impl. intros id sm G.
    destruct (generated_option_for G) as [O D].
    split; [exact O | intros _; exact D].
Qed.

(** [R] is what [new RegExp(P, "i")] returns: the pattern text is [P] as
    it stands, and the pattern is the one that [P] parses to. *)
Definition made_from (P : jsstring) (R : regexp) : Prop :=
  original_source R = P
  /\ parse P = Some (compiled R)
  /\ re_flags R = flags_i.

Lemma new_RegExp_made (P : jsstring) (R : regexp) :
  new_RegExp P (lit "i") = Some R -> made_from P R.
Proof.
  unfold new_RegExp, made_from. intros E.
  destruct (parse P) as [r|]; [|discriminate].
  injection E as <-. repeat split.
Qed.

(** What a loop whose body pushes one element for each [x] has pushed when
    it returns. *)
Lemma for_of_pushed (A B : Type) (Q : A -> B -> Prop)
      (body : list B -> A -> M (list B)) (l : list A) :
  (forall acc x s r s',
      In x l -> body acc x s = Some (r, s') ->
      exists b, r = acc ++ [b] /\ Q x b) ->
  forall acc s r s',
    for_of l acc body s = Some (r, s') ->
    exists bs, r = acc ++ bs /\ Forall2 Q l bs.
Proof.
  induction l as [|x l IH]; intros H acc s r s' E; simpl in E.
  - unfold ret in E. injection E as <- _.
    exists []. rewrite app_nil_r. split; [reflexivity | constructor].
  - unfold bind in E.
    destruct (body acc x s) as [[r1 s1]|] eqn:Eb; [|discriminate].
    destruct (H acc x s r1 s1 (or_introl eq_refl) Eb) as (b & -> & Qb).
    destruct (IH (fun acc x s r s' Hx => H acc x s r s' (or_intror Hx))
                 _ _ _ _ E) as (bs & -> & Qbs).
    exists (b :: bs). rewrite <- app_assoc. split; [reflexivity|].
    constructor; assumption.
Qed.

(** Whatever the ids are, an option that the generator of orbs returns has
    a RegExp made from the text ["\[" + id + "\]"] and the universal
    alternative. *)
Lemma orbs_made_from s orbs groups_ includeUniversal universalRegex subs s' :
  createOrbsSubmatchers orbs groups_ includeUniversal universalRegex s
  = Some (subs, s') ->
  Forall2 (fun id sm =>
             exists R,
               regex sm = Some R
               /\ made_from (lit "\[" ++ id ++ lit "\]"
                             ++ (if or_default true includeUniversal
                                 then lit "|" ++ or_default modu universalRegex
                                 else []))
                            R)
          orbs subs.
Proof.
  unfold createOrbsSubmatchers. intros E.
  apply (@for_of_pushed _ _
           (fun (p : nat * jsstring) sm =>
              exists R,
                regex sm = Some R
                /\ made_from (lit "\[" ++ snd p ++ lit "\]"
                              ++ (if or_default true includeUniversal
                                  then lit "|"
                                       ++ or_default modu universalRegex
                                  else []))
                             R)) in E.
  - destruct E as (bs & -> & Q). simpl.
    rewrite <- (map_snd_entries orbs) at 1.
    apply Forall2_map_l. exact Q.
  - intros acc [i id] s0 r s1 _ Eb.
    rewrite bind_read, bind_throwing in Eb.
    destruct (new_RegExp _ _) as [R|] eqn:ER; [|discriminate].
    unfold ret in Eb. injection Eb as <- _.
    eexists; split; [reflexivity|].
    exists R. split; [reflexivity|]. apply new_RegExp_made. exact ER.
Qed.

Lemma classes_made_from s groups_ includeUniversal universalRegex subs s' :
  createClassesSubmatchers groups_ includeUniversal universalRegex s
  = Some (subs, s') ->
  Forall2 (fun id sm =>
             exists R,
               regex sm = Some R
               /\ made_from (id
                             ++ (if or_default true includeUniversal
                                 then lit "|" ++ or_default modu universalRegex
                                 else []))
                            R)
          (classes s) subs.
Proof.
  unfold createClassesSubmatchers. rewrite bind_read. intros E.
  apply (@for_of_pushed _ _
           (fun (p : nat * jsstring) sm =>
              exists R,
                regex sm = Some R
                /\ made_from (snd p
                              ++ (if or_default true includeUniversal
                                  then lit "|"
                                       ++ or_default modu universalRegex
                                  else []))
                             R)) in E.
  - destruct E as (bs & -> & Q). simpl.
    rewrite <- (map_snd_entries (classes s)) at 1.
    apply Forall2_map_l. exact Q.
  - intros acc [i id] s0 r s1 _ Eb.
    rewrite bind_read, bind_throwing in Eb.
    destruct (new_RegExp _ _) as [R|] eqn:ER; [|discriminate].
    unfold ret in Eb. injection Eb as <- _.
    eexists; split; [reflexivity|].
    exists R. split; [reflexivity|]. apply new_RegExp_made. exact ER.
Qed.

(** C6, as the code has it.  The generators do not escape an id.  Whatever
    the id is, the RegExp of a returned option is made from the text
    ["\[" + id + "\]"] (the bare id for classes), followed by the universal
    alternative when that is included, with the id as it stands: the
    pattern is what that text parses to.  For every id that is free of
    pattern syntax, the RegExp generated without the universal alternative
    finds exactly the texts that contain the bracketed (for classes: the
    bare) id itself, code unit by code unit up to case. *)
Theorem ids_interpolated_verbatim :
  forall (s : module_state) (orbs : list jsstring) (groups_ : list nat)
         (includeUniversal : option bool) (universalRegex : option jsstring),
    (forall subs s',
        createOrbsSubmatchers orbs groups_ includeUniversal universalRegex s
        = Some (subs, s') ->
        Forall2 (fun id sm =>
                   exists R,
                     regex sm = Some R
                     /\ made_from
                          (lit "\[" ++ id ++ lit "\]"
                           ++ (if or_default true includeUniversal
                               then lit "|" ++ or_default modu universalRegex
                               else []))
                          R)
                orbs subs)
    /\ (forall subs s',
           createClassesSubmatchers groups_ includeUniversal universalRegex s
           = Some (subs, s') ->
           Forall2 (fun id sm =>
                      exists R,
                        regex sm = Some R
                        /\ made_from
                             (id
                              ++ (if or_default true includeUniversal
                                  then lit "|"
                                       ++ or_default modu universalRegex
                                  else []))
                             R)
                   (classes s) subs)
    /\ (Forall plain orbs ->
        exists subs,
          createOrbsSubmatchers orbs groups_ (Some false) universalRegex s
          = Some (subs, s)
          /\ Forall2 (fun id sm =>
                        exists R,
                          regex sm = Some R
                          /\ original_source R = lit "\[" ++ id ++ lit "\]"
                          /\ forall text_,
                               fst (test R text_)
                               = occurs flags_i (lit "[" ++ id ++ lit "]")
                                        text_)
                     orbs subs)
    /\ (Forall plain (classes s) ->
        exists subs,
          createClassesSubmatchers groups_ (Some false) universalRegex s
          = Some (subs, s)
          /\ Forall2 (fun id sm =>
                        exists R,
                          regex sm = Some R
                          /\ original_source R = id
                          /\ forall text_,
                               fst (test R text_) = occurs flags_i id text_)
                     (classes s) subs).
Proof.
  intros s orbs groups_ includeUniversal universalRegex.
  assert (HU : Some false <> Some false ->
               forall u, universalRegex = Some u -> valid_pattern u)
    by congruence.
  split; [|split; [|split]].
  - intros subs s'. apply orbs_made_from.
  - intros subs s'. apply classes_made_from.
  - intros Po.
    destruct (orbs_generated s groups_ HU Po) as (subs & Hs & Hq).
    exists subs. split; [exact Hs|].
    revert Hq. apply Forall2_impl.
    intros id sm (_ & _ & _ & R & HR & _ & Hsrc & HT).
    exists R. split; [exact HR|]. simpl in Hsrc, HT. split.
    + rewrite Hsrc. simpl. rewrite <- app_assoc. reflexivity.
    + intros text_. rewrite HT, orb_false_r. reflexivity.
  - intros Pc.
    destruct (classes_generated s groups_ HU Pc) as (subs & Hs & Hq).
    exists subs. split; [exact Hs|].
    revert Hq. apply Forall2_impl.
    intros id sm (_ & _ & _ & R & HR & _ & Hsrc & HT).
    exists R. split; [exact HR|]. simpl in Hsrc, HT. split.
    + rewrite Hsrc. apply app_nil_r.
    + intros text_. rewrite HT, orb_false_r. reflexivity.
Qed.

(** C10. In the combined mode (not rows and columns) and without the
    universal alternative, the second option is the one for the captain:
    its RegExp finds a match in "the Captain" and none in "Friend Captain",
    while the RegExp of the first option, the friend captain's, finds a
    match in "Friend Captain". *)
Theorem captain_is_not_friend_captain :
  forall (s : module_state) (groups_ : list nat)
         (universalRegex : option jsstring)
         (excludedSubmatchers : option (list jsstring)),
  exists friend captain others Rf Rc,
    createPositionsSubmatchers groups_ (Some false) universalRegex
                               excludedSubmatchers (Some false) s
    = Some (friend :: captain :: others, s)
    /\ regex friend = Some Rf
    /\ source Rf = lit "left column|top(?! right)|Friend Captain"
    /\ regex captain = Some Rc
    /\ source Rc = lit "right column|top(?! left)|(?:^|(?!end ).{4})Captain"
    /\ fst (test Rc (lit "the Captain")) = true
    /\ fst (exec Rc (lit "Friend Captain")) = NotFound
    /\ fst (test Rc (lit "Friend Captain")) = false
    /\ fst (test Rf (lit "Friend Captain")) = true.
Proof.
  intros s groups_ universalRegex excludedSubmatchers.
  unfold createPositionsSubmatchers.
  generalize (includes (or_default [] excludedSubmatchers) (lit "Adjacent")).
  generalize (includes (or_default [] excludedSubmatchers) (lit "Selected")).
  generalize (includes (or_default [] excludedSubmatchers) (lit "Self")).
  intros x y z.
  destruct x, y, z;
    (do 5 eexists;
     split; [vm_compute; reflexivity|];
     split; [reflexivity|]; split; [reflexivity|];
     split; [reflexivity|]; split; [reflexivity|];
     repeat split; vm_compute; reflexivity).
Qed.

(** ** Calls leave the module as it was *)

(** [returns_pure Q c]: a call of [c] that returns leaves the state of the
    module unchanged, and its result satisfies [Q]. *)
Definition returns_pure (A : Type) (Q : A -> Prop) (c : M A) : Prop :=
  forall s, match c s with
            | Some (a, s') => s' = s /\ Q a
            | None => True
            end.

Lemma pure_ret (A : Type) (Q : A -> Prop) (a : A) :
  Q a -> returns_pure Q (ret a).
Proof. intros H s. simpl. auto. Qed.

Lemma pure_read (A : Type) (f : module_state -> A) :
  returns_pure (fun _ => True) (read f).
Proof. intros s. simpl. auto. Qed.

Lemma pure_throwing (A : Type) (o : option A) :
  returns_pure (fun a => o = Some a) (throwing o).
Proof. intros s. unfold throwing. destruct o; auto. Qed.

Lemma pure_bind (A B : Type) (Q1 : A -> Prop) (Q2 : B -> Prop)
      (c : M A) (k : A -> M B) :
  returns_pure Q1 c ->
  (forall a, Q1 a -> returns_pure Q2 (k a)) ->
  returns_pure Q2 (bind c k).
Proof.
  intros Hc Hk s. unfold bind. specialize (Hc s).
  destruct (c s) as [[a s']|]; [|exact I].
  destruct Hc as [-> Qa]. apply (Hk a Qa s).
Qed.

Lemma pure_for_of (A B : Type) (Inv : B -> Prop) (body : B -> A -> M B)
      (l : list A) :
  (forall acc x, Inv acc -> returns_pure Inv (body acc x)) ->
  forall acc, Inv acc -> returns_pure Inv (for_of l acc body).
Proof.
  intros Hb. induction l as [|x l IH]; intros acc Hacc; simpl.
  - apply pure_ret, Hacc.
  - eapply pure_bind; [apply Hb, Hacc | exact IH].
Qed.

(** The RegExp of a submatcher keeps no state between uses. *)
Definition keeps_no_state (sm : submatcher) : Prop :=
  forall R, regex sm = Some R -> stateless R.

Lemma new_RegExp_i_stateless (src : jsstring) (R : regexp) :
  new_RegExp src (lit "i") = Some R -> stateless R.
Proof.
  rewrite new_RegExp_i. destruct (parse src); [|discriminate].
  intros H; inversion H; subst. split; reflexivity.
Qed.

Lemma Forall_push (A : Type) (P : A -> Prop) (l : list A) (a : A) :
  Forall P l -> P a -> Forall P (l ++ [a]).
Proof. intros Hl Ha. apply Forall_app. split; [exact Hl | repeat constructor; exact Ha]. Qed.

Lemma push_option_pure result description_ base includeUniversal
      universalRegex cssClass groups_ :
  Forall keeps_no_state result ->
  returns_pure (Forall keeps_no_state)
               (push_option result description_ base includeUniversal
                            universalRegex cssClass groups_).
Proof.
  intros H. unfold push_option.
  eapply pure_bind; [apply pure_throwing|].
  intros re Hre. apply pure_ret, Forall_push; [exact H|].
  intros R E. simpl in E. inversion E; subst.
  eapply new_RegExp_i_stateless, Hre.
Qed.

Lemma createTypesSubmatchers_pure groups_ includeUniversal universalRegex :
  returns_pure (Forall keeps_no_state)
               (createTypesSubmatchers groups_ includeUniversal universalRegex).
Proof.
  unfold createTypesSubmatchers.
  eapply pure_bind; [apply pure_read|]. intros ts _.
  apply pure_for_of; [|constructor].
  intros acc [i id] Hacc.
  eapply pure_bind; [apply pure_read|]. intros km _.
  eapply pure_bind; [apply pure_throwing|].
  intros re Hre. apply pure_ret, Forall_push; [exact Hacc|].
  intros R E. simpl in E. inversion E; subst.
  eapply new_RegExp_i_stateless, Hre.
Qed.

Lemma createClassesSubmatchers_pure groups_ includeUniversal universalRegex :
  returns_pure (Forall keeps_no_state)
               (createClassesSubmatchers groups_ includeUniversal
                                         universalRegex).
Proof.
  unfold createClassesSubmatchers.
  eapply pure_bind; [apply pure_read|]. intros ts _.
  apply pure_for_of; [|constructor].
  intros acc [i id] Hacc.
  eapply pure_bind; [apply pure_read|]. intros km _.
  eapply pure_bind; [apply pure_throwing|].
  intros re Hre. apply pure_ret, Forall_push; [exact Hacc|].
  intros R E. simpl in E. inversion E; subst.
  eapply new_RegExp_i_stateless, Hre.
Qed.

Lemma createOrbsSubmatchers_pure orbs groups_ includeUniversal universalRegex :
  returns_pure (Forall keeps_no_state)
               (createOrbsSubmatchers orbs groups_ includeUniversal
                                      universalRegex).
Proof.
  unfold createOrbsSubmatchers.
  apply pure_for_of; [|constructor].
  intros acc [i id] Hacc. cbv zeta.
  eapply pure_bind; [apply pure_read|]. intros km _.
  eapply pure_bind; [apply pure_throwing|].
  intros re Hre. apply pure_ret, Forall_push; [exact Hacc|].
  intros R E. simpl in E. inversion E; subst.
  eapply new_RegExp_i_stateless, Hre.
Qed.

Ltac pure_pushes :=
  repeat first
    [ apply push_option_pure; assumption
    | apply pure_ret; assumption
    | match goal with
      | |- returns_pure _ (if ?b then _ else _) => destruct b
      | |- returns_pure _ (bind _ _) =>
          apply (@pure_bind _ _ (Forall keeps_no_state)); [|intros ? ?]
      | |- returns_pure _ (for_of _ _ _) =>
          apply pure_for_of; [intros ? [? ?] ?|assumption]
      end ].

Lemma createPositionsSubmatchers_pure groups_ includeUniversal universalRegex
      excludedSubmatchers useRowsAndColumns :
  returns_pure (Forall keeps_no_state)
               (createPositionsSubmatchers groups_ includeUniversal
                                           universalRegex excludedSubmatchers
                                           useRowsAndColumns).
Proof.
  unfold createPositionsSubmatchers. cbv zeta.
  assert (H0 : Forall keeps_no_state []) by constructor.
  pure_pushes.
Qed.

Lemma createUniversalSubmatcher_pure groups_ universalRegex :
  returns_pure (Forall keeps_no_state)
               (createUniversalSubmatcher groups_ universalRegex).
Proof.
  unfold createUniversalSubmatcher. cbv zeta.
  eapply pure_bind; [apply pure_throwing|].
  intros re Hre. apply pure_ret. constructor; [|constructor].
  intros R E. simpl in E. inversion E; subst.
  eapply new_RegExp_i_stateless, Hre.
Qed.

(** ** The registry *)

(** The registrations in the order of the three nested loops: group,
    matcher, target. *)
Definition registrations (matchers : obj (list matcher))
  : list (jsstring * matcher * jsstring) :=
  flat_map (fun group_ =>
    flat_map (fun matcher_ =>
      map (fun target_ => (group_, matcher_, target_)) (targets matcher_))
      (or_default [] (get matchers group_)))
    (keys matchers).

Definition register_one (includeOldFilters : bool) (reg : registry)
           (r : jsstring * matcher * jsstring) : registry :=
  register includeOldFilters (fst (fst r)) (snd (fst r)) reg (snd r).

Definition initial_registry : registry := {|
  window_matchers := fold_left (fun wm target_ => set wm target_ [])
                               allTargets [];
  console_error := []
|}.

(** The registry when the first three loops are done. *)
Definition registered (includeOldFilters : bool)
           (matchers : obj (list matcher)) : registry :=
  fold_left (register_one includeOldFilters) (registrations matchers)
            initial_registry.

Lemma fold_left_flat_map (A B C : Type) (f : A -> C -> A) (g : B -> list C)
      (l : list B) (a : A) :
  fold_left f (flat_map g l) a
  = fold_left (fun a x => fold_left f (g x) a) l a.
Proof.
  revert a; induction l as [|x l IH]; intros a; simpl; [reflexivity|].
  rewrite fold_left_app. apply IH.
Qed.

Lemma fold_left_map (A B C : Type) (f : A -> C -> A) (h : B -> C)
      (l : list B) (a : A) :
  fold_left f (map h l) a = fold_left (fun a x => f a (h x)) l a.
Proof.
  revert a; induction l as [|x l IH]; intros a; simpl; [reflexivity|].
  apply IH.
Qed.

Lemma fold_left_ext (A B : Type) (f g : A -> B -> A) (l : list B) (a : A) :
  (forall a x, f a x = g a x) -> fold_left f l a = fold_left g l a.
Proof.
  intros E. revert a; induction l as [|x l IH]; intros a; simpl;
    [reflexivity|]. rewrite E. apply IH.
Qed.

Lemma build_registered (includeOldFilters_ alphabeticalOrder_ : bool)
      (matchers : obj (list matcher)) :
  build includeOldFilters_ alphabeticalOrder_ matchers
  = if alphabeticalOrder_ then
      {| window_matchers :=
           sort_groups (window_matchers (registered includeOldFilters_ matchers));
         console_error :=
           console_error (registered includeOldFilters_ matchers) |}
    else registered includeOldFilters_ matchers.
Proof.
  unfold build, registered, registrations.
  rewrite fold_left_flat_map.
  assert (E : forall l reg,
    fold_left (fun reg group_ =>
                 fold_left (fun reg matcher_ =>
                              fold_left (register includeOldFilters_ group_ matcher_)
                                        (targets matcher_) reg)
                           (or_default [] (get matchers group_)) reg) l reg
    = fold_left (fun a x =>
                   fold_left (register_one includeOldFilters_)
                     (flat_map (fun matcher_ =>
                                  map (fun target_ => (x, matcher_, target_))
                                      (targets matcher_))
                               (or_default [] (get matchers x))) a) l reg).
  { intros l reg. apply fold_left_ext. intros a g.
    rewrite fold_left_flat_map. apply fold_left_ext. intros a' mt.
    rewrite fold_left_map. reflexivity. }
  rewrite E. reflexivity.
Qed.

(** [wm[target][group][name]] *)
Definition lookup3 (wm : obj (obj (obj matcher))) (target_ group_ name_ : jsstring)
  : option matcher :=
  match get wm target_ with
  | Some of_target =>
      match get of_target group_ with
      | Some of_group => get of_group name_
      | None => None
      end
  | None => None
  end.

(** One registration that is not skipped writes its copy under its
    target, group and new name, and nothing else. *)
Lemma lookup_register (inc : bool) (g : jsstring) (mt : matcher)
      (reg : registry) (t t' g' n' : jsstring) :
  skipped inc mt = false ->
  lookup (register inc g mt reg t) t' g' n'
  = if str_eqb t t' && str_eqb g g' && str_eqb (newName mt t) n'
    then Some (matcherCopy mt t g)
    else lookup reg t' g' n'.
Proof.
  intros K. unfold register, lookup. rewrite K. cbn [window_matchers].
  rewrite get_set.
  destruct (str_eqb t t') eqn:Et; simpl.
  - apply str_eqb_eq in Et; subst t'.
    rewrite get_set.
    destruct (str_eqb g g') eqn:Eg; simpl.
    + apply str_eqb_eq in Eg; subst g'.
      rewrite get_set.
      destruct (str_eqb (newName mt t) n') eqn:En; [reflexivity|].
      destruct (get (window_matchers reg) t) as [ot|] eqn:Ht; simpl.
      * rewrite Ht; simpl.
        destruct (get ot g) as [og|] eqn:Hg; simpl.
        -- rewrite Hg; reflexivity.
        -- rewrite get_set_same; reflexivity.
      * rewrite get_set_same; simpl. rewrite str_eqb_refl; reflexivity.
    + destruct (get (window_matchers reg) t) as [ot|] eqn:Ht; simpl.
      * rewrite Ht; simpl.
        destruct (get ot g) as [og|] eqn:Hg; simpl; [reflexivity|].
        rewrite get_set, Eg. reflexivity.
      * rewrite get_set_same; simpl. rewrite Eg. reflexivity.
  - destruct (get (window_matchers reg) t) as [ot|] eqn:Ht; [reflexivity|].
    rewrite get_set, Et. reflexivity.
Qed.

Lemma lookup_register_skipped (inc : bool) (g : jsstring) (mt : matcher)
      (reg : registry) (t : jsstring) :
  skipped inc mt = true -> register inc g mt reg t = reg.
Proof. intros K. unfold register. rewrite K. reflexivity. Qed.

(** [console.error] is called exactly when the name is taken. *)
Lemma console_register (inc : bool) (g : jsstring) (mt : matcher)
      (reg : registry) (t : jsstring) :
  skipped inc mt = false ->
  console_error (register inc g mt reg t)
  = match lookup reg t g (newName mt t) with
    | Some _ => console_error reg ++ [duplicate_message (newName mt t)]
    | None => console_error reg
    end.
Proof.
  intros K. unfold register, lookup. rewrite K. cbn [console_error].
  destruct (get (window_matchers reg) t) as [ot|] eqn:Ht; simpl.
  - rewrite Ht; simpl.
    destruct (get ot g) as [og|] eqn:Hg; simpl.
    + rewrite Hg; reflexivity.
    + rewrite get_set_same; reflexivity.
  - rewrite get_set_same; simpl. rewrite str_eqb_refl; reflexivity.
Qed.

(** No registration that is not skipped has a name of [Object.prototype]
    as its target, its group or its new name.  The reads on lines 8017,
    8020 and 8031 and the assignment on line 8043 then concern own
    properties only, which is what [register] models; the statements below
    that a table with such a name would contradict are made for the
    tables that satisfy this test. *)
Definition own_keys_only (inc : bool) (matchers : obj (list matcher)) : bool :=
  forallb (fun r : jsstring * matcher * jsstring =>
             skipped inc (snd (fst r))
             || (negb (inherited (snd r))
                 && negb (inherited (fst (fst r)))
                 && negb (inherited (newName (snd (fst r)) (snd r)))))
          (registrations matchers).

(** *** Which registration an entry comes from *)

(** [hits inc t g n r]: the registration [r] is not skipped and writes
    [window.matchers[t][g][n]]. *)
Definition hits (inc : bool) (t g n : jsstring)
           (r : jsstring * matcher * jsstring) : bool :=
  negb (skipped inc (snd (fst r)))
  && (str_eqb (snd r) t && str_eqb (fst (fst r)) g
      && str_eqb (newName (snd (fst r)) (snd r)) n).

Definition copy_of (r : jsstring * matcher * jsstring) : matcher :=
  matcherCopy (snd (fst r)) (snd r) (fst (fst r)).

(** The copy written by the last registration that hits, if any. *)
Definition last_hit (inc : bool) (t g n : jsstring)
           (regs : list (jsstring * matcher * jsstring))
           (start : option matcher) : option matcher :=
  fold_left (fun acc r => if hits inc t g n r then Some (copy_of r) else acc)
            regs start.

Lemma lookup_register_one inc reg r t g n :
  lookup (register_one inc reg r) t g n
  = if hits inc t g n r then Some (copy_of r) else lookup reg t g n.
Proof.
  destruct r as [[g0 mt] t0]. unfold register_one, hits, copy_of; simpl.
  destruct (skipped inc mt) eqn:K; simpl.
  - rewrite lookup_register_skipped by exact K. reflexivity.
  - apply lookup_register, K.
Qed.

Lemma lookup_fold inc regs :
  forall reg t g n,
    lookup (fold_left (register_one inc) regs reg) t g n
    = last_hit inc t g n regs (lookup reg t g n).
Proof.
  induction regs as [|r regs IH]; intros reg t g n; simpl; [reflexivity|].
  rewrite IH, lookup_register_one. reflexivity.
Qed.

Lemma last_hit_none inc t g n regs start :
  (forall r, In r regs -> hits inc t g n r = false) ->
  last_hit inc t g n regs start = start.
Proof.
  revert start; induction regs as [|r regs IH]; intros start H; simpl;
    [reflexivity|].
  unfold last_hit in *; simpl.
  rewrite (H r (or_introl eq_refl)). apply IH.
  intros r' Hr'; apply H; right; exact Hr'.
Qed.

Lemma last_hit_last inc t g n before r after start :
  hits inc t g n r = true ->
  (forall r', In r' after -> hits inc t g n r' = false) ->
  last_hit inc t g n (before ++ r :: after) start = Some (copy_of r).
Proof.
  intros Hr Ha. unfold last_hit. rewrite fold_left_app. simpl. rewrite Hr.
  apply (last_hit_none _ _ _ _ _ _ Ha).
Qed.

Lemma last_hit_some inc t g n regs e :
  forall start,
    last_hit inc t g n regs start = Some e ->
    start = Some e
    \/ exists r, In r regs /\ hits inc t g n r = true /\ e = copy_of r.
Proof.
  induction regs as [|r regs IH]; intros start H; [left; exact H|].
  unfold last_hit in H; simpl in H. apply IH in H.
  destruct H as [H|(r' & Hin & Hh & He)].
  - destruct (hits inc t g n r) eqn:Hr; [|left; exact H].
    right. exists r. inversion H. split; [left; reflexivity|]. split; auto.
  - right. exists r'. split; [right; exact Hin|]. split; auto.
Qed.

Lemma last_hit_stays inc t g n regs e :
  exists e', last_hit inc t g n regs (Some e) = Some e'.
Proof.
  revert e; induction regs as [|r regs IH]; intros e; [exists e; reflexivity|].
  unfold last_hit; simpl. destruct (hits inc t g n r); apply IH.
Qed.

Lemma Forall_get_empty (W : Type) (o : obj (obj W)) (k : jsstring)
      (v : obj W) :
  Forall (fun kv => snd kv = []) o -> get o k = Some v -> v = [].
Proof.
  intros F G. apply get_In in G. rewrite Forall_forall in F.
  apply (F (k, v) G).
Qed.

Lemma initial_targets_empty :
  Forall (fun kv : jsstring * obj (obj matcher) => snd kv = [])
         (window_matchers initial_registry).
Proof. vm_compute. repeat constructor. Qed.

Lemma lookup_initial t g n : lookup initial_registry t g n = None.
Proof.
  unfold lookup.
  destruct (get (window_matchers initial_registry) t) as [ot|] eqn:E;
    [|reflexivity].
  rewrite (Forall_get_empty _ initial_targets_empty E). reflexivity.
Qed.

Lemma lookup_registered inc matchers t g n :
  lookup (registered inc matchers) t g n
  = last_hit inc t g n (registrations matchers) None.
Proof.
  unfold registered. rewrite lookup_fold, lookup_initial. reflexivity.
Qed.

(** *** The lines of [console.error] *)

Lemma console_register_one inc reg r :
  exists more,
    console_error (register_one inc reg r) = console_error reg ++ more.
Proof.
  destruct r as [[g mt] t]. unfold register_one; simpl.
  destruct (skipped inc mt) eqn:K.
  - rewrite lookup_register_skipped by exact K.
    exists []. symmetry; apply app_nil_r.
  - rewrite console_register by exact K.
    destruct (lookup reg t g (newName mt t));
      [eexists; reflexivity | exists []; symmetry; apply app_nil_r].
Qed.

Lemma console_fold inc regs :
  forall reg, exists more,
    console_error (fold_left (register_one inc) regs reg)
    = console_error reg ++ more.
Proof.
  induction regs as [|r regs IH]; intros reg; simpl.
  - exists []. symmetry; apply app_nil_r.
  - destruct (IH (register_one inc reg r)) as (m2 & E2).
    destruct (console_register_one inc reg r) as (m1 & E1).
    exists (m1 ++ m2). rewrite E2, E1, app_assoc. reflexivity.
Qed.

(** *** Well-formed objects *)

Definition map_values (V W : Type) (f : V -> W) (o : obj V) : obj W :=
  map (fun kv => (fst kv, f (snd kv))) o.

(** No key twice, at the three levels of [window.matchers]. *)
Definition wf_groups (of_target : obj (obj matcher)) : Prop :=
  NoDup (map fst of_target)
  /\ Forall (fun kg => NoDup (map fst (snd kg))) of_target.

Definition wf_registry (wm : obj (obj (obj matcher))) : Prop :=
  NoDup (map fst wm) /\ Forall (fun kt => wf_groups (snd kt)) wm.

Lemma Forall_set (V : Type) (Q : V -> Prop) (o : obj V) (k : jsstring) (v : V) :
  Forall (fun kv => Q (snd kv)) o -> Q v ->
  Forall (fun kv => Q (snd kv)) (set o k v).
Proof.
  intros F Hv. rewrite Forall_forall in *. intros [k' v'] Hin.
  apply In_set in Hin. destruct Hin as [[_ ->]|Hin]; [exact Hv|].
  apply (F _ Hin).
Qed.

Lemma Forall_get (V : Type) (Q : V -> Prop) (o : obj V) (k : jsstring) (v : V) :
  Forall (fun kv => Q (snd kv)) o -> get o k = Some v -> Q v.
Proof.
  intros F G. apply get_In in G. rewrite Forall_forall in F.
  apply (F (k, v) G).
Qed.

Lemma wf_groups_nil : wf_groups [].
Proof. split; constructor. Qed.

Lemma wf_register inc g mt reg t :
  wf_registry (window_matchers reg) ->
  wf_registry (window_matchers (register inc g mt reg t)).
Proof.
  intros [ND F]. unfold register.
  destruct (skipped inc mt); [split; assumption|]. cbn [window_matchers].
  set (wm1 := match get (window_matchers reg) t with
              | Some _ => window_matchers reg
              | None => set (window_matchers reg) t []
              end).
  assert (W1 : wf_registry wm1).
  { unfold wm1. destruct (get (window_matchers reg) t); [split; assumption|].
    split; [apply NoDup_set, ND | apply Forall_set; [exact F | apply wf_groups_nil]]. }
  destruct W1 as [ND1 F1].
  set (ot0 := or_default [] (get wm1 t)).
  assert (W0 : wf_groups ot0).
  { unfold ot0. destruct (get wm1 t) as [ot|] eqn:E; simpl;
      [apply (@Forall_get _ _ _ _ _ F1 E) | apply wf_groups_nil]. }
  set (ot1 := match get ot0 g with Some _ => ot0 | None => set ot0 g [] end).
  assert (W1 : wf_groups ot1).
  { unfold ot1. destruct (get ot0 g); [exact W0|].
    destruct W0 as [N0 F0].
    split; [apply NoDup_set, N0
          | apply (@Forall_set _ (fun v => NoDup (map fst v)));
            [exact F0 | constructor]]. }
  destruct W1 as [N1 G1].
  set (og := or_default [] (get ot1 g)).
  assert (Wg : NoDup (map fst og)).
  { unfold og. destruct (get ot1 g) as [og'|] eqn:E; simpl;
      [apply (@Forall_get _ (fun v => NoDup (map fst v)) _ _ _ G1 E)
      | constructor]. }
  split; [apply NoDup_set, ND1|].
  apply Forall_set; [exact F1|].
  split; [apply NoDup_set, N1|].
  apply (@Forall_set _ (fun v => NoDup (map fst v))); [exact G1|].
  apply NoDup_set, Wg.
Qed.

Lemma wf_initial : wf_registry (window_matchers initial_registry).
Proof.
  assert (G : forall l wm, wf_registry wm ->
            wf_registry (fold_left (fun wm t => set wm t []) l wm)).
  { induction l as [|t l IH]; intros wm W; simpl; [exact W|].
    apply IH. destruct W as [ND F].
    split; [apply NoDup_set, ND | apply Forall_set; [exact F | apply wf_groups_nil]]. }
  apply G. split; constructor.
Qed.

Lemma wf_registered inc matchers :
  wf_registry (window_matchers (registered inc matchers)).
Proof.
  unfold registered.
  assert (G : forall l reg, wf_registry (window_matchers reg) ->
            wf_registry (window_matchers (fold_left (register_one inc) l reg))).
  { induction l as [|r l IH]; intros reg W; simpl; [exact W|].
    apply IH. apply wf_register, W. }
  apply G, wf_initial.
Qed.

(** *** Updating every property once *)

Lemma set_set (V : Type) (o : obj V) (k : jsstring) (v w : V) :
  set (set o k v) k w = set o k w.
Proof.
  induction o as [|[k' v'] o IH]; simpl.
  - rewrite str_eqb_refl; reflexivity.
  - destruct (str_eqb k' k) eqn:E; simpl; rewrite E; [reflexivity|].
    rewrite IH; reflexivity.
Qed.

Lemma map_other_keys (V : Type) (o : obj V) (k : jsstring) (w : V) :
  ~ In k (map fst o) ->
  map (fun kv => (fst kv, if str_eqb (fst kv) k then w else snd kv)) o = o.
Proof.
  induction o as [|[k' v'] o IH]; simpl; intros NI; [reflexivity|].
  destruct (str_eqb k' k) eqn:E.
  - apply str_eqb_eq in E; subst. exfalso; apply NI; left; reflexivity.
  - f_equal. apply IH. tauto.
Qed.

Lemma set_as_map (V : Type) (o : obj V) (k : jsstring) (v w : V) :
  NoDup (map fst o) -> get o k = Some v ->
  set o k w = map (fun kv => (fst kv, if str_eqb (fst kv) k then w else snd kv)) o.
Proof.
  induction o as [|[k' v'] o IH]; simpl; [discriminate|].
  intros ND G. inversion ND as [|? ? NI ND']; subst.
  destruct (str_eqb k' k) eqn:E.
  - apply str_eqb_eq in E; subst k'. f_equal.
    symmetry. apply map_other_keys, NI.
  - f_equal. apply IH; assumption.
Qed.

Section UpdateAll.
Variable V : Type.
Variable P : V -> Prop.
Variable f : V -> V.
Variable step : obj V -> jsstring -> obj V.
Hypothesis step_some :
  forall o k v, get o k = Some v -> P v -> step o k = set o k (f v).
Hypothesis step_none : forall o k, get o k = None -> step o k = o.

(** A loop over distinct keys that replaces the value [v] of each key by
    [f v]; the values not yet replaced satisfy [P]. *)
Lemma fold_update (ks : list jsstring) :
  forall o,
    NoDup ks -> NoDup (map fst o) ->
    (forall k v, In k ks -> get o k = Some v -> P v) ->
    fold_left step ks o
    = map (fun kv => (fst kv, if existsb (str_eqb (fst kv)) ks
                              then f (snd kv) else snd kv)) o.
Proof.
  induction ks as [|k ks IH]; intros o NDk NDo F; simpl.
  - rewrite <- (map_id o) at 1. apply map_ext. intros [a b]; reflexivity.
  - inversion NDk as [|? ? NI NDk']; subst.
    destruct (get o k) as [v|] eqn:G.
    + rewrite (@step_some o k v G (F k v (or_introl eq_refl) G)).
      rewrite IH.
      * rewrite (@set_as_map _ o k v (f v) NDo G), map_map.
        apply map_ext_in. intros [a b] Hin. simpl.
        destruct (str_eqb a k) eqn:E; simpl; [|reflexivity].
        apply str_eqb_eq in E; subst a.
        assert (b = v) by (apply (@In_get _ o k b NDo) in Hin; congruence). subst b.
        destruct (existsb (str_eqb k) ks) eqn:X; [|reflexivity].
        apply existsb_str_eqb in X. contradiction.
      * exact NDk'.
      * apply NoDup_set, NDo.
      * intros k' v' Hin G'. apply (F k' v' (or_intror Hin)).
        rewrite get_set_other in G'; [exact G'|].
        intros ->. contradiction.
    + rewrite (@step_none o k G).
      rewrite IH; [|exact NDk'|exact NDo|].
      * apply map_ext_in. intros [a b] Hin. simpl.
        destruct (str_eqb a k) eqn:E; simpl; [|reflexivity].
        apply str_eqb_eq in E; subst a.
        apply get_None in G. exfalso; apply G.
        apply (in_map fst) in Hin. exact Hin.
      * intros k' v' Hin. apply (F k' v' (or_intror Hin)).
Qed.

(** When the loop runs over all the keys, every value is replaced. *)
Lemma fold_update_all (ks : list jsstring) (o : obj V) :
  NoDup ks -> NoDup (map fst o) ->
  (forall k, In k (map fst o) -> In k ks) ->
  Forall (fun kv => P (snd kv)) o ->
  fold_left step ks o = map_values f o.
Proof.
  intros NDk NDo All F. rewrite fold_update; [|exact NDk|exact NDo|].
  - apply map_ext_in. intros [a b] Hin. simpl.
    destruct (existsb (str_eqb a) ks) eqn:X; [reflexivity|].
    exfalso. apply (in_map fst) in Hin. apply All in Hin.
    apply existsb_str_eqb in Hin. simpl in Hin. congruence.
  - intros k v _ G. apply (@Forall_get _ _ _ _ _ F G).
Qed.
End UpdateAll.

(** *** [sortObj] *)

Lemma set_fresh (V : Type) (o : obj V) (k : jsstring) (v : V) :
  ~ In k (map fst o) -> set o k v = o ++ [(k, v)].
Proof.
  induction o as [|[k' v'] o IH]; simpl; intros NI; [reflexivity|].
  destruct (str_eqb k' k) eqn:E.
  - apply str_eqb_eq in E; subst. exfalso; apply NI; left; reflexivity.
  - f_equal. apply IH. tauto.
Qed.

(** The properties of [o] under the keys [ks], in the order of [ks]. *)
Definition pick (V : Type) (o : obj V) (ks : list jsstring)
  : list (jsstring * V) :=
  flat_map (fun k => match get o k with Some v => [(k, v)] | None => [] end) ks.

Lemma map_fst_pick (V : Type) (o : obj V) (ks : list jsstring) :
  (forall k, In k ks -> In k (map fst o)) -> map fst (pick o ks) = ks.
Proof.
  induction ks as [|k ks IH]; simpl; intros H; [reflexivity|].
  destruct (get o k) eqn:G.
  - simpl. f_equal. apply IH. intros k' Hk'; apply H; right; exact Hk'.
  - apply get_None in G. exfalso; apply G, H; left; reflexivity.
Qed.

Lemma In_pick (V : Type) (o : obj V) (ks : list jsstring) (k : jsstring) (v : V) :
  In (k, v) (pick o ks) <-> In k ks /\ get o k = Some v.
Proof.
  unfold pick. rewrite in_flat_map. split.
  - intros (k' & Hin & H). destruct (get o k') eqn:G; [|destruct H].
    destruct H as [H|[]]. inversion H; subst. split; assumption.
  - intros [Hin G]. exists k. split; [exact Hin|]. rewrite G. left; reflexivity.
Qed.

Lemma sortObj_fold (o : obj matcher) (ks : list jsstring) :
  forall acc,
    NoDup ks ->
    (forall k, In k ks -> ~ In k (map fst acc)) ->
    fold_left (fun result key =>
                 match get o key with
                 | Some v => set result key v
                 | None => result
                 end) ks acc
    = acc ++ pick o ks.
Proof.
  induction ks as [|k ks IH]; intros acc ND F; simpl.
  - symmetry; apply app_nil_r.
  - inversion ND as [|? ? NI ND']; subst.
    destruct (get o k) as [v|] eqn:G.
    + rewrite (@set_fresh _ acc k v (F k (or_introl eq_refl))).
      rewrite IH; [rewrite <- app_assoc; reflexivity | exact ND' |].
      intros k' Hk'. rewrite map_app, in_app_iff. simpl.
      intros [H|[H|[]]].
      * apply (F k' (or_intror Hk') H).
      * subst. contradiction.
    + simpl. apply IH; [exact ND'|].
      intros k' Hk'. apply F; right; exact Hk'.
Qed.

Lemma sortObj_pick (o : obj matcher) :
  NoDup (map fst o) -> sortObj o = pick o (array_sort (keys o)).
Proof.
  intros ND. unfold sortObj. rewrite sortObj_fold; [reflexivity| |].
  - eapply Permutation_NoDup;
      [symmetry; apply array_sort_perm | apply keys_NoDup, ND].
  - intros k _ [].
Qed.

Lemma In_sorted_keys (o : obj matcher) (k : jsstring) :
  In k (array_sort (keys o)) <-> In k (map fst o).
Proof.
  split; intros H.
  - eapply Permutation_in; [apply keys_perm|].
    eapply Permutation_in; [apply array_sort_perm | exact H].
  - eapply Permutation_in; [symmetry; apply array_sort_perm|].
    eapply Permutation_in; [symmetry; apply keys_perm | exact H].
Qed.

(** The names of the sorted object, in creation order. *)
Lemma map_fst_sortObj (o : obj matcher) :
  NoDup (map fst o) -> map fst (sortObj o) = array_sort (keys o).
Proof.
  intros ND. rewrite (@sortObj_pick o ND). apply map_fst_pick.
  intros k. apply In_sorted_keys.
Qed.

Lemma NoDup_sortObj (o : obj matcher) :
  NoDup (map fst o) -> NoDup (map fst (sortObj o)).
Proof.
  intros ND. rewrite (@map_fst_sortObj o ND).
  eapply Permutation_NoDup;
    [symmetry; apply array_sort_perm | apply keys_NoDup, ND].
Qed.

Lemma In_sortObj (o : obj matcher) (k : jsstring) (v : matcher) :
  NoDup (map fst o) -> (In (k, v) (sortObj o) <-> In (k, v) o).
Proof.
  intros ND. rewrite (@sortObj_pick o ND), In_pick, In_sorted_keys. split.
  - intros [_ G]. apply get_In, G.
  - intros H. split; [apply (in_map fst) in H; exact H | apply In_get; assumption].
Qed.

(** Sorting keeps what every name stands for. *)
Lemma get_sortObj (o : obj matcher) (k : jsstring) :
  NoDup (map fst o) -> get (sortObj o) k = get o k.
Proof.
  intros ND. destruct (get o k) as [v|] eqn:G.
  - apply In_get; [apply NoDup_sortObj, ND|].
    apply In_sortObj; [exact ND | apply get_In, G].
  - apply get_None. rewrite (@map_fst_sortObj o ND), In_sorted_keys.
    apply get_None, G.
Qed.

Lemma NoDup_pairs (V : Type) (o : obj V) : NoDup (map fst o) -> NoDup o.
Proof. apply NoDup_map_inv. Qed.

(** Sorting adds, drops and changes no property. *)
Lemma sortObj_perm (o : obj matcher) :
  NoDup (map fst o) -> Permutation (sortObj o) o.
Proof.
  intros ND. apply NoDup_Permutation.
  - apply NoDup_pairs, NoDup_sortObj, ND.
  - apply NoDup_pairs, ND.
  - intros [k v]. apply In_sortObj, ND.
Qed.

(** *** The sorting loops *)

Lemma get_map_values (V W : Type) (f : V -> W) (o : obj V) (k : jsstring) :
  get (map_values f o) k = option_map f (get o k).
Proof.
  induction o as [|[k' v'] o IH]; simpl; [reflexivity|].
  destruct (str_eqb k' k); [reflexivity | exact IH].
Qed.

Definition sort_group_step (target_ : jsstring) (wm : obj (obj (obj matcher)))
           (group_ : jsstring) : obj (obj (obj matcher)) :=
  match get wm target_ with
  | Some of_target =>
      match get of_target group_ with
      | Some of_group =>
          set wm target_ (set of_target group_ (sortObj of_group))
      | None => wm
      end
  | None => wm
  end.

Definition sort_in_target (of_target : obj (obj matcher)) (group_ : jsstring)
  : obj (obj matcher) :=
  match get of_target group_ with
  | Some of_group => set of_target group_ (sortObj of_group)
  | None => of_target
  end.

Lemma sort_group_steps (t : jsstring) (ks : list jsstring) :
  forall wm ot,
    get wm t = Some ot ->
    fold_left (sort_group_step t) ks wm
    = set wm t (fold_left sort_in_target ks ot).
Proof.
  induction ks as [|g ks IH]; intros wm ot G; simpl.
  - symmetry. apply set_get_id, G.
  - unfold sort_group_step at 2, sort_in_target at 2. rewrite G.
    destruct (get ot g) as [og|] eqn:E.
    + rewrite (IH (set wm t (set ot g (sortObj og))) (set ot g (sortObj og)))
        by apply get_set_same.
      apply set_set.
    + apply IH, G.
Qed.

Lemma sort_in_target_all (ot : obj (obj matcher)) :
  wf_groups ot ->
  fold_left sort_in_target (keys ot) ot = map_values sortObj ot.
Proof.
  intros [ND F].
  apply (@fold_update_all _ (fun _ => True) sortObj sort_in_target).
  - intros o k v G _. unfold sort_in_target. rewrite G. reflexivity.
  - intros o k G. unfold sort_in_target. rewrite G. reflexivity.
  - apply keys_NoDup, ND.
  - exact ND.
  - intros k Hk. eapply Permutation_in; [symmetry; apply keys_perm | exact Hk].
  - rewrite Forall_forall. intros; exact I.
Qed.

Lemma sort_groups_values (wm : obj (obj (obj matcher))) :
  wf_registry wm ->
  sort_groups wm = map_values (map_values sortObj) wm.
Proof.
  intros [ND F]. unfold sort_groups.
  apply (@fold_update_all _ wf_groups (map_values sortObj)
           (fun wm target_ =>
              fold_left (sort_group_step target_)
                        (keys (or_default [] (get wm target_))) wm)).
  - intros o k v G W. rewrite G. simpl.
    rewrite (@sort_group_steps k _ o v G), (@sort_in_target_all v W). reflexivity.
  - intros o k G. rewrite G. reflexivity.
  - apply keys_NoDup, ND.
  - exact ND.
  - intros k Hk. eapply Permutation_in; [symmetry; apply keys_perm | exact Hk].
  - exact F.
Qed.

Lemma lookup_sort_groups (reg : registry) (t g n : jsstring) :
  wf_registry (window_matchers reg) ->
  lookup {| window_matchers := sort_groups (window_matchers reg);
            console_error := console_error reg |} t g n
  = lookup reg t g n.
Proof.
  intros W. unfold lookup. cbn [window_matchers].
  rewrite (@sort_groups_values _ W), get_map_values.
  destruct (get (window_matchers reg) t) as [ot|] eqn:Gt; simpl; [|reflexivity].
  rewrite get_map_values.
  destruct (get ot g) as [og|] eqn:Gg; simpl; [|reflexivity].
  apply get_sortObj.
  destruct W as [_ F].
  destruct (@Forall_get _ wf_groups _ _ _ F Gt) as [_ F'].
  apply (@Forall_get _ (fun v => NoDup (map fst v)) _ _ _ F' Gg).
Qed.

(** An entry of the built registry is the copy written by the last
    registration that hits its place. *)
Lemma lookup_build (inc alpha : bool) (matchers : obj (list matcher))
      (t g n : jsstring) :
  lookup (build inc alpha matchers) t g n
  = last_hit inc t g n (registrations matchers) None.
Proof.
  rewrite build_registered. destruct alpha.
  - rewrite lookup_sort_groups by apply wf_registered.
    apply lookup_registered.
  - apply lookup_registered.
Qed.

Lemma console_build (inc alpha : bool) (matchers : obj (list matcher)) :
  console_error (build inc alpha matchers)
  = console_error (registered inc matchers).
Proof. rewrite build_registered. destruct alpha; reflexivity. Qed.

(** ** Legacy names *)

(** The name begins with "old", in any mix of upper and lower case. *)
Definition begins_with_old (n : jsstring) : bool :=
  match n with
  | a :: b :: c :: _ =>
      ((a =? 111) || (a =? 79))%N && ((b =? 108) || (b =? 76))%N
      && ((c =? 100) || (c =? 68))%N
  | _ => false
  end.

Lemma ci_letter (ch lower : code_unit) :
  (97 <= lower)%N -> (lower <= 122)%N ->
  (canonicalize flags_i ch =? canonicalize flags_i lower)%N
  = ((ch =? lower) || (ch =? lower - 32))%N.
Proof.
  intros L U. unfold canonicalize, ascii_upper. simpl ignoreCase. cbv iota.
  repeat match goal with
         | |- context [(?a <? ?b)%N] => destruct (N.ltb_spec a b)
         | |- context [(?a <=? ?b)%N] => destruct (N.leb_spec a b)
         | |- context [(?a =? ?b)%N] => destruct (N.eqb_spec a b)
         end; simpl in *; try reflexivity; try lia.
Qed.

Definition pattern_old : pattern :=
  Seq (Seq (Seq (Seq Empty Bol) (Char 111%N)) (Char 108%N)) (Char 100%N).

Lemma regexp_old :
  regexp_literal "^old" "i" = mkRegExp (lit "^old") flags_i pattern_old 0.
Proof. reflexivity. Qed.

Lemma search_old_later (rest : jsstring) :
  forall c before, search flags_i pattern_old (c :: before) rest = NotFound.
Proof.
  induction rest as [|d rest IH]; intros c before; simpl; [reflexivity|].
  apply IH.
Qed.

Definition is_matched (z : mres) : bool :=
  match z with Matched _ => true | _ => false end.

Lemma m_old (n : jsstring) :
  is_matched (m flags_i pattern_old ([], n) (fun y => Matched y))
  = begins_with_old n.
Proof.
  destruct n as [|a [|b [|c n]]];
    cbn [m pattern_old fst snd is_matched begins_with_old];
    try reflexivity;
    rewrite ?(@ci_letter _ 111%N), ?(@ci_letter _ 108%N),
            ?(@ci_letter _ 100%N) by lia;
    change (111 - 32)%N with 79%N; change (108 - 32)%N with 76%N;
    change (100 - 32)%N with 68%N;
    repeat match goal with
           | |- context [(?x =? ?y)%N] => destruct (x =? y)%N
           end; reflexivity.
Qed.

(** [/^old/i.test(name)] *)
Lemma test_old (n : jsstring) :
  fst (test (regexp_literal "^old" "i") n) = begins_with_old n.
Proof.
  rewrite regexp_old, test_stateless by (split; reflexivity).
  cbn [fst re_flags compiled]. rewrite <- m_old.
  pose proof (m_top_never_out_of_fuel flags_i pattern_old ([], n)) as T.
  destruct n as [|a n]; cbn [search];
    destruct (m flags_i pattern_old _ _); try reflexivity; try congruence.
  rewrite search_old_later. reflexivity.
Qed.

Lemma skipped_old (inc : bool) (mt : matcher) :
  skipped inc mt = negb inc && begins_with_old (name mt).
Proof. unfold skipped. rewrite test_old. reflexivity. Qed.

(** *** Where an entry comes from *)

Lemma hits_inv inc t g n r :
  hits inc t g n r = true ->
  skipped inc (snd (fst r)) = false
  /\ snd r = t /\ fst (fst r) = g /\ newName (snd (fst r)) (snd r) = n.
Proof.
  unfold hits. rewrite !andb_true_iff, negb_true_iff, !str_eqb_eq. tauto.
Qed.

Lemma hits_own inc r :
  skipped inc (snd (fst r)) = false ->
  hits inc (snd r) (fst (fst r)) (newName (snd (fst r)) (snd r)) r = true.
Proof.
  intros K. unfold hits. rewrite K, !str_eqb_refl. reflexivity.
Qed.

(** Every entry of the built registry is the copy of a matcher of its
    group that is not skipped, made for its target. *)
Lemma lookup_build_inv (inc alpha : bool) (matchers : obj (list matcher))
      (t g n : jsstring) (e : matcher) :
  lookup (build inc alpha matchers) t g n = Some e ->
  exists mt,
    In (g, mt, t) (registrations matchers)
    /\ skipped inc mt = false
    /\ n = newName mt t
    /\ e = matcherCopy mt t g.
Proof.
  rewrite lookup_build. intros H.
  apply last_hit_some in H. destruct H as [H|(r & Hin & Hh & He)];
    [discriminate|].
  destruct r as [[g0 mt] t0]. apply hits_inv in Hh. simpl in Hh.
  destruct Hh as (K & -> & -> & <-).
  exists mt. repeat split; assumption.
Qed.

(** C1. In a table whose registrations use no name of [Object.prototype]:
    when two registrations that are not skipped write the same place
    [window.matchers[t][g][n]] and no registration after the second one
    writes it again, the entry of the built registry at that place has the
    name [n], the target [t], the group [g], and the targets, the RegExp,
    the submatchers and the [include] list of the matcher of the second
    registration; and [console.error] was called with the line
    [Duplicate matcher "n"].  The construction goes on after the
    collision: every registration that is not skipped, before or after it,
    has an entry under its own target, group and new name. *)
Theorem last_registration_wins :
  forall (inc alpha : bool) (matchers : obj (list matcher))
         (before between after : list (jsstring * matcher * jsstring))
         (r1 r2 : jsstring * matcher * jsstring) (t g n : jsstring),
    own_keys_only inc matchers = true ->
    registrations matchers = before ++ r1 :: between ++ r2 :: after ->
    hits inc t g n r1 = true ->
    hits inc t g n r2 = true ->
    (forall r, In r after -> hits inc t g n r = false) ->
    (exists e,
        lookup (build inc alpha matchers) t g n = Some e
        /\ name e = n
        /\ target e = Some t
        /\ group e = Some g
        /\ targets e = targets (snd (fst r2))
        /\ matcher_regex e = matcher_regex (snd (fst r2))
        /\ submatchers e = submatchers (snd (fst r2))
        /\ include e = include (snd (fst r2)))
    /\ In (lit "Duplicate matcher " ++ [34%N] ++ n ++ [34%N])
          (console_error (build inc alpha matchers))
    /\ (forall r,
           In r (registrations matchers) ->
           skipped inc (snd (fst r)) = false ->
           exists e,
             lookup (build inc alpha matchers)
                    (snd r) (fst (fst r)) (newName (snd (fst r)) (snd r))
             = Some e).
Proof.
  intros inc alpha matchers before between after r1 r2 t g n _ E H1 H2 Hafter.
  assert (E' : registrations matchers
               = (before ++ r1 :: between) ++ r2 :: after)
    by (rewrite E, <- app_assoc; reflexivity).
  split; [|split].
  - exists (copy_of r2). split.
    + rewrite lookup_build, E'. apply last_hit_last; assumption.
    + destruct r2 as [[g2 mt2] t2]. apply hits_inv in H2. simpl in H2.
      destruct H2 as (K & Ht & Hg & Hn). subst t2 g2 n.
      repeat split.
  - change (In (duplicate_message n)
               (console_error (build inc alpha matchers))).
    rewrite console_build. unfold registered. rewrite E', fold_left_app.
    simpl.
    set (regB := fold_left (register_one inc) (before ++ r1 :: between)
                           initial_registry).
    destruct (console_fold inc after (register_one inc regB r2)) as (more & Em).
    rewrite Em. apply in_or_app; left.
    assert (Taken : exists e, lookup regB t g n = Some e).
    { unfold regB. rewrite lookup_fold, lookup_initial.
      unfold last_hit. rewrite fold_left_app. simpl. rewrite H1.
      apply last_hit_stays. }
    destruct Taken as (e & He).
    destruct r2 as [[g2 mt2] t2]. apply hits_inv in H2. simpl in H2.
    destruct H2 as (K & -> & -> & <-).
    unfold register_one; simpl. rewrite console_register by exact K.
    rewrite He. apply in_or_app; right; left; reflexivity.
  - intros r Hin K. rewrite lookup_build.
    apply in_split in Hin. destruct Hin as (l1 & l2 & ->).
    unfold last_hit. rewrite fold_left_app. simpl.
    rewrite (hits_own _ _ K). apply last_hit_stays.
Qed.

(** The table without the matchers whose name begins with "old". *)
Definition without_legacy (matchers : obj (list matcher))
  : obj (list matcher) :=
  map_values (filter (fun mt => negb (begins_with_old (name mt)))) matchers.

Lemma filter_flat_map (A B : Type) (p : B -> bool) (f : A -> list B)
      (l : list A) :
  filter p (flat_map f l) = flat_map (fun x => filter p (f x)) l.
Proof.
  induction l as [|x l IH]; simpl; [reflexivity|].
  rewrite filter_app, IH. reflexivity.
Qed.

Lemma keys_map_values (V W : Type) (f : V -> W) (o : obj V) :
  keys (map_values f o) = keys o.
Proof.
  unfold keys, map_values. rewrite map_map. simpl. reflexivity.
Qed.

Lemma registrations_without_legacy (matchers : obj (list matcher)) :
  registrations (without_legacy matchers)
  = filter (fun r => negb (begins_with_old (name (snd (fst r)))))
           (registrations matchers).
Proof.
  unfold registrations, without_legacy.
  rewrite keys_map_values, filter_flat_map.
  apply flat_map_ext. intros g. rewrite get_map_values.
  destruct (get matchers g) as [l|]; simpl; [|reflexivity].
  rewrite filter_flat_map.
  induction l as [|mt l IH]; simpl; [reflexivity|].
  destruct (begins_with_old (name mt)) eqn:B; simpl.
  - rewrite <- IH.
    assert (N : filter (fun r : jsstring * matcher * jsstring =>
                          negb (begins_with_old (name (snd (fst r)))))
                       (map (fun target_ => (g, mt, target_)) (targets mt))
                = []).
    { induction (targets mt) as [|t ts IHt]; simpl; [reflexivity|].
      rewrite B; simpl. exact IHt. }
    rewrite N. reflexivity.
  - rewrite <- IH. f_equal.
    induction (targets mt) as [|t ts IHt]; simpl; [reflexivity|].
    rewrite B; simpl. f_equal. exact IHt.
Qed.

Lemma fold_register_filter (regs : list (jsstring * matcher * jsstring)) :
  forall reg,
    fold_left (register_one false) regs reg
    = fold_left (register_one false)
                (filter (fun r => negb (begins_with_old (name (snd (fst r)))))
                        regs) reg.
Proof.
  induction regs as [|r regs IH]; intros reg; simpl; [reflexivity|].
  destruct (begins_with_old (name (snd (fst r)))) eqn:B; simpl.
  - unfold register_one at 2.
    rewrite lookup_register_skipped
      by (rewrite skipped_old, B; reflexivity).
    apply IH.
  - apply IH.
Qed.

(** C2. With [includeOldFilters] off, a matcher whose name begins with
    "old" (in any case) leaves no trace: every entry of the built registry
    is the copy of a matcher whose name does not begin with "old", and the
    whole result, entries and lines of [console.error], is the one built
    from the table without those matchers. *)
Theorem legacy_rules_are_skipped :
  forall (alpha : bool) (matchers : obj (list matcher)),
    (forall t g n e,
        lookup (build includeOldFilters alpha matchers) t g n = Some e ->
        exists mt,
          In (g, mt, t) (registrations matchers)
          /\ begins_with_old (name mt) = false
          /\ e = matcherCopy mt t g)
    /\ build includeOldFilters alpha matchers
       = build includeOldFilters alpha (without_legacy matchers).
Proof.
  intros alpha matchers. unfold includeOldFilters. split.
  - intros t g n e H. apply lookup_build_inv in H.
    destruct H as (mt & Hin & K & _ & He).
    rewrite skipped_old in K. simpl in K.
    exists mt. repeat split; assumption.
  - rewrite !build_registered. unfold registered.
    rewrite registrations_without_legacy, <- fold_register_filter.
    reflexivity.
Qed.

(** *** The targets of [allTargets] *)

Lemma get_register_other inc g mt reg t t' :
  t <> t' ->
  get (window_matchers (register inc g mt reg t)) t'
  = get (window_matchers reg) t'.
Proof.
  intros N. unfold register. destruct (skipped inc mt); [reflexivity|].
  cbn [window_matchers]. rewrite get_set_other by exact N.
  destruct (get (window_matchers reg) t); [reflexivity|].
  apply get_set_other, N.
Qed.

Lemma get_register_present inc g mt reg t t' o :
  get (window_matchers reg) t' = Some o ->
  exists o', get (window_matchers (register inc g mt reg t)) t' = Some o'.
Proof.
  intros G. destruct (str_eqb t t') eqn:E.
  - apply str_eqb_eq in E; subst t'. unfold register.
    destruct (skipped inc mt); [exists o; exact G|].
    cbn [window_matchers]. rewrite get_set_same. eexists; reflexivity.
  - apply str_eqb_neq in E. rewrite get_register_other by exact E.
    exists o; exact G.
Qed.

Lemma present_fold inc regs :
  forall reg t o,
    get (window_matchers reg) t = Some o ->
    exists o',
      get (window_matchers (fold_left (register_one inc) regs reg)) t
      = Some o'.
Proof.
  induction regs as [|r regs IH]; intros reg t o G; simpl;
    [exists o; exact G|].
  destruct (@get_register_present inc (fst (fst r)) (snd (fst r)) reg (snd r)
              t o G) as (o' & G').
  apply (IH _ _ _ G').
Qed.

Lemma untouched_fold inc regs t :
  forall reg,
    (forall r, In r regs -> skipped inc (snd (fst r)) = false -> snd r <> t) ->
    get (window_matchers (fold_left (register_one inc) regs reg)) t
    = get (window_matchers reg) t.
Proof.
  induction regs as [|r regs IH]; intros reg H; simpl; [reflexivity|].
  rewrite IH by (intros r' Hr'; apply H; right; exact Hr').
  unfold register_one.
  destruct (skipped inc (snd (fst r))) eqn:K.
  - rewrite lookup_register_skipped by exact K. reflexivity.
  - apply get_register_other. apply (H r (or_introl eq_refl) K).
Qed.

Lemma initial_targets (t : jsstring) :
  In t allTargets -> get (window_matchers initial_registry) t = Some [].
Proof.
  unfold allTargets. simpl.
  intros H. repeat (destruct H as [<-|H]; [reflexivity|]). destruct H.
Qed.

Lemma get_sort_groups (wm : obj (obj (obj matcher))) (t : jsstring) :
  wf_registry wm ->
  get (sort_groups wm) t = option_map (map_values sortObj) (get wm t).
Proof.
  intros W. rewrite (@sort_groups_values _ W). apply get_map_values.
Qed.

(** C8. Whatever the rule table holds, each of the nine targets of
    [allTargets] is a property of the built registry, so looking it up
    gives a mapping and never [undefined]; when no registration that is
    not skipped names the target, the mapping is empty. *)
Theorem every_target_has_a_mapping :
  forall (inc alpha : bool) (matchers : obj (list matcher)) (t : jsstring),
    In t allTargets ->
    exists of_target,
      get (window_matchers (build inc alpha matchers)) t = Some of_target
      /\ ((forall r, In r (registrations matchers) ->
                     skipped inc (snd (fst r)) = false -> snd r <> t) ->
          of_target = []).
Proof.
  intros inc alpha matchers t Ht. rewrite build_registered.
  pose proof (@initial_targets t Ht) as G0.
  destruct (@present_fold inc (registrations matchers) initial_registry t []
              G0) as (o & Go).
  fold (registered inc matchers) in Go.
  assert (Unt : (forall r, In r (registrations matchers) ->
                    skipped inc (snd (fst r)) = false -> snd r <> t) ->
                o = []).
  { intros H. unfold registered in Go.
    rewrite (@untouched_fold inc _ t initial_registry H), G0 in Go.
    congruence. }
  destruct alpha.
  - cbn [window_matchers].
    rewrite get_sort_groups by apply wf_registered. rewrite Go. simpl.
    eexists. split; [reflexivity|].
    intros H. rewrite (Unt H). reflexivity.
  - exists o. split; [exact Go | exact Unt].
Qed.

(** C4, as the code has it.  With [alphabeticalOrder] on, every group of
    the built registry is the sorted copy of the group as the registration
    loops leave it: it holds exactly the same names with the same copies.
    When none of its names is an array index, the names enumerate in
    strictly ascending order of code units. *)
Theorem groups_sorted_without_index_names :
  forall (inc : bool) (matchers : obj (list matcher))
         (t g : jsstring) (of_target : obj (obj matcher))
         (of_group : obj matcher),
    get (window_matchers (build inc alphabeticalOrder matchers)) t
    = Some of_target ->
    get of_target g = Some of_group ->
    (exists unsorted_target unsorted,
        get (window_matchers (build inc false matchers)) t
        = Some unsorted_target
        /\ get unsorted_target g = Some unsorted
        /\ of_group = sortObj unsorted
        /\ Permutation of_group unsorted
        /\ forall n, get of_group n = get unsorted n)
    /\ (forallb (fun k => negb (is_array_index k)) (map fst of_group) = true ->
        StronglySorted str_lt (keys of_group)).
Proof.
  intros inc matchers t g of_target of_group Gt Gg.
  unfold alphabeticalOrder in Gt. rewrite build_registered in Gt.
  cbn [window_matchers] in Gt.
  pose proof (wf_registered inc matchers) as W.
  rewrite (@get_sort_groups _ t W) in Gt.
  destruct (get (window_matchers (registered inc matchers)) t)
    as [ut|] eqn:Eu; [|discriminate].
  simpl in Gt. inversion Gt; subst of_target. clear Gt.
  rewrite get_map_values in Gg.
  destruct (get ut g) as [ug|] eqn:Eg; [|discriminate].
  simpl in Gg. inversion Gg; subst of_group. clear Gg.
  assert (ND : NoDup (map fst ug)).
  { destruct W as [_ F].
    destruct (@Forall_get _ wf_groups _ _ _ F Eu) as [_ F'].
    apply (@Forall_get _ (fun v => NoDup (map fst v)) _ _ _ F' Eg). }
  split.
  - exists ut, ug. rewrite build_registered.
    split; [exact Eu|]. split; [exact Eg|]. split; [reflexivity|].
    split; [apply sortObj_perm, ND|].
    intros n. apply get_sortObj, ND.
  - intros NI. rewrite (@keys_no_index _ _ NI), (@map_fst_sortObj ug ND).
    apply array_sort_ascending, keys_NoDup, ND.
Qed.

(** ** The name of a copy *)

Definition placeholder : jsstring := lit "%target%".

(** Following the words of the spec: [s] with every occurrence of [pat]
    replaced by [rep], the occurrences being taken from left to right and
    not overlapping.  [skip] counts the code units of an occurrence already
    replaced that are still to be passed over. *)
Fixpoint replace_all_from (pat rep : jsstring) (skip : nat) (s : jsstring)
  : jsstring :=
  match s with
  | [] => []
  | c :: s' =>
      match skip with
      | S k => replace_all_from pat rep k s'
      | O =>
          if prefixb pat s
          then rep ++ replace_all_from pat rep (length pat - 1) s'
          else c :: replace_all_from pat rep 0 s'
      end
  end.

Definition replace_all (pat rep s : jsstring) : jsstring :=
  replace_all_from pat rep 0 s.

(** The number of occurrences that [replace_all_from] replaces. *)
Fixpoint count_from (pat : jsstring) (skip : nat) (s : jsstring) : nat :=
  match s with
  | [] => 0
  | c :: s' =>
      match skip with
      | S k => count_from pat k s'
      | O =>
          if prefixb pat s then S (count_from pat (length pat - 1) s')
          else count_from pat 0 s'
      end
  end.

Definition dollar_free (s : jsstring) : Prop :=
  forallb (fun c => negb (chr_is "$" c)) s = true.

Lemma get_substitution_plain (matched before after template : jsstring) :
  dollar_free template ->
  get_substitution matched before after template = template.
Proof.
  unfold dollar_free. induction template as [|c t IH]; intros D;
    [reflexivity|].
  simpl in D. apply andb_true_iff in D as [Dc Dt].
  apply negb_true_iff in Dc.
  cbn [get_substitution]. rewrite Dc. f_equal. apply IH, Dt.
Qed.

Lemma prefixb_app (p s : jsstring) :
  prefixb p s = true -> s = p ++ skipn (length p) s.
Proof.
  revert s; induction p as [|x p IH]; intros s H; [reflexivity|].
  destruct s as [|y s]; [discriminate|]. simpl in H.
  apply andb_true_iff in H as [E H]. apply N.eqb_eq in E; subst y.
  simpl. f_equal. apply IH, H.
Qed.

Lemma prefixb_self (p s : jsstring) : prefixb p (p ++ s) = true.
Proof.
  induction p as [|x p IH]; [reflexivity|]. simpl.
  rewrite N.eqb_refl. exact IH.
Qed.

Lemma lit_match_exact (fl : flags) (cs : jsstring) :
  ignoreCase fl = false ->
  forall b r,
    lit_match fl cs (b, r)
    = if prefixb cs r then Some (rev cs ++ b, skipn (length cs) r) else None.
Proof.
  intros I. induction cs as [|c cs IH]; intros b r; [reflexivity|].
  destruct r as [|ch rest]; [reflexivity|].
  cbn [lit_match snd fst prefixb]. unfold canonicalize. rewrite I.
  rewrite (N.eqb_sym c ch).
  destruct (N.eqb_spec ch c) as [->|N]; [|reflexivity].
  rewrite IH. simpl. destruct (prefixb cs rest); [|reflexivity].
  rewrite <- app_assoc. reflexivity.
Qed.

Lemma replace_all_skip (pat rep l s : jsstring) :
  replace_all_from pat rep (length l) (l ++ s) = replace_all_from pat rep 0 s.
Proof.
  induction l as [|x l IH]; simpl; [reflexivity | exact IH].
Qed.

Lemma count_skip (pat l s : jsstring) :
  count_from pat (length l) (l ++ s) = count_from pat 0 s.
Proof.
  induction l as [|x l IH]; simpl; [reflexivity | exact IH].
Qed.

Section Replace.
Variable fl : flags.
Hypothesis no_ignoreCase : ignoreCase fl = false.
(** The pattern is the text [x :: p]. *)
Variables (x : code_unit) (p : jsstring).
Variable rep : jsstring.

Let pat : jsstring := x :: p.

Lemma replace_all_found (ry : jsstring) :
  replace_all pat rep (pat ++ ry) = rep ++ replace_all pat rep ry.
Proof.
  unfold replace_all, pat. cbn [app replace_all_from].
  change (x :: p ++ ry) with ((x :: p) ++ ry). rewrite prefixb_self.
  f_equal. simpl. rewrite Nat.sub_0_r. apply replace_all_skip.
Qed.

(** The search for the text from a position: either there is no occurrence
    from there on, or the first occurrence is found. *)
Lemma scan (r : jsstring) :
  forall b,
    (search fl (lit_pattern pat) b r = NotFound
     /\ replace_all pat rep r = r)
    \/ (exists skipped ry,
           r = skipped ++ pat ++ ry
           /\ search fl (lit_pattern pat) b r
              = Found (rev skipped ++ b, pat ++ ry)
                      (rev pat ++ rev skipped ++ b, ry)
           /\ replace_all pat rep r
              = skipped ++ rep ++ replace_all pat rep ry).
Proof.
  induction r as [|c r IH]; intros b.
  - left. split; [|reflexivity]. simpl. rewrite m_lit_pattern.
    rewrite (@lit_match_exact fl pat no_ignoreCase). reflexivity.
  - cbn [search]. rewrite m_lit_pattern.
    rewrite (@lit_match_exact fl pat no_ignoreCase).
    destruct (prefixb pat (c :: r)) eqn:Pre.
    + right. exists [], (skipn (length pat) (c :: r)).
      pose proof (@prefixb_app _ _ Pre) as E.
      split; [exact E|]. split.
      * change (rev [] ++ b) with b. rewrite <- E. reflexivity.
      * rewrite E at 1. rewrite replace_all_found. reflexivity.
    + destruct (IH (c :: b)) as [[S R]|(skipped & ry & E & S & R)].
      * left. split; [exact S|].
        unfold replace_all in *. cbn [replace_all_from]. rewrite Pre, R.
        reflexivity.
      * right. exists (c :: skipped), ry.
        split; [rewrite E; reflexivity|]. split.
        -- rewrite S. cbn [rev]. rewrite <- !app_assoc. reflexivity.
        -- unfold replace_all in *. cbn [replace_all_from]. rewrite Pre, R.
           reflexivity.
Qed.
End Replace.

Definition flags_g : flags := mkFlags true false false false false.

Lemma firstn_length_app (A : Type) (l r : list A) :
  firstn (length l) (l ++ r) = l.
Proof. induction l as [|a l IH]; simpl; [reflexivity | f_equal; exact IH]. Qed.

Lemma skipn_length_app (A : Type) (l r : list A) :
  skipn (length l) (l ++ r) = r.
Proof. induction l as [|a l IH]; simpl; [reflexivity | exact IH]. Qed.

Lemma zipper_firstn (b r : jsstring) :
  firstn (length b) (rev b ++ r) = rev b.
Proof. rewrite <- (length_rev b). apply firstn_length_app. Qed.

Lemma zipper_skipn (b r : jsstring) : skipn (length b) (rev b ++ r) = r.
Proof. rewrite <- (length_rev b). apply skipn_length_app. Qed.

(** [exec] on a global RegExp whose [lastIndex] is the position [(b, r)] of
    the subject. *)
Lemma exec_global (R : regexp) (b r : jsstring) :
  re_flags R = flags_g ->
  lastIndex R = length b ->
  exec R (rev b ++ r)
  = match search flags_g (compiled R) b r with
    | Found x y => (Found x y, set_lastIndex R (end_index y))
    | NotFound => (NotFound, set_lastIndex R 0)
    | Stuck => (Stuck, R)
    end.
Proof.
  intros F L. unfold exec. rewrite F, L. cbn [global sticky flags_g orb].
  assert (Len : (length (rev b ++ r) <? length b) = false).
  { apply Nat.ltb_ge. rewrite length_app, length_rev. lia. }
  rewrite Len, zipper_firstn, zipper_skipn, rev_involutive.
  destruct (search flags_g (compiled R) b r); reflexivity.
Qed.

Section ReplaceLoop.
Variables (x : code_unit) (p : jsstring).
Variable template : jsstring.
Hypothesis template_plain : dollar_free template.
Variable subject : jsstring.

Let pat : jsstring := x :: p.

Lemma replace_loop (fuel : nat) :
  forall b r R acc,
    subject = rev b ++ r ->
    length r < fuel ->
    re_flags R = flags_g ->
    compiled R = lit_pattern pat ->
    lastIndex R = length b ->
    exists results R',
      collect fuel R subject acc = Some (acc ++ results, R')
      /\ forall accumulated,
           assemble subject template results (length b) accumulated
           = accumulated ++ replace_all pat template r.
Proof.
  induction fuel as [|fuel IH]; intros b r R acc ES Len F C L; [lia|].
  pose proof (exec_global R b r F L) as EX.
  rewrite <- ES, C in EX.
  destruct (@scan flags_g eq_refl x p template r b)
    as [[Sr Rr]|(skipped & ry & E & Sr & Rr)]; fold pat in Sr, Rr;
    rewrite Sr in EX.
  - exists [], (set_lastIndex R 0). split.
    + cbn [collect]. rewrite EX, app_nil_r. reflexivity.
    + intros accumulated. cbn [assemble].
      rewrite ES, zipper_skipn, Rr. reflexivity.
  - fold pat in E.
    set (x0 := (rev skipped ++ b, pat ++ ry)) in *.
    set (y0 := (rev pat ++ rev skipped ++ b, ry)) in *.
    assert (Ex : end_index x0 = length skipped + length b)
      by (unfold end_index, x0; cbn [fst];
          rewrite length_app, length_rev; reflexivity).
    assert (Ey : end_index y0 = length pat + (length skipped + length b))
      by (unfold end_index, y0; cbn [fst];
          rewrite !length_app, !length_rev; reflexivity).
    assert (NE : (end_index y0 =? end_index x0) = false)
      by (apply Nat.eqb_neq; rewrite Ex, Ey; unfold pat; simpl; lia).
    destruct (IH (rev pat ++ rev skipped ++ b) ry
                 (set_lastIndex R (end_index y0)) (acc ++ [(x0, y0)]))
      as (results & R' & HC & HA).
    + rewrite ES, E, !rev_app_distr, !rev_involutive, <- !app_assoc.
      reflexivity.
    + rewrite E, !length_app in Len. unfold pat in Len. simpl in Len. lia.
    + exact F.
    + exact C.
    + reflexivity.
    + exists ((x0, y0) :: results), R'. split.
      * cbn [collect]. rewrite EX, F. cbn [global flags_g]. rewrite NE.
        cbv iota. refine (eq_trans HC _).
        rewrite <- app_assoc. reflexivity.
      * intros accumulated. cbn [assemble].
        rewrite Ex, Ey.
        replace (length pat + (length skipped + length b)
                 - (length skipped + length b)) with (length pat) by lia.
        rewrite get_substitution_plain by exact template_plain.
        replace (length b <=? length skipped + length b) with true
          by (symmetry; apply Nat.leb_le; lia).
        replace (length skipped + length b - length b) with (length skipped)
          by lia.
        replace (length skipped + length b + length pat)
          with (length (rev pat ++ rev skipped ++ b))
          by (rewrite !length_app, !length_rev; lia).
        rewrite HA, Rr. rewrite ES at 1. rewrite zipper_skipn, E.
        rewrite firstn_length_app, <- !app_assoc. reflexivity.
Qed.
End ReplaceLoop.

Lemma regexp_target :
  regexp_literal "%target%" "g"
  = mkRegExp placeholder flags_g (lit_pattern placeholder) 0.
Proof. reflexivity. Qed.

(** [name.replace(/%target%/g, template)] for a template without [$]. *)
Lemma replace_target_spec (name_ template : jsstring) :
  dollar_free template ->
  replace_target name_ template = replace_all placeholder template name_.
Proof.
  intros D. unfold replace_target, replace. rewrite regexp_target.
  cbn [compiled re_flags global flags_g].
  change (ncaptures (lit_pattern placeholder) =? 0) with true. cbv iota.
  destruct (@replace_loop 37%N (lit "target%") template D name_
              (length name_ + 2) [] name_
              (set_lastIndex
                 (mkRegExp placeholder flags_g (lit_pattern placeholder) 0) 0)
              [])
    as (results & R' & HC & HA);
    try reflexivity; [lia|].
  rewrite HC. exact (HA []).
Qed.

Lemma dollar_free_app (a b : jsstring) :
  dollar_free a -> dollar_free b -> dollar_free (a ++ b).
Proof.
  unfold dollar_free. intros A B. rewrite forallb_app, A, B. reflexivity.
Qed.

Lemma newName_spec (mt : matcher) (t : jsstring) :
  dollar_free t ->
  newName mt t
  = replace_all placeholder
                (if str_eqb t (lit "superSpecial") then lit "super specials"
                 else t ++ lit "s")
                (name mt).
Proof.
  intros D. unfold newName.
  destruct (str_eqb t (lit "superSpecial")); apply replace_target_spec.
  - reflexivity.
  - apply dollar_free_app; [exact D | reflexivity].
Qed.

(** *** How long the new name is *)

Lemma prefixb_length (p s : jsstring) :
  prefixb p s = true -> length p <= length s.
Proof.
  revert s; induction p as [|x p IH]; intros s H; simpl; [lia|].
  destruct s as [|y s]; [discriminate|]. simpl in H.
  apply andb_true_iff in H as [_ H]. apply IH in H. simpl. lia.
Qed.

Lemma length_replace_all_from (x : code_unit) (p rep : jsstring) :
  forall s skip,
    length (replace_all_from (x :: p) rep skip s) + Nat.min skip (length s)
    + count_from (x :: p) skip s * length (x :: p)
    = length s + count_from (x :: p) skip s * length rep.
Proof.
  induction s as [|c s IH]; intros skip.
  - simpl. rewrite Nat.min_0_r. reflexivity.
  - destruct skip as [|k].
    + cbn [replace_all_from count_from].
      destruct (prefixb (x :: p) (c :: s)) eqn:Pre.
      * specialize (IH (length (x :: p) - 1)).
        apply prefixb_length in Pre.
        rewrite length_app. cbn [length] in *.
        rewrite Nat.sub_succ, Nat.sub_0_r in *.
        rewrite Nat.min_l in IH by lia. cbn [Nat.min].
        generalize dependent (count_from (x :: p) (length p) s).
        intros n IH. nia.
      * specialize (IH 0). cbn [length Nat.min] in *.
        generalize dependent (count_from (x :: p) 0 s).
        intros n IH. nia.
    + specialize (IH k).
      cbn [replace_all_from count_from length Nat.min] in *.
      generalize dependent (count_from (x :: p) k s).
      intros n IH. nia.
Qed.

(** A text that occurs is replaced at least once. *)
Lemma occurs_count (x : code_unit) (p s : jsstring) :
  forall before,
    occurs_from no_flags (x :: p) before s = true ->
    1 <= count_from (x :: p) 0 s.
Proof.
  induction s as [|c s IH]; intros before; cbn [occurs_from];
    rewrite (@lit_match_exact no_flags (x :: p) eq_refl).
  - simpl. discriminate.
  - cbn [count_from].
    destruct (prefixb (x :: p) (c :: s)); [intros _; lia | apply IH].
Qed.

(** Two replacements of different lengths give different names as soon as
    the text occurs. *)
Lemma replace_all_differ (x : code_unit) (p rep1 rep2 s : jsstring) :
  length rep1 <> length rep2 ->
  occurs no_flags (x :: p) s = true ->
  replace_all (x :: p) rep1 s <> replace_all (x :: p) rep2 s.
Proof.
  intros L O E. apply occurs_count in O.
  pose proof (length_replace_all_from x p rep1 s 0) as H1.
  pose proof (length_replace_all_from x p rep2 s 0) as H2.
  unfold replace_all in E. rewrite E in H1.
  cbn [Nat.min] in H1, H2. nia.
Qed.

Lemma allTargets_dollar_free : Forall dollar_free allTargets.
Proof. repeat constructor. Qed.

(** C3. For a target without [$] (as all of [allTargets] are), the name
    stored in the copy is the name of the matcher with every occurrence of
    ["%target%"] replaced by the target followed by ["s"]; for the target
    ["superSpecial"] it is replaced by ["super specials"], so that the
    stored name is not the one with ["superSpecials"] when the placeholder
    occurs.  In the built registry every entry is stored under that
    name. *)
Theorem target_placeholder_replaced :
  forall (mt : matcher) (t g : jsstring),
    dollar_free t ->
    name (matcherCopy mt t g) = newName mt t
    /\ (t <> lit "superSpecial" ->
        newName mt t = replace_all placeholder (t ++ lit "s") (name mt))
    /\ (t = lit "superSpecial" ->
        newName mt t
        = replace_all placeholder (lit "super specials") (name mt)
        /\ (occurs no_flags placeholder (name mt) = true ->
            newName mt t
            <> replace_all placeholder (lit "superSpecials") (name mt)))
    /\ (forall inc alpha matchers n e,
           lookup (build inc alpha matchers) t g n = Some e ->
           name e = n
           /\ exists mt',
               In (g, mt', t) (registrations matchers)
               /\ n = newName mt' t).
Proof.
  intros mt t g D. split; [reflexivity|].
  pose proof (newName_spec mt D) as N.
  split; [|split].
  - intros NS. apply str_eqb_neq in NS. rewrite NS in N. exact N.
  - intros ->. rewrite str_eqb_refl in N. split; [exact N|].
    intros O. rewrite N.
    apply (@replace_all_differ 37%N (lit "target%")); [discriminate | exact O].
  - intros inc alpha matchers n e H. apply lookup_build_inv in H.
    destruct H as (mt' & Hin & _ & Hn & He). subst e.
    split; [symmetry; exact Hn|]. exists mt'. split; assumption.
Qed.

(** C7. The token ["?"] is extracted as 0 and the tokens ["completely"]
    and ["99+"] as Infinity; so the value of ["completely"] is greater than
    every number that the user can enter, and the value of ["?"] is at
    least 0 (and only less than 1 or equal to 0 among the other
    comparisons with a number that is not negative). *)
Theorem sentinel_tokens :
  extract_number (lit "?") = Finite 0%Q
  /\ extract_number (lit "completely") = Infinity
  /\ extract_number (lit "99+") = Infinity
  /\ (forall n : Q,
         satisfies greater (extract_number (lit "completely")) n = true)
  /\ (forall n : Q,
         satisfies greater (extract_number (lit "99+")) n = true)
  /\ satisfies greater_equal (extract_number (lit "?")) 0%Q = true
  /\ satisfies equal (extract_number (lit "?")) 0%Q = true
  /\ satisfies less (extract_number (lit "?")) 1%Q = true.
Proof.
  repeat split; try (intros n); vm_compute; reflexivity.
Qed.

(** * Further properties of the registry *)

(** The registrations of the three nested loops, read off the table. *)
Lemma In_registrations (matchers : obj (list matcher)) (g : jsstring)
      (mt : matcher) (t : jsstring) :
  In (g, mt, t) (registrations matchers)
  <-> In g (keys matchers)
      /\ In mt (or_default [] (get matchers g))
      /\ In t (targets mt).
Proof.
  unfold registrations. rewrite in_flat_map. split.
  - intros (g' & Hg & H). rewrite in_flat_map in H.
    destruct H as (mt' & Hm & H). rewrite in_map_iff in H.
    destruct H as (t' & E & Ht). inversion E; subst. auto.
  - intros (Hg & Hm & Ht). exists g. split; [exact Hg|].
    rewrite in_flat_map. exists mt. split; [exact Hm|].
    rewrite in_map_iff. exists t. auto.
Qed.

Lemma registered_in_table (matchers : obj (list matcher)) (g : jsstring)
      (mt : matcher) (t : jsstring) :
  In (g, mt, t) (registrations matchers)
  <-> In mt (or_default [] (get matchers g)) /\ In t (targets mt).
Proof.
  rewrite In_registrations. split; [tauto|]. intros [Hm Ht].
  split; [|tauto].
  destruct (get matchers g) as [l|] eqn:G; [|destruct Hm].
  eapply Permutation_in; [apply Permutation_sym, keys_perm|].
  destruct (in_dec (list_eq_dec N.eq_dec) g (map fst matchers)) as [I|I];
    [exact I|].
  apply get_None in I. congruence.
Qed.

(** Every entry of the built registry carries the place it is stored at:
    its [target], [group] and [name] are the three keys that lead to it,
    and its other properties are those of a matcher of that group of the
    table that lists the target and is not skipped. *)
Theorem entries_know_their_place :
  forall (inc alpha : bool) (matchers : obj (list matcher))
         (t g n : jsstring) (e : matcher),
    lookup (build inc alpha matchers) t g n = Some e ->
    target e = Some t /\ group e = Some g /\ name e = n
    /\ exists mt,
         In mt (or_default [] (get matchers g))
         /\ In t (targets mt)
         /\ skipped inc mt = false
         /\ n = newName mt t
         /\ targets e = targets mt
         /\ matcher_regex e = matcher_regex mt
         /\ submatchers e = submatchers mt
         /\ include e = include mt.
Proof.
  intros inc alpha matchers t g n e H.
  apply lookup_build_inv in H. destruct H as (mt & Hin & K & -> & ->).
  apply In_registrations in Hin. destruct Hin as (_ & Hm & Ht).
  repeat split. exists mt. repeat split; assumption.
Qed.

(** The number of rule copies stored in the registry. *)
Definition sum_values (V : Type) (f : V -> nat) (o : obj V) : nat :=
  list_sum (map (fun kv => f (snd kv)) o).

Definition count_entries (wm : obj (obj (obj matcher))) : nat :=
  sum_values (sum_values (fun of_group : obj matcher => length of_group)) wm.

Lemma sum_values_set (V : Type) (f : V -> nat) (o : obj V) (k : jsstring)
      (v : V) :
  sum_values f (set o k v)
  + match get o k with Some v0 => f v0 | None => 0 end
  = sum_values f o + f v.
Proof.
  unfold sum_values. induction o as [|[k' v'] o IH]; simpl.
  - lia.
  - destruct (str_eqb k' k); simpl; lia.
Qed.

Lemma length_set (V : Type) (o : obj V) (k : jsstring) (v : V) :
  length (set o k v)
  = length o + match get o k with Some _ => 0 | None => 1 end.
Proof.
  induction o as [|[k' v'] o IH]; simpl; [reflexivity|].
  destruct (str_eqb k' k); simpl; lia.
Qed.

Lemma sum_values_ext (V : Type) (f h : V -> nat) (o : obj V) :
  Forall (fun kv => f (snd kv) = h (snd kv)) o ->
  sum_values f o = sum_values h o.
Proof.
  unfold sum_values. induction 1 as [|kv o E _ IH]; simpl; [reflexivity|].
  rewrite E, IH. reflexivity.
Qed.

Lemma sum_values_map_values (V W : Type) (f : W -> nat) (h : V -> W)
      (o : obj V) :
  sum_values f (map_values h o) = sum_values (fun v => f (h v)) o.
Proof.
  unfold sum_values, map_values. rewrite map_map. reflexivity.
Qed.

Lemma count_register inc g mt reg t :
  skipped inc mt = false ->
  count_entries (window_matchers (register inc g mt reg t))
  = count_entries (window_matchers reg)
    + match lookup reg t g (newName mt t) with Some _ => 0 | None => 1 end.
Proof.
  intros K. unfold register, lookup. rewrite K. cbn [window_matchers].
  set (wm := window_matchers reg). set (n := newName mt t).
  set (c := matcherCopy mt t g). unfold count_entries.
  set (len := fun of_group : obj matcher => length of_group).
  destruct (get wm t) as [ot|] eqn:Gt.
  - rewrite Gt. cbn [or_default]. destruct (get ot g) as [og|] eqn:Gg.
    + rewrite Gg. cbn [or_default].
      pose proof (sum_values_set (sum_values len) wm t
                                 (set ot g (set og n c))) as A.
      rewrite Gt in A.
      pose proof (sum_values_set len ot g (set og n c)) as B.
      rewrite Gg in B.
      pose proof (length_set og n c) as C. unfold len in *.
      destruct (get og n); lia.
    + rewrite get_set_same. cbn [or_default]. rewrite set_set.
      pose proof (sum_values_set (sum_values len) wm t
                                 (set ot g (set [] n c))) as A.
      rewrite Gt in A.
      pose proof (sum_values_set len ot g (set [] n c)) as B.
      rewrite Gg in B. unfold len in *. simpl in *. lia.
  - rewrite get_set_same. cbn [or_default get]. rewrite get_set_same.
    cbn [or_default get]. rewrite !set_set.
    pose proof (sum_values_set (sum_values len) wm t [(g, [(n, c)])]) as A.
    rewrite Gt, Nat.add_0_r in A. simpl. exact A.
Qed.

Lemma count_fold inc regs :
  forall reg,
    count_entries (window_matchers (fold_left (register_one inc) regs reg))
    + length (console_error (fold_left (register_one inc) regs reg))
    = count_entries (window_matchers reg) + length (console_error reg)
      + length (filter (fun r => negb (skipped inc (snd (fst r)))) regs).
Proof.
  induction regs as [|[[g mt] t] regs IH]; intros reg; simpl; [lia|].
  rewrite IH. unfold register_one. cbn [fst snd].
  destruct (skipped inc mt) eqn:K; simpl.
  - rewrite lookup_register_skipped by exact K. lia.
  - rewrite count_register, console_register by exact K.
    destruct (lookup reg t g (newName mt t)); rewrite ?length_app; simpl; lia.
Qed.

Lemma length_sortObj (o : obj matcher) :
  NoDup (map fst o) -> length (sortObj o) = length o.
Proof. intros H. apply Permutation_length, sortObj_perm, H. Qed.

Lemma count_sort_groups (wm : obj (obj (obj matcher))) :
  wf_registry wm -> count_entries (sort_groups wm) = count_entries wm.
Proof.
  intros W. rewrite sort_groups_values by exact W.
  unfold count_entries. rewrite sum_values_map_values.
  apply sum_values_ext. destruct W as [_ W].
  eapply Forall_impl; [|exact W]. intros [t ot] [_ Wg]; simpl in *.
  rewrite sum_values_map_values. apply sum_values_ext.
  eapply Forall_impl; [|exact Wg]. intros [g og] N; simpl in *.
  apply length_sortObj, N.
Qed.

(** In a table whose registrations use no name of [Object.prototype],
    every registration that is not skipped either adds an entry to the
    registry or overwrites one and is reported on [console.error]: the
    entries and the diagnostics together are as many as those
    registrations. *)
Theorem every_registration_is_stored_or_reported :
  forall (inc alpha : bool) (matchers : obj (list matcher)),
    own_keys_only inc matchers = true ->
    count_entries (window_matchers (build inc alpha matchers))
    + length (console_error (build inc alpha matchers))
    = length (filter (fun r => negb (skipped inc (snd (fst r))))
                     (registrations matchers)).
Proof.
  intros inc alpha matchers _.
  assert (R : count_entries (window_matchers (registered inc matchers))
              + length (console_error (registered inc matchers))
              = length (filter (fun r => negb (skipped inc (snd (fst r))))
                               (registrations matchers))).
  { unfold registered. rewrite count_fold. reflexivity. }
  rewrite build_registered. destruct alpha; [|exact R].
  cbn [window_matchers console_error].
  rewrite count_sort_groups by apply wf_registered. exact R.
Qed.

Lemma console_fold_inv inc regs :
  forall reg msg,
    In msg (console_error (fold_left (register_one inc) regs reg)) ->
    In msg (console_error reg)
    \/ exists l1 r l2 e,
         regs = l1 ++ r :: l2
         /\ skipped inc (snd (fst r)) = false
         /\ msg = duplicate_message (newName (snd (fst r)) (snd r))
         /\ lookup (fold_left (register_one inc) l1 reg)
                   (snd r) (fst (fst r)) (newName (snd (fst r)) (snd r))
            = Some e.
Proof.
  induction regs as [|[[g mt] t] regs IH]; intros reg msg H; simpl in H;
    [left; exact H|].
  apply IH in H. destruct H as [H|(l1 & r & l2 & e & -> & K & -> & L)].
  - unfold register_one in H. cbn [fst snd] in H.
    destruct (skipped inc mt) eqn:K.
    + rewrite lookup_register_skipped in H by exact K. left; exact H.
    + rewrite console_register in H by exact K.
      destruct (lookup reg t g (newName mt t)) as [e|] eqn:L;
        [|left; exact H].
      apply in_app_or in H. destruct H as [H|[<-|[]]]; [left; exact H|].
      right. exists [], (g, mt, t), regs, e. repeat split; assumption.
  - right. exists ((g, mt, t) :: l1), r, l2, e. repeat split; assumption.
Qed.

(** In a table whose registrations use no name of [Object.prototype], a
    line on [console.error] is never spurious: each one is
    [Duplicate matcher "n"] for a place that two registrations resolved
    to. *)
Theorem diagnostics_only_for_collisions :
  forall (inc alpha : bool) (matchers : obj (list matcher)) (msg : jsstring),
    own_keys_only inc matchers = true ->
    In msg (console_error (build inc alpha matchers)) ->
    exists before r1 between r2 after t g n,
      registrations matchers = before ++ r1 :: between ++ r2 :: after
      /\ hits inc t g n r1 = true
      /\ hits inc t g n r2 = true
      /\ msg = lit "Duplicate matcher " ++ [34%N] ++ n ++ [34%N].
Proof.
  intros inc alpha matchers msg _ H. rewrite console_build in H.
  unfold registered in H. apply console_fold_inv in H.
  destruct H as [[]|(l1 & r & l2 & e & E & K & -> & L)].
  rewrite lookup_fold, lookup_initial in L.
  apply last_hit_some in L.
  destruct L as [L|(r1 & Hin & Hh & _)]; [discriminate|].
  apply in_split in Hin. destruct Hin as (before & between & ->).
  exists before, r1, between, r, l2.
  exists (snd r), (fst (fst r)), (newName (snd (fst r)) (snd r)).
  repeat split.
  - rewrite E, <- app_assoc. reflexivity.
  - exact Hh.
  - apply hits_own, K.
Qed.

(** ** The order of the targets *)

Lemma get_Some_In (V : Type) (o : obj V) (k : jsstring) (v : V) :
  get o k = Some v -> In k (map fst o).
Proof.
  intros H. destruct (in_dec (list_eq_dec N.eq_dec) k (map fst o)) as [I|I];
    [exact I|].
  apply get_None in I. congruence.
Qed.

Lemma map_fst_set_fresh (V : Type) (o : obj V) (k : jsstring) (v : V) :
  get o k = None -> map fst (set o k v) = map fst o ++ [k].
Proof.
  intros H. apply get_None in H. rewrite set_fresh by exact H.
  rewrite map_app. reflexivity.
Qed.

Lemma map_fst_set_present (V : Type) (o : obj V) (k : jsstring) (v w : V) :
  get o k = Some w -> map fst (set o k v) = map fst o.
Proof.
  intros H. rewrite map_fst_set.
  assert (E : existsb (str_eqb k) (map fst o) = true)
    by (apply existsb_str_eqb; eapply get_Some_In; exact H).
  rewrite E. reflexivity.
Qed.

Lemma targets_register inc g mt reg t :
  map fst (window_matchers (register inc g mt reg t))
  = map fst (window_matchers reg)
    ++ (if skipped inc mt then []
        else match get (window_matchers reg) t with
             | Some _ => []
             | None => [t]
             end).
Proof.
  unfold register. destruct (skipped inc mt); [rewrite app_nil_r; reflexivity|].
  cbn [window_matchers]. set (wm := window_matchers reg).
  destruct (get wm t) as [ot|] eqn:Gt.
  - rewrite Gt. cbn [or_default]. rewrite app_nil_r.
    eapply map_fst_set_present. exact Gt.
  - rewrite set_set. apply map_fst_set_fresh. exact Gt.
Qed.

Lemma targets_fold inc regs :
  forall reg,
    exists later,
      map fst (window_matchers (fold_left (register_one inc) regs reg))
      = map fst (window_matchers reg) ++ later
      /\ forall t,
           In t later
           <-> ~ In t (map fst (window_matchers reg))
               /\ exists r, In r regs /\ skipped inc (snd (fst r)) = false
                            /\ snd r = t.
Proof.
  induction regs as [|[[g mt] t0] regs IH]; intros reg; simpl.
  - exists []. rewrite app_nil_r. split; [reflexivity|].
    intros t. split; [intros []|intros (_ & r & [] & _)].
  - destruct (IH (register_one inc reg (g, mt, t0))) as (later & E & L).
    unfold register_one in E, L. cbn [fst snd] in E, L.
    rewrite targets_register in E, L.
    unfold register_one. cbn [fst snd]. rewrite E, <- app_assoc.
    eexists. split; [reflexivity|]. intros t.
    rewrite in_app_iff, L, in_app_iff.
    destruct (skipped inc mt) eqn:K.
    + simpl. split.
      * intros [[]|(N & r & Hin & Kr & Er)].
        split; [tauto|]. exists r. tauto.
      * intros (N & r & [<-|Hin] & Kr & Er); simpl in *; [congruence|].
        right. split; [tauto|]. exists r. tauto.
    + destruct (get (window_matchers reg) t0) as [ot|] eqn:Gt; simpl.
      * split.
        -- intros [[]|(N & r & Hin & Kr & Er)].
           split; [tauto|]. exists r. tauto.
        -- intros (N & r & [<-|Hin] & Kr & Er); simpl in *.
           ++ subst t. apply get_Some_In in Gt. tauto.
           ++ right. split; [tauto|]. exists r. tauto.
      * apply get_None in Gt. split.
        -- intros [[<-|[]]|(N & r & Hin & Kr & Er)].
           ++ split; [exact Gt|]. exists (g, mt, t0). simpl. tauto.
           ++ split; [tauto|]. exists r. tauto.
        -- intros (N & r & [<-|Hin] & Kr & Er); simpl in *.
           ++ left; left; exact Er.
           ++ destruct (list_eq_dec N.eq_dec t0 t) as [->|D];
                [left; left; reflexivity|].
              right. split; [intros [?|[?|[]]]; tauto|]. exists r. tauto.
Qed.

Lemma map_fst_map_values (V W : Type) (f : V -> W) (o : obj V) :
  map fst (map_values f o) = map fst o.
Proof. unfold map_values. rewrite map_map. reflexivity. Qed.

Lemma targets_build inc alpha matchers :
  map fst (window_matchers (build inc alpha matchers))
  = map fst (window_matchers (registered inc matchers)).
Proof.
  rewrite build_registered. destruct alpha; [|reflexivity].
  cbn [window_matchers].
  rewrite sort_groups_values by apply wf_registered.
  apply map_fst_map_values.
Qed.

(** In a table whose registrations use no name of [Object.prototype],
    [window.matchers] lists the declared targets first and in the declared
    order, whatever the order of the rule table; a target that only a
    rule declares comes after them.  When no such extra target is an
    array index, this is the order in which [Object.keys] and [for ... in]
    enumerate the targets. *)
Theorem targets_enumerate_in_declared_order :
  forall (inc alpha : bool) (matchers : obj (list matcher)),
    own_keys_only inc matchers = true ->
  exists later,
    map fst (window_matchers (build inc alpha matchers)) = allTargets ++ later
    /\ (forall t,
           In t later
           <-> ~ In t allTargets
               /\ exists g mt,
                    In mt (or_default [] (get matchers g))
                    /\ In t (targets mt)
                    /\ skipped inc mt = false)
    /\ (forallb (fun t => negb (is_array_index t)) later = true ->
        keys (window_matchers (build inc alpha matchers))
        = allTargets ++ later).
Proof.
  intros inc alpha matchers _.
  destruct (targets_fold inc (registrations matchers) initial_registry)
    as (later & E & L).
  exists later. rewrite targets_build. unfold registered.
  change (map fst (window_matchers initial_registry)) with allTargets in E, L.
  split; [exact E|]. split.
  - intros t. rewrite L. split.
    + intros (N & [[g mt] t'] & Hin & K & Et). simpl in *. subst t'.
      apply registered_in_table in Hin.
      split; [exact N|]. exists g, mt. tauto.
    + intros (N & g & mt & Hm & Ht & K). split; [exact N|].
      exists (g, mt, t). split; [|tauto].
      apply registered_in_table. tauto.
  - intros F. unfold keys. rewrite targets_build. unfold registered.
    rewrite E.
    assert (A : forallb (fun t => negb (is_array_index t))
                        (allTargets ++ later) = true)
      by (rewrite forallb_app, F; reflexivity).
    rewrite (filter_none _ _ A). simpl sort_by.
    rewrite (filter_all _ _ A). reflexivity.
Qed.

(** ** The groups of a target *)

Definition no_empty_group (wm : obj (obj (obj matcher))) : Prop :=
  Forall (fun kt : jsstring * obj (obj matcher) =>
            Forall (fun kg : jsstring * obj matcher => snd kg <> [])
                   (snd kt)) wm.

Lemma set_nonempty (V : Type) (o : obj V) (k : jsstring) (v : V) :
  set o k v <> [].
Proof.
  destruct o as [|[k' v'] o]; simpl; [discriminate|].
  destruct (str_eqb k' k); discriminate.
Qed.

Lemma no_empty_register inc g mt reg t :
  no_empty_group (window_matchers reg) ->
  no_empty_group (window_matchers (register inc g mt reg t)).
Proof.
  intros W. unfold register. destruct (skipped inc mt); [exact W|].
  cbn [window_matchers]. set (wm := window_matchers reg) in *.
  set (n := newName mt t). set (c := matcherCopy mt t g).
  set (Q := fun ot : obj (obj matcher) =>
              Forall (fun kg : jsstring * obj matcher => snd kg <> []) ot).
  set (P := fun og : obj matcher => og <> []).
  assert (Step : forall ot, Q ot ->
            Q (set (match get ot g with
                    | Some _ => ot
                    | None => set ot g []
                    end) g
                   (set (or_default []
                           (get (match get ot g with
                                 | Some _ => ot
                                 | None => set ot g []
                                 end) g)) n c))).
  { intros ot Hot. destruct (get ot g) as [og|] eqn:Gg.
    - apply (@Forall_set _ P); [exact Hot | apply set_nonempty].
    - rewrite set_set. apply (@Forall_set _ P); [exact Hot | apply set_nonempty]. }
  destruct (get wm t) as [ot|] eqn:Gt.
  - rewrite Gt. cbn [or_default].
    apply (@Forall_set _ Q); [exact W|]. apply Step.
    apply (@Forall_get _ Q wm t ot W Gt).
  - rewrite get_set_same. cbn [or_default]. rewrite set_set.
    apply (@Forall_set _ Q); [exact W|]. apply Step. constructor.
Qed.

Lemma no_empty_registered inc matchers :
  no_empty_group (window_matchers (registered inc matchers)).
Proof.
  unfold registered.
  assert (G : forall regs reg,
             no_empty_group (window_matchers reg) ->
             no_empty_group
               (window_matchers (fold_left (register_one inc) regs reg))).
  { induction regs as [|r regs IH]; intros reg W; simpl; [exact W|].
    apply IH. apply no_empty_register, W. }
  apply G. repeat constructor.
Qed.

Lemma group_of_build inc alpha matchers t g of_target of_group :
  get (window_matchers (build inc alpha matchers)) t = Some of_target ->
  get of_target g = Some of_group ->
  exists ot og,
    get (window_matchers (registered inc matchers)) t = Some ot
    /\ get ot g = Some og
    /\ NoDup (map fst og)
    /\ map fst of_target = map fst ot
    /\ Permutation of_group og.
Proof.
  rewrite build_registered. destruct alpha.
  - cbn [window_matchers].
    rewrite get_sort_groups by apply wf_registered.
    destruct (get (window_matchers (registered inc matchers)) t)
      as [ot|] eqn:Gt; [|discriminate].
    simpl. intros E; injection E as <-. rewrite get_map_values.
    destruct (get ot g) as [og|] eqn:Gg; [|discriminate].
    simpl. intros E; injection E as <-.
    assert (N : NoDup (map fst og)).
    { destruct (wf_registered inc matchers) as [_ W].
      pose proof (@Forall_get _ wf_groups _ t ot W Gt) as [_ Wg].
      exact (@Forall_get _ (fun v : obj matcher => NoDup (map fst v))
                         ot g og Wg Gg). }
    exists ot, og. repeat split; try assumption.
    + apply map_fst_map_values.
    + apply sortObj_perm, N.
  - intros Gt Gg.
    assert (N : NoDup (map fst of_group)).
    { destruct (wf_registered inc matchers) as [_ W].
      pose proof (@Forall_get _ wf_groups _ t of_target W Gt) as [_ Wg].
      exact (@Forall_get _ (fun v : obj matcher => NoDup (map fst v))
                         of_target g of_group Wg Gg). }
    exists of_target, of_group. repeat split; try assumption. reflexivity.
Qed.

(** In a table whose registrations use no name of [Object.prototype], a
    group object exists under a target exactly when a matcher of that
    group of the table lists the target and is not skipped, and then it
    holds the entry of that matcher: a group of the registry is never
    empty. *)
Theorem groups_hold_registered_rules :
  forall (inc alpha : bool) (matchers : obj (list matcher)) (t g : jsstring),
    own_keys_only inc matchers = true ->
    (forall of_target of_group,
        get (window_matchers (build inc alpha matchers)) t = Some of_target ->
        get of_target g = Some of_group ->
        of_group <> []
        /\ exists mt,
             In mt (or_default [] (get matchers g))
             /\ In t (targets mt)
             /\ skipped inc mt = false)
    /\ (forall mt,
           In mt (or_default [] (get matchers g)) ->
           In t (targets mt) ->
           skipped inc mt = false ->
           exists of_target of_group e,
             get (window_matchers (build inc alpha matchers)) t
             = Some of_target
             /\ get of_target g = Some of_group
             /\ get of_group (newName mt t) = Some e).
Proof.
  intros inc alpha matchers t g _. split.
  - intros of_target of_group Gt Gg.
    assert (NE : of_group <> []).
    { destruct (group_of_build _ _ _ _ _ Gt Gg)
        as (ot & og & Gt' & Gg' & _ & _ & Pm).
      pose proof (no_empty_registered inc matchers) as W.
      pose proof (@Forall_get _ (fun ot : obj (obj matcher) =>
                     Forall (fun kg : jsstring * obj matcher => snd kg <> [])
                            ot) _ t ot W Gt') as Wg.
      pose proof (@Forall_get _ (fun og : obj matcher => og <> [])
                              ot g og Wg Gg') as Ne.
      intros ->. apply Permutation_nil in Pm. congruence. }
    split; [exact NE|].
    destruct of_group as [|[k v] rest]; [congruence|].
    assert (L : lookup (build inc alpha matchers) t g k = Some v).
    { unfold lookup. rewrite Gt, Gg. simpl. rewrite str_eqb_refl.
      reflexivity. }
    apply lookup_build_inv in L. destruct L as (mt & Hin & K & _).
    apply In_registrations in Hin. exists mt. tauto.
  - intros mt Hm Ht K.
    assert (Hin : In (g, mt, t) (registrations matchers))
      by (apply registered_in_table; tauto).
    assert (L : exists e, lookup (build inc alpha matchers) t g (newName mt t)
                          = Some e).
    { rewrite lookup_build. apply in_split in Hin.
      destruct Hin as (l1 & l2 & ->). unfold last_hit.
      rewrite fold_left_app. simpl.
      pose proof (@hits_own inc (g, mt, t) K) as Own. cbn [fst snd] in Own.
      rewrite Own. apply last_hit_stays. }
    destruct L as (e & L). unfold lookup in L.
    destruct (get (window_matchers (build inc alpha matchers)) t)
      as [ot|]; [|discriminate].
    destruct (get ot g) as [og|] eqn:Gg; [|discriminate].
    exists ot, og, e. auto.
Qed.

(** ** The order of the groups under a target *)

Definition groups_of (reg : registry) (t : jsstring) : list jsstring :=
  map fst (or_default [] (get (window_matchers reg) t)).

Lemma not_listed (V : Type) (o : obj V) (k : jsstring) :
  get o k = None -> existsb (str_eqb k) (map fst o) = false.
Proof.
  intros H. apply get_None in H.
  destruct (existsb (str_eqb k) (map fst o)) eqn:E; [|reflexivity].
  apply existsb_str_eqb in E. contradiction.
Qed.

Lemma listed (V : Type) (o : obj V) (k : jsstring) (v : V) :
  get o k = Some v -> existsb (str_eqb k) (map fst o) = true.
Proof. intros H. apply existsb_str_eqb. eapply get_Some_In, H. Qed.

Lemma groups_register inc g mt reg t' t :
  groups_of (register inc g mt reg t') t
  = groups_of reg t
    ++ (if negb (skipped inc mt) && str_eqb t' t
           && negb (existsb (str_eqb g) (groups_of reg t))
        then [g] else []).
Proof.
  unfold groups_of. destruct (skipped inc mt) eqn:K.
  - rewrite lookup_register_skipped by exact K. simpl.
    rewrite app_nil_r. reflexivity.
  - destruct (str_eqb t' t) eqn:Et.
    + apply str_eqb_eq in Et. subst t'. cbn [negb andb].
      unfold register. rewrite K. cbn [window_matchers].
      set (wm := window_matchers reg). rewrite get_set_same.
      cbn [or_default].
      assert (Step : forall ot,
                map fst (set (match get ot g with
                              | Some _ => ot
                              | None => set ot g []
                              end) g
                             (set (or_default []
                                     (get (match get ot g with
                                           | Some _ => ot
                                           | None => set ot g []
                                           end) g))
                                  (newName mt t) (matcherCopy mt t g)))
                = map fst ot
                  ++ (if negb (existsb (str_eqb g) (map fst ot))
                      then [g] else [])).
      { intros ot. destruct (get ot g) as [og|] eqn:Gg.
        - rewrite (listed _ _ Gg). simpl. rewrite app_nil_r.
          eapply map_fst_set_present, Gg.
        - rewrite (not_listed _ _ Gg). simpl. rewrite set_set.
          apply map_fst_set_fresh, Gg. }
      destruct (get wm t) as [ot|] eqn:Gt.
      * rewrite Gt. cbn [or_default]. apply Step.
      * rewrite get_set_same. cbn [or_default]. apply (Step []).
    + apply str_eqb_neq in Et. rewrite get_register_other by exact Et.
      simpl. rewrite app_nil_r. reflexivity.
Qed.

(** The groups in the order in which the registrations create them. *)
Definition add_group (inc : bool) (t : jsstring) (acc : list jsstring)
           (r : jsstring * matcher * jsstring) : list jsstring :=
  if negb (skipped inc (snd (fst r))) && str_eqb (snd r) t
     && negb (existsb (str_eqb (fst (fst r))) acc)
  then acc ++ [fst (fst r)] else acc.

Lemma groups_fold inc t regs :
  forall reg,
    groups_of (fold_left (register_one inc) regs reg) t
    = fold_left (add_group inc t) regs (groups_of reg t).
Proof.
  induction regs as [|[[g mt] t'] regs IH]; intros reg; simpl;
    [reflexivity|].
  rewrite IH. f_equal. unfold register_one, add_group. cbn [fst snd].
  rewrite groups_register.
  destruct (negb (skipped inc mt) && str_eqb t' t
            && negb (existsb (str_eqb g) (groups_of reg t)));
    [reflexivity | apply app_nil_r].
Qed.

Lemma existsb_snoc (A : Type) (p : A -> bool) (l : list A) (a : A) :
  existsb p (l ++ [a]) = existsb p l || p a.
Proof. rewrite existsb_app. simpl. rewrite orb_false_r. reflexivity. Qed.

Lemma add_group_block inc t g (block : list (jsstring * matcher * jsstring)) :
  Forall (fun r => fst (fst r) = g) block ->
  forall acc,
    fold_left (add_group inc t) block acc
    = if existsb (fun r => negb (skipped inc (snd (fst r)))
                           && str_eqb (snd r) t) block
         && negb (existsb (str_eqb g) acc)
      then acc ++ [g] else acc.
Proof.
  induction 1 as [|r block Eg _ IH]; intros acc; simpl; [reflexivity|].
  rewrite IH. unfold add_group. rewrite Eg.
  destruct (existsb (str_eqb g) acc) eqn:M.
  - rewrite !andb_false_r. cbn [negb]. rewrite M, !andb_false_r.
    reflexivity.
  - cbn [negb]. rewrite !andb_true_r.
    destruct (negb (skipped inc (snd (fst r))) && str_eqb (snd r) t).
    + rewrite existsb_snoc, str_eqb_refl, orb_true_r. cbn [negb].
      rewrite andb_false_r. reflexivity.
    + rewrite M. cbn [negb orb]. rewrite andb_true_r. reflexivity.
Qed.

Lemma add_group_blocks inc t (block : jsstring -> list (jsstring * matcher * jsstring))
      (gs : list jsstring) :
  (forall g, Forall (fun r => fst (fst r) = g) (block g)) ->
  NoDup gs ->
  forall acc,
    (forall g, In g gs -> ~ In g acc) ->
    fold_left (add_group inc t) (flat_map block gs) acc
    = acc ++ filter (fun g => existsb (fun r => negb (skipped inc (snd (fst r)))
                                               && str_eqb (snd r) t)
                                      (block g)) gs.
Proof.
  intros B N. induction N as [|g gs Ng N IH]; intros acc Fresh; simpl.
  - rewrite app_nil_r. reflexivity.
  - rewrite fold_left_app, (add_group_block inc t (B g)).
    assert (M : existsb (str_eqb g) acc = false).
    { destruct (existsb (str_eqb g) acc) eqn:E; [|reflexivity].
      apply existsb_str_eqb in E. exfalso. apply (Fresh g); simpl; auto. }
    rewrite M. cbn [negb]. rewrite andb_true_r.
    destruct (existsb _ (block g)).
    + rewrite IH.
      * rewrite <- app_assoc. reflexivity.
      * intros g' Hin Hacc. apply in_app_or in Hacc.
        destruct Hacc as [Hacc|[<-|[]]].
        -- apply (Fresh g'); simpl; auto.
        -- contradiction.
    + apply IH. intros g' Hin. apply Fresh. simpl; auto.
Qed.

(** [matcher_] is registered for [t]: it is not skipped and lists [t]. *)
Definition declares (inc : bool) (t : jsstring) (matcher_ : matcher) : bool :=
  negb (skipped inc matcher_) && includes (targets matcher_) t.

Lemma existsb_flat_map (A B : Type) (p : B -> bool) (f : A -> list B)
      (l : list A) :
  existsb p (flat_map f l) = existsb (fun a => existsb p (f a)) l.
Proof.
  induction l as [|a l IH]; simpl; [reflexivity|].
  rewrite existsb_app, IH. reflexivity.
Qed.

Lemma existsb_map (A B : Type) (p : B -> bool) (f : A -> B) (l : list A) :
  existsb p (map f l) = existsb (fun a => p (f a)) l.
Proof.
  induction l as [|a l IH]; simpl; [reflexivity|]. rewrite IH. reflexivity.
Qed.

Lemma existsb_ext' (A : Type) (p q : A -> bool) (l : list A) :
  (forall a, p a = q a) -> existsb p l = existsb q l.
Proof.
  intros E. induction l as [|a l IH]; simpl; [reflexivity|].
  rewrite E, IH. reflexivity.
Qed.

Lemma existsb_and_const (A : Type) (b : bool) (p : A -> bool) (l : list A) :
  existsb (fun a => b && p a) l = b && existsb p l.
Proof.
  destruct b; simpl; [reflexivity|].
  induction l as [|a l IH]; simpl; [reflexivity | exact IH].
Qed.

Lemma block_declares inc t g (ms : list matcher) :
  existsb (fun r : jsstring * matcher * jsstring =>
             negb (skipped inc (snd (fst r))) && str_eqb (snd r) t)
          (flat_map (fun matcher_ =>
                       map (fun target_ => (g, matcher_, target_))
                           (targets matcher_)) ms)
  = existsb (declares inc t) ms.
Proof.
  rewrite existsb_flat_map. apply existsb_ext'. intros mt.
  rewrite existsb_map. cbn [fst snd]. rewrite existsb_and_const.
  unfold declares, includes. f_equal. apply existsb_ext'. intros t'.
  apply str_eqb_sym.
Qed.

Lemma groups_of_initial (t : jsstring) : groups_of initial_registry t = [].
Proof.
  unfold groups_of.
  destruct (get (window_matchers initial_registry) t) as [ot|] eqn:G;
    [|reflexivity].
  rewrite (@Forall_get_empty _ _ t ot initial_targets_empty G). reflexivity.
Qed.

Lemma groups_of_registered inc matchers t :
  NoDup (map fst matchers) ->
  groups_of (registered inc matchers) t
  = filter (fun g => existsb (declares inc t) (or_default [] (get matchers g)))
           (keys matchers).
Proof.
  intros N. unfold registered. rewrite groups_fold, groups_of_initial.
  unfold registrations.
  rewrite (@add_group_blocks inc t
             (fun group_ =>
                flat_map (fun matcher_ =>
                            map (fun target_ => (group_, matcher_, target_))
                                (targets matcher_))
                         (or_default [] (get matchers group_)))).
  - simpl. apply filter_ext. intros g. apply block_declares.
  - intros g. apply Forall_forall. intros r Hin.
    apply in_flat_map in Hin. destruct Hin as (mt & _ & Hin).
    apply in_map_iff in Hin. destruct Hin as (t' & <- & _). reflexivity.
  - apply keys_NoDup, N.
  - intros g _ [].
Qed.

(** In a table whose registrations use no name of [Object.prototype], the
    groups under a target are created in the order in which [for ... in]
    enumerates the groups of the rule table, one for each group that has a
    matcher registered for the target; sorting the rule names leaves this
    order alone.  When no group name is an array index, it is the order in
    which the groups of the target enumerate. *)
Theorem groups_enumerate_in_table_order :
  forall (inc alpha : bool) (matchers : obj (list matcher)) (t : jsstring)
         (of_target : obj (obj matcher)),
    own_keys_only inc matchers = true ->
    NoDup (map fst matchers) ->
    get (window_matchers (build inc alpha matchers)) t = Some of_target ->
    map fst of_target
    = filter (fun g => existsb (declares inc t)
                               (or_default [] (get matchers g)))
             (keys matchers)
    /\ (forallb (fun g => negb (is_array_index g)) (map fst matchers) = true ->
        keys of_target
        = filter (fun g => existsb (declares inc t)
                                   (or_default [] (get matchers g)))
                 (map fst matchers)).
Proof.
  intros inc alpha matchers t of_target _ N Gt.
  assert (E : map fst of_target = groups_of (registered inc matchers) t).
  { unfold groups_of. revert Gt. rewrite build_registered. destruct alpha.
    - cbn [window_matchers].
      rewrite get_sort_groups by apply wf_registered.
      destruct (get (window_matchers (registered inc matchers)) t) as [ot|];
        [|discriminate].
      simpl. intros H; injection H as <-. apply map_fst_map_values.
    - intros ->. reflexivity. }
  rewrite groups_of_registered in E by exact N.
  split; [exact E|]. intros F.
  rewrite (keys_no_index _ F) in E.
  rewrite <- E. apply keys_no_index. rewrite E.
  apply forallb_forall. intros g Hin. apply filter_In in Hin.
  destruct Hin as [Hin _].
  rewrite forallb_forall in F. apply F, Hin.
Qed.

(** ** Sorting twice *)

Lemma sorted_unique (l1 : list jsstring) :
  forall l2,
    StronglySorted str_lt l1 -> StronglySorted str_lt l2 ->
    Permutation l1 l2 -> l1 = l2.
Proof.
  induction l1 as [|a l1 IH]; intros l2 S1 S2 P.
  - apply Permutation_nil in P. symmetry. exact P.
  - destruct l2 as [|b l2];
      [apply Permutation_sym, Permutation_nil in P; discriminate|].
    inversion S1 as [|? ? S1' F1]; subst.
    inversion S2 as [|? ? S2' F2]; subst.
    assert (E : a = b).
    { assert (Ia : In a (b :: l2))
        by (eapply Permutation_in; [exact P | left; reflexivity]).
      assert (Ib : In b (a :: l1))
        by (eapply Permutation_in;
            [apply Permutation_sym; exact P | left; reflexivity]).
      destruct Ia as [Ia|Ia]; [symmetry; exact Ia|].
      destruct Ib as [Ib|Ib]; [exact Ib|].
      rewrite Forall_forall in F1, F2.
      pose proof (F1 _ Ib) as A. pose proof (F2 _ Ia) as B.
      unfold str_lt in A, B. apply str_ltb_asym in A. congruence. }
    subst b. f_equal. apply IH; try assumption.
    eapply Permutation_cons_inv. exact P.
Qed.

Lemma pick_ext (V : Type) (o o' : obj V) (ks : list jsstring) :
  (forall k, get o k = get o' k) -> pick o ks = pick o' ks.
Proof.
  intros E. unfold pick. induction ks as [|k ks IH]; simpl; [reflexivity|].
  rewrite E, IH. reflexivity.
Qed.

(** [sortObj] applied to its own result returns it unchanged, with the
    properties in the same order. *)
Theorem sortObj_idempotent :
  forall o : obj matcher,
    NoDup (map fst o) -> sortObj (sortObj o) = sortObj o.
Proof.
  intros o N.
  rewrite (@sortObj_pick (sortObj o) (@NoDup_sortObj o N)).
  assert (E : array_sort (keys (sortObj o)) = array_sort (keys o)).
  { apply sorted_unique.
    - apply array_sort_ascending, keys_NoDup, NoDup_sortObj, N.
    - apply array_sort_ascending, keys_NoDup, N.
    - eapply Permutation_trans; [apply array_sort_perm|].
      eapply Permutation_trans; [apply keys_perm|].
      rewrite map_fst_sortObj by exact N. apply Permutation_refl. }
  rewrite E, (@pick_ext _ (sortObj o) o).
  - symmetry. apply sortObj_pick, N.
  - intros k. apply get_sortObj, N.
Qed.

(** ** Names without the placeholder *)

Lemma occurs_from_case_sensitive (fl fl' : flags) (cs : jsstring) :
  ignoreCase fl = false -> ignoreCase fl' = false ->
  forall rest before,
    occurs_from fl cs before rest = occurs_from fl' cs before rest.
Proof.
  intros F F'. induction rest as [|c rest IH]; intros before; simpl;
    rewrite !lit_match_exact by assumption.
  - reflexivity.
  - rewrite IH. reflexivity.
Qed.

Lemma replace_target_absent (name_ template : jsstring) :
  occurs no_flags placeholder name_ = false ->
  replace_target name_ template = name_.
Proof.
  intros H. unfold replace_target, replace. rewrite regexp_target.
  cbn [compiled re_flags global flags_g].
  change (ncaptures (lit_pattern placeholder) =? 0) with true. cbv iota.
  set (R0 := set_lastIndex
               (mkRegExp placeholder flags_g (lit_pattern placeholder) 0) 0).
  pose proof (@exec_global R0 [] name_ eq_refl eq_refl) as EX.
  change (rev [] ++ name_) with name_ in EX.
  change (compiled R0) with (lit_pattern placeholder) in EX.
  assert (Sr : search flags_g (lit_pattern placeholder) [] name_ = NotFound).
  { pose proof (search_lit_pattern flags_g placeholder [] name_) as F.
    rewrite (@occurs_from_case_sensitive flags_g no_flags placeholder
               eq_refl eq_refl) in F.
    unfold occurs in H. rewrite H in F.
    pose proof (search_never_stuck flags_g (lit_pattern placeholder)
                                   [] name_) as NS.
    destruct (search flags_g (lit_pattern placeholder) [] name_);
      simpl in F; congruence. }
  rewrite Sr in EX.
  replace (length name_ + 2) with (S (S (length name_))) by lia.
  cbn [collect]. rewrite EX. reflexivity.
Qed.

(** A matcher whose name does not contain [%target%] keeps its name under
    every target, whatever the target is called. *)
Theorem name_without_placeholder_is_kept :
  forall (mt : matcher) (t g : jsstring),
    occurs no_flags placeholder (name mt) = false ->
    newName mt t = name mt /\ name (matcherCopy mt t g) = name mt.
Proof.
  intros mt t g H.
  assert (E : newName mt t = name mt)
    by (unfold newName; destruct (str_eqb t (lit "superSpecial"));
        apply replace_target_absent, H).
  split; [exact E | exact E].
Qed.

(** * Further properties of the generators *)

(** ** The universal alternative after any base pattern *)

Definition add_alts (alts : list pattern) (st : pstate) : pstate :=
  fold_left (fun st a => add_alt a st) alts st.

Lemma add_alt_frames_nonempty a fs : fs <> [] -> add_alt_frames a fs <> [].
Proof.
  destruct fs as [|f [|f' fs]]; simpl; intros H; congruence.
Qed.

Lemma run_add_alts alts src :
  forall st, p_frames st <> [] ->
             run (add_alts alts st) src = option_map (add_alts alts) (run st src).
Proof.
  unfold add_alts. induction alts as [|a alts IH]; intros st NE; simpl.
  - destruct (run st src); reflexivity.
  - rewrite IH by (apply add_alt_frames_nonempty, NE).
    rewrite run_add_alt by exact NE.
    destruct (run st src); reflexivity.
Qed.

Definition alternation (alts : list pattern) (u : pattern) : pattern :=
  fold_left (fun acc a => Alt a acc) alts u.

Lemma finish_add_alts alts :
  forall st, finish (add_alts alts st) = option_map (alternation alts) (finish st).
Proof.
  unfold add_alts, alternation.
  induction alts as [|a alts IH]; intros st; simpl.
  - destruct (finish st); reflexivity.
  - rewrite IH, finish_add_alt. destruct (finish st); reflexivity.
Qed.

Lemma add_alts_bottom alts :
  forall mode k alts0 terms,
    add_alts alts (mkP mode [mkFrame k alts0 terms])
    = mkP mode [mkFrame k (alts0 ++ alts) terms].
Proof.
  unfold add_alts. induction alts as [|a alts IH]; intros mode k alts0 terms;
    simpl.
  - rewrite app_nil_r. reflexivity.
  - unfold add_alt at 2. simpl. rewrite IH, <- app_assoc. reflexivity.
Qed.

(** [P + "|" + U] parses as the alternatives of [P] followed by the
    pattern [U]. *)
Lemma parse_alts_prefix (P U : jsstring) (l : last_term)
      (alts terms : list pattern) :
  run pstart P = Some (mkP (MNormal l) [mkFrame GNonCapture alts terms]) ->
  parse (P ++ lit "|" ++ U)
  = option_map (alternation (mk_seq terms :: alts)) (parse U).
Proof.
  intros HP. unfold parse. rewrite run_app, HP.
  change (lit "|" ++ U) with (124%N :: U). cbn [run].
  assert (E : step (mkP (MNormal l) [mkFrame GNonCapture alts terms]) 124%N
              = Some (add_alts (mk_seq terms :: alts) pstart)).
  { unfold pstart. rewrite add_alts_bottom. reflexivity. }
  rewrite E, run_add_alts by discriminate.
  destruct (run pstart U) as [st|]; cbn [option_map];
    [apply finish_add_alts | reflexivity].
Qed.

Lemma search_alternation fl alts :
  forall u before rest,
    is_found (search fl (alternation alts u) before rest)
    = is_found (search fl u before rest)
      || existsb (fun a => is_found (search fl a before rest)) alts.
Proof.
  unfold alternation. induction alts as [|a alts IH]; intros u before rest;
    simpl.
  - rewrite orb_false_r. reflexivity.
  - rewrite IH, search_Alt.
    destruct (is_found (search fl a before rest)),
             (is_found (search fl u before rest)); reflexivity.
Qed.

(** The RegExp that an option gets from the source [base]: it finds what
    [base] finds and, when the universal alternative is included, what the
    universal pattern finds. *)
Lemma union_regexp (base U : jsstring) (l : last_term)
      (alts terms : list pattern) (includeUniversal : bool) :
  run pstart base = Some (mkP (MNormal l) [mkFrame GNonCapture alts terms]) ->
  (includeUniversal = true -> valid_pattern U) ->
  exists R,
    new_RegExp (base ++ (if includeUniversal then lit "|" ++ U else []))
               (lit "i") = Some R
    /\ re_flags R = flags_i
    /\ original_source R = base ++ (if includeUniversal then lit "|" ++ U else [])
    /\ forall text_,
         fst (test R text_)
         = universal_test base text_
           || (if includeUniversal then universal_test U text_ else false).
Proof.
  intros HP HU.
  assert (EP : parse base = Some (alternation alts (mk_seq terms)))
    by (unfold parse; rewrite HP; reflexivity).
  assert (TP : forall text_,
             universal_test base text_
             = is_found (search flags_i (alternation alts (mk_seq terms))
                                [] text_)).
  { intros text_. unfold universal_test. rewrite new_RegExp_i, EP.
    rewrite test_stateless by (split; reflexivity). reflexivity. }
  rewrite new_RegExp_i. destruct includeUniversal.
  - rewrite (@parse_alts_prefix base U l alts terms HP).
    destruct (parse U) as [rU|] eqn:EU; [|exfalso; apply (HU eq_refl EU)].
    cbn [option_map]. eexists; repeat split.
    intros text_. rewrite test_stateless by (split; reflexivity).
    cbn [fst re_flags compiled].
    rewrite TP, !search_alternation. cbn [existsb].
    unfold universal_test. rewrite new_RegExp_i, EU.
    rewrite test_stateless by (split; reflexivity).
    cbn [fst re_flags compiled].
    destruct (is_found (search flags_i rU [] text_)),
             (is_found (search flags_i (mk_seq terms) [] text_)),
             (existsb _ alts); reflexivity.
  - rewrite app_nil_r, EP. eexists; repeat split.
    intros text_. rewrite test_stateless by (split; reflexivity). simpl.
    rewrite TP, orb_false_r. reflexivity.
Qed.

Lemma literal_test (b text_ : jsstring) :
  plain b -> universal_test b text_ = occurs flags_i b text_.
Proof.
  intros Pb. unfold universal_test.
  rewrite new_RegExp_i, (@parse_plain b Pb).
  rewrite test_stateless by (split; reflexivity). simpl.
  apply search_lit_pattern.
Qed.

(** ** Generators that push one option after the other *)

Section Produces.
Variable E : Type.
Variable Rel : E -> submatcher -> Prop.
Variable s : module_state.

(** [c], started with the array [result], returns [result] with one more
    submatcher for each element of [expected], and leaves the module as it
    was. *)
Definition produces (c : M (list submatcher)) (result : list submatcher)
           (expected : list E) : Prop :=
  exists more, c s = Some (result ++ more, s) /\ Forall2 Rel expected more.

Lemma produces_ret result : produces (ret result) result [].
Proof. exists []. rewrite app_nil_r. split; [reflexivity | constructor]. Qed.

Lemma produces_bind c (k : list submatcher -> M (list submatcher))
      result e1 e2 :
  produces c result e1 ->
  (forall result', produces (k result') result' e2) ->
  produces (bind c k) result (e1 ++ e2).
Proof.
  intros (m1 & E1 & F1) K. destruct (K (result ++ m1)) as (m2 & E2 & F2).
  exists (m1 ++ m2). unfold bind. rewrite E1, E2, app_assoc.
  split; [reflexivity | apply Forall2_app; assumption].
Qed.

Lemma produces_filtered (f : E -> bool) (entry : E) (b : bool) c result :
  b = f entry ->
  produces c result [entry] ->
  produces (if b then c else ret result) result (filter f [entry]).
Proof.
  intros -> H. simpl. destruct (f entry); [exact H | apply produces_ret].
Qed.

Lemma produces_push (entry : E) result description_ base includeUniversal U
      cssClass groups_ l alts terms :
  run pstart base = Some (mkP (MNormal l) [mkFrame GNonCapture alts terms]) ->
  (includeUniversal = true -> valid_pattern U) ->
  (forall sm R,
      type sm = option_ -> groups sm = Some groups_ ->
      regex sm = Some R ->
      original_source R = base ++ (if includeUniversal then lit "|" ++ U else []) ->
      (forall text_,
          fst (test R text_)
          = universal_test base text_
            || (if includeUniversal then universal_test U text_ else false)) ->
      Rel entry sm) ->
  produces (push_option result description_ base includeUniversal U
                        cssClass groups_) result [entry].
Proof.
  intros HP HU HR.
  destruct (@union_regexp base U l alts terms includeUniversal HP HU)
    as (R & ER & _ & ES & ET).
  unfold push_option. eexists. rewrite bind_throwing, ER. unfold ret.
  split; [reflexivity|]. constructor; [|constructor].
  apply (HR _ R); try reflexivity; assumption.
Qed.
End Produces.

(** ** The position options by rows and columns *)

(** The names by which [excludedSubmatchers] leaves an option out, each
    with the texts that the option looks for: the rows and columns, and
    the options that both modes have. *)
Definition line_names : list (jsstring * list jsstring) :=
  [ (lit "Top", [lit "Top"]);
    (lit "Middle", [lit "Middle"]);
    (lit "Bottom", [lit "Bottom"]);
    (lit "Left", [lit "Left"]);
    (lit "Right", [lit "Right"]) ].

Definition other_names : list (jsstring * list jsstring) :=
  [ (lit "Adjacent", [lit "adjacent"]);
    (lit "Selected", [lit "selected"]);
    (lit "Self", [lit "this"; lit "own"; lit "supported"]) ].

Definition position_names : list (jsstring * list jsstring) :=
  line_names ++ other_names.

(** One of the texts occurs in [text_], letter case ignored. *)
Definition finds_any (alts : list jsstring) (text_ : jsstring) : bool :=
  existsb (fun a => occurs flags_i a text_) alts.

(** An option bound to [groups_] whose RegExp finds the texts that
    [finds] accepts. *)
Definition matching_option (groups_ : list nat) (finds : jsstring -> bool)
           (sm : submatcher) : Prop :=
  type sm = option_
  /\ groups sm = Some groups_
  /\ exists R, regex sm = Some R
               /\ forall text_, fst (test R text_) = finds text_.

Lemma literal_finds (b text_ : jsstring) :
  plain b -> universal_test b text_ = finds_any [b] text_.
Proof.
  intros Pb. rewrite literal_test by exact Pb. unfold finds_any. simpl.
  rewrite orb_false_r. reflexivity.
Qed.

Lemma self_finds (text_ : jsstring) :
  universal_test (lit "this|own|supported") text_
  = finds_any [lit "this"; lit "own"; lit "supported"] text_.
Proof.
  unfold universal_test. rewrite new_RegExp_i.
  change (parse (lit "this|own|supported"))
    with (Some (Alt (lit_pattern (lit "this"))
                    (Alt (lit_pattern (lit "own"))
                         (lit_pattern (lit "supported"))))).
  cbv beta iota.
  rewrite test_stateless by (split; reflexivity).
  cbn [fst re_flags compiled].
  rewrite !search_Alt, !search_lit_pattern. unfold finds_any. simpl.
  rewrite orb_false_r. reflexivity.
Qed.

Section Positions.
Variables (s : module_state) (groups_ : list nat).
Variables (includeUniversal : option bool) (universalRegex : option jsstring).
Variable excludedSubmatchers : option (list jsstring).
Hypothesis universal_ok :
  includeUniversal <> Some false ->
  forall u, universalRegex = Some u -> valid_pattern u.

Let inc : bool := or_default true includeUniversal.
Let U : jsstring := or_default modu universalRegex.
Let excl : list jsstring := or_default [] excludedSubmatchers.

Let kept (entry : jsstring * list jsstring) : bool :=
  negb (includes excl (fst entry)).

Let Rel (entry : jsstring * list jsstring) (sm : submatcher) : Prop :=
  matching_option groups_
    (fun text_ => finds_any (snd entry) text_
                  || (if inc then universal_test U text_ else false)) sm.

Lemma universal_ok' : inc = true -> valid_pattern U.
Proof.
  intros Ei.
  apply (@universal_valid includeUniversal universalRegex modu);
    [apply valid_modu | exact universal_ok | exact Ei].
Qed.

Lemma literal_option (nm b : jsstring) result description_ cssClass :
  plain b ->
  produces Rel s
           (if negb (includes excl nm)
            then push_option result description_ b inc U cssClass groups_
            else ret result)
           result (filter kept [(nm, [b])]).
Proof.
  intros Pb. apply produces_filtered; [reflexivity|].
  eapply produces_push.
  - apply run_plain_start, Pb.
  - exact universal_ok'.
  - intros sm R Ht Hg Hr _ Htest. split; [exact Ht|]. split; [exact Hg|].
    exists R. split; [exact Hr|]. intros text_. rewrite Htest. cbn [snd].
    rewrite literal_finds by exact Pb. reflexivity.
Qed.

Lemma run_self :
  run pstart (lit "this|own|supported")
  = Some (mkP (MNormal LAtom)
              [mkFrame GNonCapture
                       [lit_pattern (lit "own"); lit_pattern (lit "this")]
                       (rev (map Char (lit "supported")))]).
Proof. vm_compute. reflexivity. Qed.

Lemma self_option result description_ cssClass :
  produces Rel s
           (if negb (includes excl (lit "Self"))
            then push_option result description_ (lit "this|own|supported")
                             inc U cssClass groups_
            else ret result)
           result
           (filter kept [(lit "Self", [lit "this"; lit "own"; lit "supported"])]).
Proof.
  apply produces_filtered; [reflexivity|].
  eapply produces_push.
  - exact run_self.
  - exact universal_ok'.
  - intros sm R Ht Hg Hr _ Htest. split; [exact Ht|]. split; [exact Hg|].
    exists R. split; [exact Hr|]. intros text_. rewrite Htest. cbn [snd].
    rewrite self_finds. reflexivity.
Qed.

Lemma last_three result :
  produces Rel s
    (result <-
       (if negb (includes excl (lit "Adjacent")) then
          push_option result (Some [0xC778; 0xC811]%N) (lit "adjacent")
                      inc U (lit "min-width-4") groups_
        else ret result) ;;
     result <-
       (if negb (includes excl (lit "Selected")) then
          push_option result (Some [0xC120; 0xD0DD]%N) (lit "selected")
                      inc U (lit "min-width-4") groups_
        else ret result) ;;
     result <-
       (if negb (includes excl (lit "Self")) then
          push_option result (Some [0xC790; 0xC2E0]%N)
                      (lit "this|own|supported")
                      inc U (lit "min-width-4") groups_
        else ret result) ;;
     ret result)
    result (filter kept other_names).
Proof.
  change (filter kept other_names)
    with (filter kept ([(lit "Adjacent", [lit "adjacent"])]
                       ++ [(lit "Selected", [lit "selected"])]
                       ++ [(lit "Self",
                            [lit "this"; lit "own"; lit "supported"])]
                       ++ [])).
  rewrite !filter_app.
  apply produces_bind; [apply literal_option; reflexivity | intros r1].
  apply produces_bind; [apply literal_option; reflexivity | intros r2].
  apply produces_bind; [apply self_option | intros r3].
  apply produces_ret.
Qed.

Lemma rows_and_columns :
  produces Rel s
    (createPositionsSubmatchers groups_ includeUniversal universalRegex
                                excludedSubmatchers (Some true))
    [] (filter kept position_names).
Proof.
  unfold createPositionsSubmatchers. cbv zeta.
  cbn [or_default for_of entries combine seq length].
  fold inc. fold U. fold excl.
  change (filter kept position_names)
    with (filter kept
            ((([(lit "Top", [lit "Top"])]
               ++ [(lit "Middle", [lit "Middle"])]
               ++ [(lit "Bottom", [lit "Bottom"])] ++ [])
              ++ [(lit "Left", [lit "Left"])]
              ++ [(lit "Right", [lit "Right"])] ++ [])
             ++ other_names)).
  rewrite !filter_app.
  apply produces_bind; [|intros r; apply last_three].
  apply produces_bind; [|intros r].
  - apply produces_bind; [apply literal_option; reflexivity | intros r1].
    apply produces_bind; [apply literal_option; reflexivity | intros r2].
    apply produces_bind; [apply literal_option; reflexivity | intros r3].
    apply produces_ret.
  - apply produces_bind; [apply literal_option; reflexivity | intros r1].
    apply produces_bind; [apply literal_option; reflexivity | intros r2].
    apply produces_ret.
Qed.
End Positions.

(** With rows and columns (the default), the generator returns one
    option for each of Top, Middle, Bottom, Left, Right, Adjacent, Selected
    and Self that [excludedSubmatchers] does not name, in this order.  A
    name is excluded only when it is spelt exactly so.  The option finds
    the texts that contain its word in any letter case (for Self: "this",
    "own" or "supported"), and what the universal pattern finds when that
    is included. *)
Theorem positions_by_rows_and_columns :
  forall (s : module_state) (groups_ : list nat)
         (includeUniversal : option bool) (universalRegex : option jsstring)
         (excludedSubmatchers : option (list jsstring))
         (useRowsAndColumns : option bool),
    useRowsAndColumns <> Some false ->
    (includeUniversal <> Some false ->
     forall u, universalRegex = Some u -> valid_pattern u) ->
    exists subs,
      createPositionsSubmatchers groups_ includeUniversal universalRegex
                                 excludedSubmatchers useRowsAndColumns s
      = Some (subs, s)
      /\ Forall2
           (fun entry sm =>
              matching_option groups_
                (fun text_ =>
                   finds_any (snd entry) text_
                   || (if or_default true includeUniversal
                       then universal_test (or_default modu universalRegex)
                                           text_
                       else false)) sm)
           (filter (fun entry =>
                      negb (includes (or_default [] excludedSubmatchers)
                                     (fst entry)))
                   position_names)
           subs.
Proof.
  intros s groups_ includeUniversal universalRegex excludedSubmatchers
         useRowsAndColumns HR HU.
  destruct (@rows_and_columns s groups_ includeUniversal universalRegex
              excludedSubmatchers HU) as (more & E & F).
  exists more. split; [|exact F].
  destruct useRowsAndColumns as [[|]|]; [exact E | congruence | exact E].
Qed.

(** ** The position options by cells *)

(** [p] holds at some position of the text that remains. *)
Fixpoint scan_any (p : pos -> bool) (before rest : jsstring) : bool :=
  p (before, rest)
  || match rest with
     | [] => false
     | c :: rest' => scan_any p (c :: before) rest'
     end.

Lemma scan_any_ext (p q : pos -> bool) :
  (forall x, p x = q x) ->
  forall rest before, scan_any p before rest = scan_any q before rest.
Proof.
  intros E. induction rest as [|c rest IH]; intros before; simpl;
    rewrite E; [reflexivity|]. rewrite IH. reflexivity.
Qed.

Lemma search_scan (fl : flags) (r : pattern) :
  forall rest before,
    is_found (search fl r before rest)
    = scan_any (fun x => is_matched (m fl r x (fun y => Matched y)))
               before rest.
Proof.
  induction rest as [|c rest IH]; intros before; simpl.
  - pose proof (m_top_never_out_of_fuel fl r (before, [])) as T.
    destruct (m fl r _ _); [reflexivity | reflexivity | congruence].
  - pose proof (m_top_never_out_of_fuel fl r (before, c :: rest)) as T.
    destruct (m fl r _ _); [reflexivity | apply IH | congruence].
Qed.

(** The text at [x] begins with [cs], letter case ignored. *)
Definition begins (cs : jsstring) (x : pos) : bool :=
  match lit_match flags_i cs x with
  | Some _ => true
  | None => false
  end.

(** [a(?!b)] at [x]: the text begins with [a], and what follows [a] does
    not begin with [b]. *)
Definition begins_unless (a b : jsstring) (x : pos) : bool :=
  match lit_match flags_i a x with
  | Some y => negb (begins b y)
  | None => false
  end.

(** [.{n}] at [x], without the [s] flag: the position after [n] code
    units, none of them a line terminator. *)
Fixpoint dots (n : nat) (x : pos) : option pos :=
  match n with
  | O => Some x
  | S n' =>
      match snd x with
      | ch :: rest =>
          if is_line_terminator ch then None else dots n' (ch :: fst x, rest)
      | [] => None
      end
  end.

(** [(?:^|(?!end ).{4})Captain] at [x]: "Captain" at the start of the
    text, or after four code units of one line that are not "end ". *)
Definition captain_at (x : pos) : bool :=
  match fst x with
  | [] => begins (lit "Captain") x
  | _ :: _ => false
  end
  || (negb (begins (lit "end ") x)
      && match dots 4 x with
         | Some y => begins (lit "Captain") y
         | None => false
         end).

(** [col|row(?!other)] *)
Definition column_or_row (col row other text_ : jsstring) : bool :=
  occurs flags_i col text_ || scan_any (begins_unless row other) [] text_.

(** The sources of the six cells of the board, with what each one finds. *)
Definition cells : list (jsstring * (jsstring -> bool)) :=
  [ (lit "left column|top(?! right)|Friend Captain",
     fun text_ =>
       column_or_row (lit "left column") (lit "top") (lit " right") text_
       || occurs flags_i (lit "Friend Captain") text_);
    (lit "right column|top(?! left)|(?:^|(?!end ).{4})Captain",
     fun text_ =>
       column_or_row (lit "right column") (lit "top") (lit " left") text_
       || scan_any captain_at [] text_);
    (lit "left column|middle(?! right)",
     column_or_row (lit "left column") (lit "middle") (lit " right"));
    (lit "right column|middle(?! left)",
     column_or_row (lit "right column") (lit "middle") (lit " left"));
    (lit "left column|bottom(?! right)",
     column_or_row (lit "left column") (lit "bottom") (lit " right"));
    (lit "right column|bottom(?! left)",
     column_or_row (lit "right column") (lit "bottom") (lit " left")) ].

Lemma m_Dot (fl : flags) (x : pos) (k : pos -> mres) :
  m fl Dot x k
  = match snd x with
    | ch :: rest =>
        if dotAll fl || negb (is_line_terminator ch)
        then k (ch :: fst x, rest) else Failure
    | [] => Failure
    end.
Proof. reflexivity. Qed.

Lemma repeat_dots (fl : flags) (greedy : bool) (k : pos -> mres) :
  dotAll fl = false ->
  forall n fuel x,
    n < fuel ->
    repeat_matcher (m fl Dot) fuel n (Some n) greedy x k
    = match dots n x with
      | Some y => k y
      | None => Failure
      end.
Proof.
  intros D. induction n as [|n IH]; intros fuel x Hf;
    (destruct fuel as [|fuel]; [lia|]).
  - reflexivity.
  - cbn [repeat_matcher dots Nat.eqb negb andb Nat.pred option_map].
    rewrite m_Dot, D.
    destruct (snd x) as [|ch rest]; [reflexivity|]. cbn [orb].
    destruct (is_line_terminator ch); [reflexivity|]. cbn [negb].
    apply IH. lia.
Qed.

Lemma m_repeat_dots (fl : flags) (n : nat) (greedy : bool) (x : pos)
      (k : pos -> mres) :
  dotAll fl = false ->
  m fl (Repeat Dot n (Some n) greedy) x k
  = match dots n x with
    | Some y => k y
    | None => Failure
    end.
Proof.
  intros D. change (m fl (Repeat Dot n (Some n) greedy) x k)
    with (repeat_matcher (m fl Dot) (n + length (snd x) + 1) n (Some n)
                         greedy x k).
  apply repeat_dots; [exact D | lia].
Qed.

Lemma m_lookahead_not (fl : flags) (r : pattern) (x : pos) (k : pos -> mres) :
  m fl (Lookahead true r) x k
  = match m fl r x (fun y => Matched y) with
    | Matched _ => Failure
    | Failure => k x
    | OutOfFuel => OutOfFuel
    end.
Proof. reflexivity. Qed.

Lemma m_begins_unless (row other : jsstring) (x : pos) :
  is_matched (m flags_i (Seq (lit_pattern row)
                             (Lookahead true (lit_pattern other)))
                x (fun y => Matched y))
  = begins_unless row other x.
Proof.
  change (m flags_i (Seq (lit_pattern row)
                         (Lookahead true (lit_pattern other)))
            x (fun y => Matched y))
    with (m flags_i (lit_pattern row) x
            (fun y => m flags_i (Lookahead true (lit_pattern other)) y
                        (fun z => Matched z))).
  rewrite m_lit_pattern. unfold begins_unless, begins.
  destruct (lit_match flags_i row x) as [y|]; [|reflexivity].
  rewrite m_lookahead_not, m_lit_pattern.
  destruct (lit_match flags_i other y); reflexivity.
Qed.

Definition captain_pattern : pattern :=
  mk_seq (rev (map Char (lit "Captain"))
          ++ [ Group false
                 (Alt (Seq Empty Bol)
                      (Seq (Seq Empty
                                (Lookahead true (lit_pattern (lit "end "))))
                           (Repeat Dot 4 (Some 4) true))) ]).

Lemma m_captain (x : pos) :
  is_matched (m flags_i captain_pattern x (fun y => Matched y))
  = captain_at x.
Proof.
  unfold captain_pattern. rewrite m_chars.
  set (k := fun y : pos =>
              match lit_match flags_i (lit "Captain") y with
              | Some z => Matched z
              | None => Failure
              end).
  change (m flags_i (mk_seq [_]) x k)
    with (match match fst x with
                | [] => k x
                | _ :: _ => Failure
                end
          with
          | Failure =>
              m flags_i (Lookahead true (lit_pattern (lit "end "))) x
                (fun y => m flags_i (Repeat Dot 4 (Some 4) true) y k)
          | z => z
          end).
  rewrite m_lookahead_not, m_lit_pattern, m_repeat_dots by reflexivity.
  unfold captain_at, begins, k.
  destruct (fst x);
    destruct (lit_match flags_i (lit "Captain") x);
    destruct (lit_match flags_i (lit "end ") x);
    destruct (dots 4 x) as [y|];
    try destruct (lit_match flags_i (lit "Captain") y);
    reflexivity.
Qed.

Lemma test_of_parse (src : jsstring) (r : pattern) (text_ : jsstring) :
  parse src = Some r ->
  universal_test src text_ = is_found (search flags_i r [] text_).
Proof.
  intros E. unfold universal_test. rewrite new_RegExp_i, E.
  rewrite test_stateless by (split; reflexivity). reflexivity.
Qed.

Lemma found_column_or_row (col row other text_ : jsstring) :
  is_found (search flags_i
              (Alt (lit_pattern col)
                   (Seq (lit_pattern row)
                        (Lookahead true (lit_pattern other)))) [] text_)
  = column_or_row col row other text_.
Proof.
  rewrite search_Alt, search_lit_pattern, search_scan.
  unfold column_or_row, occurs. f_equal.
  apply scan_any_ext. intros x. apply m_begins_unless.
Qed.

Lemma plain_cell_finds (src col row other text_ : jsstring) :
  parse src
  = Some (Alt (lit_pattern col)
              (Seq (lit_pattern row) (Lookahead true (lit_pattern other)))) ->
  universal_test src text_ = column_or_row col row other text_.
Proof.
  intros E. rewrite (@test_of_parse src _ text_ E).
  apply found_column_or_row.
Qed.

Lemma friend_captain_finds (text_ : jsstring) :
  universal_test (lit "left column|top(?! right)|Friend Captain") text_
  = column_or_row (lit "left column") (lit "top") (lit " right") text_
    || occurs flags_i (lit "Friend Captain") text_.
Proof.
  assert (E : parse (lit "left column|top(?! right)|Friend Captain")
              = Some (Alt (lit_pattern (lit "left column"))
                          (Alt (Seq (lit_pattern (lit "top"))
                                    (Lookahead true
                                       (lit_pattern (lit " right"))))
                               (lit_pattern (lit "Friend Captain")))))
    by (vm_compute; reflexivity).
  rewrite (@test_of_parse _ _ text_ E).
  rewrite !search_Alt, !search_lit_pattern, search_scan.
  unfold column_or_row, occurs. rewrite orb_assoc. f_equal. f_equal.
  apply scan_any_ext. intros x. apply m_begins_unless.
Qed.

Lemma captain_finds (text_ : jsstring) :
  universal_test (lit "right column|top(?! left)|(?:^|(?!end ).{4})Captain")
                 text_
  = column_or_row (lit "right column") (lit "top") (lit " left") text_
    || scan_any captain_at [] text_.
Proof.
  assert (E : parse (lit "right column|top(?! left)|(?:^|(?!end ).{4})Captain")
              = Some (Alt (lit_pattern (lit "right column"))
                          (Alt (Seq (lit_pattern (lit "top"))
                                    (Lookahead true
                                       (lit_pattern (lit " left"))))
                               captain_pattern)))
    by (vm_compute; reflexivity).
  rewrite (@test_of_parse _ _ text_ E).
  rewrite !search_Alt, search_lit_pattern, !search_scan.
  unfold column_or_row, occurs. rewrite orb_assoc. f_equal; [f_equal|].
  - apply scan_any_ext. intros x. apply m_begins_unless.
  - apply scan_any_ext. intros x. apply m_captain.
Qed.

(** The source ends outside every group, where [|] starts a new
    alternative of the whole pattern. *)
Definition top_level (src : jsstring) : bool :=
  match run pstart src with
  | Some (mkP (MNormal _) [mkFrame GNonCapture _ _]) => true
  | _ => false
  end.

Lemma top_level_run (src : jsstring) :
  top_level src = true ->
  exists l alts terms,
    run pstart src
    = Some (mkP (MNormal l) [mkFrame GNonCapture alts terms]).
Proof.
  unfold top_level. destruct (run pstart src) as [[mode fs]|];
    [|discriminate].
  destruct mode; try discriminate.
  destruct fs as [|[k a t] [|f fs]]; try discriminate;
    destruct k; try discriminate.
  intros _. eauto.
Qed.

Lemma produces_bind2 (E1 E2 : Type) (Rel1 : E1 -> submatcher -> Prop)
      (Rel2 : E2 -> submatcher -> Prop) (s : module_state)
      (c : M (list submatcher)) (k : list submatcher -> M (list submatcher))
      (result : list submatcher) (e1 : list E1) (e2 : list E2) :
  produces Rel1 s c result e1 ->
  (forall result', produces Rel2 s (k result') result' e2) ->
  exists m1 m2,
    bind c k s = Some (result ++ m1 ++ m2, s)
    /\ Forall2 Rel1 e1 m1 /\ Forall2 Rel2 e2 m2.
Proof.
  intros (m1 & E1' & F1) K. destruct (K (result ++ m1)) as (m2 & E2' & F2).
  exists m1, m2. unfold bind. rewrite E1', E2', app_assoc. auto.
Qed.

Section Cells.
Variables (s : module_state) (groups_ : list nat).
Variables (includeUniversal : option bool) (universalRegex : option jsstring).
Hypothesis universal_ok :
  includeUniversal <> Some false ->
  forall u, universalRegex = Some u -> valid_pattern u.

Let inc : bool := or_default true includeUniversal.
Let U : jsstring := or_default modu universalRegex.

Let RelCell (cell : jsstring * (jsstring -> bool)) (sm : submatcher) : Prop :=
  matching_option groups_
    (fun text_ => snd cell text_
                  || (if inc then universal_test U text_ else false)) sm
  /\ exists R,
       regex sm = Some R
       /\ original_source R = fst cell ++ (if inc then lit "|" ++ U else []).

Lemma cell_option (src : jsstring) (finds : jsstring -> bool)
      result description_ cssClass :
  top_level src = true ->
  (forall text_, universal_test src text_ = finds text_) ->
  produces RelCell s
           (push_option result description_ src inc U cssClass groups_)
           result [(src, finds)].
Proof.
  intros T F. destruct (top_level_run _ T) as (l & alts & terms & HP).
  eapply produces_push.
  - exact HP.
  - intros Ei.
    apply (@universal_valid includeUniversal universalRegex modu);
      [apply valid_modu | exact universal_ok | exact Ei].
  - intros sm R Ht Hg Hr Hs Htest. split.
    + split; [exact Ht|]. split; [exact Hg|]. exists R.
      split; [exact Hr|]. intros text_. rewrite Htest, F. reflexivity.
    + exists R. split; [exact Hr | exact Hs].
Qed.

Lemma cells_produced (result : list submatcher) :
  produces RelCell s
    (result <- push_option result
                 (Some [0xCE5C; 0xAD6C; 0x20; 0xC120; 0xC7A5]%N)
                 (lit "left column|top(?! right)|Friend Captain")
                 inc U (lit "min-width-6") groups_ ;;
     result <- push_option result
                 (Some [0xC120; 0xC7A5]%N)
                 (lit "right column|top(?! left)|(?:^|(?!end ).{4})Captain")
                 inc U (lit "min-width-6") groups_ ;;
     result <- push_option result
                 (Some [0xC911; 0xB2E8; 0x20; 0xC88C; 0xCE21]%N)
                 (lit "left column|middle(?! right)")
                 inc U (lit "min-width-6") groups_ ;;
     result <- push_option result
                 (Some [0xC911; 0xB2E8; 0x20; 0xC6B0; 0xCE21]%N)
                 (lit "right column|middle(?! left)")
                 inc U (lit "min-width-6") groups_ ;;
     result <- push_option result
                 (Some [0xD558; 0xB2E8; 0x20; 0xC88C; 0xCE21]%N)
                 (lit "left column|bottom(?! right)")
                 inc U (lit "min-width-6") groups_ ;;
     push_option result
                 (Some [0xD558; 0xB2E8; 0x20; 0xC6B0; 0xCE21]%N)
                 (lit "right column|bottom(?! left)")
                 inc U (lit "min-width-6") groups_)
    result cells.
Proof.
  change cells
    with ([nth 0 cells (lit "", fun _ => false)]
          ++ [nth 1 cells (lit "", fun _ => false)]
          ++ [nth 2 cells (lit "", fun _ => false)]
          ++ [nth 3 cells (lit "", fun _ => false)]
          ++ [nth 4 cells (lit "", fun _ => false)]
          ++ [nth 5 cells (lit "", fun _ => false)]).
  cbn [nth cells].
  apply produces_bind;
    [apply cell_option;
     [vm_compute; reflexivity | apply friend_captain_finds] | intros r1].
  apply produces_bind;
    [apply cell_option;
     [vm_compute; reflexivity | apply captain_finds] | intros r2].
  apply produces_bind;
    [apply cell_option;
     [vm_compute; reflexivity
     | intros text_; apply plain_cell_finds; vm_compute; reflexivity]
    | intros r3].
  apply produces_bind;
    [apply cell_option;
     [vm_compute; reflexivity
     | intros text_; apply plain_cell_finds; vm_compute; reflexivity]
    | intros r4].
  apply produces_bind;
    [apply cell_option;
     [vm_compute; reflexivity
     | intros text_; apply plain_cell_finds; vm_compute; reflexivity]
    | intros r5].
  apply cell_option;
    [vm_compute; reflexivity
    | intros text_; apply plain_cell_finds; vm_compute; reflexivity].
Qed.
End Cells.

(** By cells ([useRowsAndColumns] false), the generator returns the six
    cells of the board, which [excludedSubmatchers] cannot leave out,
    followed by those of Adjacent, Selected and Self that it does not
    name.  A cell finds its column ("left column" or "right column"), or
    its row ("top", "middle", "bottom") unless the other side follows it;
    the first cell also finds "Friend Captain", and the second "Captain"
    at the start of the text or after four code units of one line that
    are not "end "; letter case is ignored.  Each option also finds what
    the universal pattern finds when that is included. *)
Theorem positions_by_cells :
  forall (s : module_state) (groups_ : list nat)
         (includeUniversal : option bool) (universalRegex : option jsstring)
         (excludedSubmatchers : option (list jsstring)),
    (includeUniversal <> Some false ->
     forall u, universalRegex = Some u -> valid_pattern u) ->
    exists board others,
      createPositionsSubmatchers groups_ includeUniversal universalRegex
                                 excludedSubmatchers (Some false) s
      = Some (board ++ others, s)
      /\ Forall2
           (fun cell sm =>
              matching_option groups_
                (fun text_ =>
                   snd cell text_
                   || (if or_default true includeUniversal
                       then universal_test (or_default modu universalRegex)
                                           text_
                       else false)) sm
              /\ exists R,
                   regex sm = Some R
                   /\ original_source R
                      = fst cell
                        ++ (if or_default true includeUniversal
                            then lit "|" ++ or_default modu universalRegex
                            else []))
           cells board
      /\ Forall2
           (fun entry sm =>
              matching_option groups_
                (fun text_ =>
                   finds_any (snd entry) text_
                   || (if or_default true includeUniversal
                       then universal_test (or_default modu universalRegex)
                                           text_
                       else false)) sm)
           (filter (fun entry =>
                      negb (includes (or_default [] excludedSubmatchers)
                                     (fst entry)))
                   other_names)
           others.
Proof.
  intros s groups_ includeUniversal universalRegex excludedSubmatchers HU.
  destruct (@produces_bind2 _ _ _ _ _ _ _ _ _ _
              (@cells_produced s groups_ includeUniversal universalRegex
                               HU [])
              (@last_three s groups_ includeUniversal universalRegex
                           excludedSubmatchers HU))
    as (board & others & E & Fb & Fo).
  exists board, others. split; [exact E|]. split; [exact Fb | exact Fo].
Qed.

(** ** An empty universal pattern *)

Lemma universal_test_empty (text_ : jsstring) : universal_test [] text_ = true.
Proof.
  unfold universal_test. rewrite new_RegExp_i.
  change (parse []) with (Some Empty). cbv beta iota.
  rewrite test_stateless by (split; reflexivity).
  destruct text_; reflexivity.
Qed.

Lemma valid_empty : valid_pattern [].
Proof. vm_compute. discriminate. Qed.

Lemma Forall2_Forall_r (A B : Type) (Q : A -> B -> Prop) (P : B -> Prop)
      (l : list A) (bs : list B) :
  (forall a b, Q a b -> P b) -> Forall2 Q l bs -> Forall P bs.
Proof.
  intros H F. induction F as [|a b l bs Hab _ IH]; constructor;
    [eapply H; exact Hab | exact IH].
Qed.

(** An option whose RegExp finds every text. *)
Definition finds_everything (sm : submatcher) : Prop :=
  exists R, regex sm = Some R /\ forall text_, fst (test R text_) = true.

Lemma generated_with_empty groups_ P b d sm :
  generated_option groups_ true [] P b d sm -> finds_everything sm.
Proof.
  intros (_ & _ & _ & R & ER & _ & _ & T). exists R. split; [exact ER|].
  intros text_. rewrite T, universal_test_empty. apply orb_true_r.
Qed.

(** With the universal alternative included and the empty string as the
    universal pattern, the source of every option ends in [|]: each of
    the options of the three tables finds every text. *)
Theorem empty_universal_pattern_finds_everything :
  forall (s : module_state) (orbs : list jsstring) (groups_ : list nat)
         (includeUniversal : option bool),
    includeUniversal <> Some false ->
    Forall plain (types s) ->
    Forall plain (classes s) ->
    Forall plain orbs ->
    (exists subs,
        createTypesSubmatchers groups_ includeUniversal (Some []) s
        = Some (subs, s)
        /\ length subs = length (types s)
        /\ Forall finds_everything subs)
    /\ (exists subs,
           createClassesSubmatchers groups_ includeUniversal (Some []) s
           = Some (subs, s)
           /\ length subs = length (classes s)
           /\ Forall finds_everything subs)
    /\ (exists subs,
           createOrbsSubmatchers orbs groups_ includeUniversal (Some []) s
           = Some (subs, s)
           /\ length subs = length orbs
           /\ Forall finds_everything subs).
Proof.
  intros s orbs groups_ includeUniversal HI Pt Pc Po.
  assert (HU : includeUniversal <> Some false ->
               forall u, Some [] = Some u -> valid_pattern u)
    by (intros _ u E; injection E as <-; apply valid_empty).
  assert (Ei : or_default true includeUniversal = true)
    by (destruct includeUniversal as [[|]|]; [reflexivity | congruence
                                              | reflexivity]).
  split; [|split].
  - destruct (@types_generated s groups_ includeUniversal (Some []) HU Pt)
      as (subs & E & F).
    exists subs. split; [exact E|]. split.
    + symmetry. eapply Forall2_length, F.
    + rewrite Ei in F.
      eapply Forall2_Forall_r; [|exact F].
      intros id sm G. eapply generated_with_empty, G.
  - destruct (@classes_generated s groups_ includeUniversal (Some []) HU Pc)
      as (subs & E & F).
    exists subs. split; [exact E|]. split.
    + symmetry. eapply Forall2_length, F.
    + rewrite Ei in F.
      eapply Forall2_Forall_r; [|exact F].
      intros id sm G. eapply generated_with_empty, G.
  - destruct (@orbs_generated s groups_ includeUniversal (Some []) HU
                              orbs Po)
      as (subs & E & F).
    exists subs. split; [exact E|]. split.
    + symmetry. eapply Forall2_length, F.
    + rewrite Ei in F.
      eapply Forall2_Forall_r; [|exact F].
      intros id sm G. eapply generated_with_empty, G.
Qed.

(** ** The universal submatcher *)

Lemma all_or_type_finds (text_ : jsstring) :
  universal_test (lit "all|type") text_
  = occurs flags_i (lit "all") text_ || occurs flags_i (lit "type") text_.
Proof.
  unfold universal_test. rewrite new_RegExp_i.
  change (parse (lit "all|type"))
    with (Some (Alt (lit_pattern (lit "all")) (lit_pattern (lit "type")))).
  cbv beta iota.
  rewrite test_stateless by (split; reflexivity).
  cbn [fst re_flags compiled].
  rewrite search_Alt, !search_lit_pattern. reflexivity.
Qed.

(** [createUniversalSubmatcher] returns one option without css classes.
    Called without a pattern, or with the empty string, it looks for "all"
    or "type" in any letter case: unlike the other generators it replaces
    an empty pattern by the default. *)
Theorem universal_submatcher_default :
  forall (s : module_state) (groups_ : list nat),
  exists sm R,
    createUniversalSubmatcher groups_ None s = Some ([sm], s)
    /\ createUniversalSubmatcher groups_ (Some []) s = Some ([sm], s)
    /\ type sm = option_
    /\ groups sm = Some groups_
    /\ cssClasses sm = None
    /\ radioGroup sm = None
    /\ regex sm = Some R
    /\ source R = lit "all|type"
    /\ forall text_,
         fst (test R text_)
         = occurs flags_i (lit "all") text_
           || occurs flags_i (lit "type") text_.
Proof.
  intros s groups_.
  assert (E : new_RegExp (lit "all|type") (lit "i")
              = Some (mkRegExp (lit "all|type") flags_i
                               (Alt (lit_pattern (lit "all"))
                                    (lit_pattern (lit "type"))) 0))
    by (vm_compute; reflexivity).
  do 2 eexists. split; [|split].
  - unfold createUniversalSubmatcher. cbn [or_default].
    change (match lit "all|type" with
            | [] => lit "all|type"
            | _ :: _ => lit "all|type"
            end) with (lit "all|type").
    rewrite bind_throwing, E. reflexivity.
  - unfold createUniversalSubmatcher. cbn [or_default].
    rewrite bind_throwing, E. reflexivity.
  - repeat split. intros text_.
    pose proof (all_or_type_finds text_) as T.
    unfold universal_test in T. rewrite E in T. exact T.
Qed.

(** ** What sorting leaves alone *)

(** Sorting changes the order of the rule names inside a group and
    nothing else: the entries found by [lookup], the lines on
    [console.error], the targets and their order, and the groups of each
    target and their order are the same with and without it. *)
Theorem sorting_changes_only_the_order_of_names :
  forall (inc : bool) (matchers : obj (list matcher)),
    (forall t g n,
        lookup (build inc true matchers) t g n
        = lookup (build inc false matchers) t g n)
    /\ console_error (build inc true matchers)
       = console_error (build inc false matchers)
    /\ map fst (window_matchers (build inc true matchers))
       = map fst (window_matchers (build inc false matchers))
    /\ (forall t,
           option_map (map fst)
                      (get (window_matchers (build inc true matchers)) t)
           = option_map (map fst)
                        (get (window_matchers (build inc false matchers)) t)).
Proof.
  intros inc matchers. split; [|split; [|split]].
  - intros t g n. rewrite !lookup_build. reflexivity.
  - rewrite !console_build. reflexivity.
  - rewrite !targets_build. reflexivity.
  - intros t. rewrite !build_registered. cbn [window_matchers].
    rewrite get_sort_groups by apply wf_registered.
    destruct (get (window_matchers (registered inc matchers)) t) as [ot|];
      [|reflexivity].
    simpl. rewrite map_fst_map_values. reflexivity.
Qed.

(** ** The order of the names after sorting *)

(** [a] and [b] are array indices, and [a] is not the greater one. *)
Definition index_le (a b : jsstring) : Prop :=
  exists x y,
    array_index a = Some x /\ array_index b = Some y /\ (x <= y)%N.

Lemma index_ltb_asym (a b : jsstring) :
  index_ltb a b = true -> index_ltb b a = false.
Proof.
  unfold index_ltb. destruct (array_index a), (array_index b);
    try discriminate.
  rewrite N.ltb_lt. intros H. apply N.ltb_ge. lia.
Qed.

Lemma StronglySorted_filter (A : Type) (R : A -> A -> Prop) (p : A -> bool)
      (l : list A) :
  StronglySorted R l -> StronglySorted R (filter p l).
Proof.
  induction 1 as [|a l S IH F]; simpl; [constructor|].
  destruct (p a); [|exact IH]. constructor; [exact IH|].
  rewrite Forall_forall in *. intros x Hin. apply filter_In in Hin.
  apply F, Hin.
Qed.

Lemma Sorted_among (A : Type) (R R' : A -> A -> Prop) (P : A -> Prop)
      (l : list A) :
  (forall x y, P x -> P y -> R x y -> R' x y) ->
  Forall P l -> Sorted R l -> Sorted R' l.
Proof.
  intros H F S. induction S as [|a l S IH Hd]; [constructor|].
  inversion F as [|? ? Pa Fl]; subst. constructor; [apply IH, Fl|].
  destruct Hd as [|b l Rab]; constructor.
  inversion Fl; subst. apply H; assumption.
Qed.

Lemma sorted_indices (l : list jsstring) :
  Forall (fun k => is_array_index k = true) l ->
  Forall (fun k => is_array_index k = true) (sort_by index_ltb l)
  /\ Sorted index_le (sort_by index_ltb l).
Proof.
  intros F.
  assert (F' : Forall (fun k => is_array_index k = true)
                      (sort_by index_ltb l)).
  { rewrite Forall_forall in *. intros k Hin. apply F.
    eapply Permutation_in; [apply sort_by_perm | exact Hin]. }
  split; [exact F'|].
  eapply Sorted_among;
    [|exact F' | apply (sort_by_sorted index_ltb index_ltb_asym)].
  intros a b Pa Pb H. unfold is_array_index, index_ltb, index_le in *.
  destruct (array_index a) as [x|]; [|discriminate].
  destruct (array_index b) as [y|]; [|discriminate].
  exists x, y. repeat split. apply N.ltb_ge, H.
Qed.

(** After [sortObj], the names that are array indices enumerate first, in
    ascending numeric order, and the other names after them, in ascending
    order of their code units; they are the names of the object that was
    sorted. *)
Theorem sorted_names_enumerate_indices_first :
  forall o : obj matcher,
    NoDup (map fst o) ->
    exists indices others,
      keys (sortObj o) = indices ++ others
      /\ Forall (fun k => is_array_index k = true) indices
      /\ Sorted index_le indices
      /\ Forall (fun k => is_array_index k = false) others
      /\ StronglySorted str_lt others
      /\ Permutation (indices ++ others) (map fst o).
Proof.
  intros o N.
  set (L := array_sort (keys o)).
  assert (EL : map fst (sortObj o) = L) by (apply map_fst_sortObj, N).
  destruct (@sorted_indices (filter is_array_index L)) as [Fi Si].
  { apply Forall_forall. intros k Hin. apply filter_In in Hin. apply Hin. }
  exists (sort_by index_ltb (filter is_array_index L)),
         (filter (fun k => negb (is_array_index k)) L).
  split; [unfold keys; rewrite EL; reflexivity|].
  split; [exact Fi|]. split; [exact Si|]. split; [|split].
  - apply Forall_forall. intros k Hin. apply filter_In in Hin.
    destruct Hin as [_ H]. destruct (is_array_index k);
      [discriminate | reflexivity].
  - apply StronglySorted_filter, array_sort_ascending, keys_NoDup, N.
  - eapply Permutation_trans;
      [apply Permutation_app_tail, sort_by_perm|].
    eapply Permutation_trans; [apply filter_partition_perm|].
    unfold L. eapply Permutation_trans; [apply array_sort_perm|].
    apply keys_perm.
Qed.
(** ** The generators as functions of their arguments *)

(** From two states of the module that [P] relates, the call [c] returns
    the same value and leaves each state as it was, or it is covered from
    neither. *)
Definition agree (A : Type) (P : module_state -> module_state -> Prop)
           (c : M A) : Prop :=
  forall s1 s2,
    P s1 s2 ->
    match c s1, c s2 with
    | Some (a1, s1'), Some (a2, s2') => a1 = a2 /\ s1' = s1 /\ s2' = s2
    | None, None => True
    | _, _ => False
    end.

Section Agree.
Variable P : module_state -> module_state -> Prop.

Lemma agree_ret (A : Type) (a : A) : agree P (ret a).
Proof. intros s1 s2 _. simpl. auto. Qed.

Lemma agree_read (A : Type) (f : module_state -> A) :
  (forall s1 s2, P s1 s2 -> f s1 = f s2) -> agree P (read f).
Proof. intros H s1 s2 HP. simpl. auto. Qed.

Lemma agree_throwing (A : Type) (o : option A) : agree P (throwing o).
Proof. intros s1 s2 _. unfold throwing. destruct o; auto. Qed.

Lemma agree_bind (A B : Type) (c : M A) (k : A -> M B) :
  agree P c -> (forall a, agree P (k a)) -> agree P (bind c k).
Proof.
  intros Hc Hk s1 s2 HP. unfold bind. specialize (Hc s1 s2 HP).
  destruct (c s1) as [[a1 s1']|], (c s2) as [[a2 s2']|];
    try contradiction; [|exact I].
  destruct Hc as (-> & -> & ->). apply Hk, HP.
Qed.

Lemma agree_for_of (A B : Type) (body : B -> A -> M B) (l : list A) :
  (forall acc x, agree P (body acc x)) ->
  forall acc, agree P (for_of l acc body).
Proof.
  intros Hb. induction l as [|x l IH]; intros acc; simpl.
  - apply agree_ret.
  - apply agree_bind; [apply Hb | exact IH].
Qed.

Lemma agree_push_option result description_ base includeUniversal
      universalRegex cssClass groups_ :
  agree P (push_option result description_ base includeUniversal
                       universalRegex cssClass groups_).
Proof.
  unfold push_option.
  apply agree_bind; [apply agree_throwing | intros re; apply agree_ret].
Qed.
End Agree.

Ltac agree_pushes :=
  repeat first
    [ apply agree_push_option
    | apply agree_ret
    | match goal with
      | |- agree _ (if ?b then _ else _) => destruct b
      | |- agree _ (bind _ _) => apply agree_bind; [|intros ?]
      | |- agree _ (for_of _ _ _) => apply agree_for_of; intros ? [? ?]
      end ].

Lemma createTypesSubmatchers_agree groups_ includeUniversal universalRegex :
  agree (fun s1 s2 => types s2 = types s1 /\ typeKoMap s2 = typeKoMap s1)
        (createTypesSubmatchers groups_ includeUniversal universalRegex).
Proof.
  unfold createTypesSubmatchers. cbv zeta.
  apply agree_bind;
    [apply agree_read; intros s1 s2 [E _]; symmetry; exact E | intros ts].
  apply agree_for_of. intros acc [i id].
  apply agree_bind;
    [apply agree_read; intros s1 s2 [_ E]; symmetry; exact E | intros km].
  apply agree_bind; [apply agree_throwing | intros re; apply agree_ret].
Qed.

Lemma createClassesSubmatchers_agree groups_ includeUniversal universalRegex :
  agree (fun s1 s2 => classes s2 = classes s1 /\ classKoMap s2 = classKoMap s1)
        (createClassesSubmatchers groups_ includeUniversal universalRegex).
Proof.
  unfold createClassesSubmatchers. cbv zeta.
  apply agree_bind;
    [apply agree_read; intros s1 s2 [E _]; symmetry; exact E | intros ts].
  apply agree_for_of. intros acc [i id].
  apply agree_bind;
    [apply agree_read; intros s1 s2 [_ E]; symmetry; exact E | intros km].
  apply agree_bind; [apply agree_throwing | intros re; apply agree_ret].
Qed.

Lemma createOrbsSubmatchers_agree orbs groups_ includeUniversal
      universalRegex :
  agree (fun s1 s2 => orbKoMap s2 = orbKoMap s1)
        (createOrbsSubmatchers orbs groups_ includeUniversal universalRegex).
Proof.
  unfold createOrbsSubmatchers. cbv zeta.
  apply agree_for_of. intros acc [i id].
  apply agree_bind;
    [apply agree_read; intros s1 s2 E; symmetry; exact E | intros km].
  apply agree_bind; [apply agree_throwing | intros re; apply agree_ret].
Qed.

Lemma createPositionsSubmatchers_agree groups_ includeUniversal universalRegex
      excludedSubmatchers useRowsAndColumns :
  agree (fun _ _ => True)
        (createPositionsSubmatchers groups_ includeUniversal universalRegex
                                    excludedSubmatchers useRowsAndColumns).
Proof.
  unfold createPositionsSubmatchers. cbv zeta. agree_pushes.
Qed.

Lemma createUniversalSubmatcher_agree groups_ universalRegex :
  agree (fun _ _ => True) (createUniversalSubmatcher groups_ universalRegex).
Proof.
  unfold createUniversalSubmatcher. cbv zeta.
  apply agree_bind; [apply agree_throwing | intros re; apply agree_ret].
Qed.

Lemma exec_stateless (R : regexp) (S : jsstring) :
  stateless R -> snd (exec R S) = R.
Proof.
  intros [G Y]. unfold exec. rewrite G, Y. simpl.
  destruct (search _ _ _ _); reflexivity.
Qed.

(** Using the RegExp of the option, with [test] or with [exec], leaves the
    RegExp as it was. *)
Definition untouched_by_use (sm : submatcher) : Prop :=
  forall R text_,
    regex sm = Some R ->
    snd (test R text_) = R /\ snd (exec R text_) = R.

Lemma keeps_no_state_untouched (sm : submatcher) :
  keeps_no_state sm -> untouched_by_use sm.
Proof.
  intros K R text_ HR. split.
  - rewrite (test_stateless text_ (K R HR)). reflexivity.
  - apply exec_stateless, K, HR.
Qed.

(** A call that returns from [s1] returns the same list from every state
    that [P] relates to [s1], leaves both states as they were, and the
    RegExps of the list keep no state. *)
Lemma same_from_both (P : module_state -> module_state -> Prop)
      (c : M (list submatcher)) (s1 s2 : module_state)
      (subs : list submatcher) :
  agree P c ->
  returns_pure (Forall keeps_no_state) c ->
  P s1 s2 ->
  c s1 = Some (subs, s1) ->
  c s1 = Some (subs, s1)
  /\ c s2 = Some (subs, s2)
  /\ Forall untouched_by_use subs.
Proof.
  intros A K HP E. specialize (A s1 s2 HP). specialize (K s1).
  rewrite E in A, K.
  split; [exact E|]. split.
  - destruct (c s2) as [[a2 s2']|]; [|contradiction].
    destruct A as (<- & _ & ->). reflexivity.
  - destruct K as [_ K]. revert K. apply Forall_impl.
    exact keeps_no_state_untouched.
Qed.

Lemma universal_returns (s : module_state) (groups_ : list nat)
      (universalRegex : option jsstring) :
  (forall u, universalRegex = Some u -> valid_pattern u) ->
  exists subs,
    createUniversalSubmatcher groups_ universalRegex s = Some (subs, s).
Proof.
  intros V. unfold createUniversalSubmatcher. cbv zeta.
  rewrite bind_throwing, new_RegExp_i.
  destruct universalRegex as [[|c u]|]; cbn [or_default].
  - change (parse (lit "all|type"))
      with (Some (Alt (lit_pattern (lit "all")) (lit_pattern (lit "type")))).
    eexists; reflexivity.
  - specialize (V (c :: u) eq_refl). unfold valid_pattern in V.
    destruct (parse (c :: u)); [|congruence].
    eexists; reflexivity.
  - change (match lit "all|type" with
            | [] => lit "all|type"
            | _ :: _ => lit "all|type"
            end) with (lit "all|type").
    change (parse (lit "all|type"))
      with (Some (Alt (lit_pattern (lit "all")) (lit_pattern (lit "type")))).
    eexists; reflexivity.
Qed.

Lemma positions_return (s : module_state) (groups_ : list nat)
      (includeUniversal : option bool) (universalRegex : option jsstring)
      (excludedSubmatchers : option (list jsstring))
      (useRowsAndColumns : option bool) :
  (includeUniversal <> Some false ->
   forall u, universalRegex = Some u -> valid_pattern u) ->
  exists subs,
    createPositionsSubmatchers groups_ includeUniversal universalRegex
                               excludedSubmatchers useRowsAndColumns s
    = Some (subs, s).
Proof.
  intros HU.
  assert (Rows : exists subs,
             createPositionsSubmatchers groups_ includeUniversal
               universalRegex excludedSubmatchers (Some true) s
             = Some (subs, s)).
  { destruct (@rows_and_columns s groups_ includeUniversal universalRegex
                excludedSubmatchers HU) as (more & E & _).
    exists more. exact E. }
  destruct useRowsAndColumns as [[|]|]; [exact Rows | | exact Rows].
  destruct (@produces_bind2 _ _ _ _ _ _ _ _ _ _
              (@cells_produced s groups_ includeUniversal universalRegex
                               HU [])
              (@last_three s groups_ includeUniversal universalRegex
                           excludedSubmatchers HU))
    as (board & others & E & _ & _).
  exists (board ++ others). exact E.
Qed.

(** C9. Each of the five generators returns, for ids that are free of
    pattern syntax and a universal pattern that parses, and its result is
    a function of its arguments and of the tables it reads: the types and
    their descriptions for the types, the classes and theirs for the
    classes, the descriptions of the orbs for the orbs, and nothing of the
    module for the positions and the universal submatcher.  From two
    states of the module that agree on those tables, the call returns the
    same list of submatchers and leaves each state as it was; the RegExps
    of the list are neither global nor sticky, so that using them with
    [test] or [exec] leaves them as they were. *)
Theorem generators_are_pure :
  forall (s1 s2 : module_state) (orbs : list jsstring) (groups_ : list nat)
         (includeUniversal : option bool) (universalRegex : option jsstring)
         (excludedSubmatchers : option (list jsstring))
         (useRowsAndColumns : option bool),
    (includeUniversal <> Some false ->
     forall u, universalRegex = Some u -> valid_pattern u) ->
    (Forall plain (types s1) ->
     types s2 = types s1 -> typeKoMap s2 = typeKoMap s1 ->
     exists subs,
       createTypesSubmatchers groups_ includeUniversal universalRegex s1
       = Some (subs, s1)
       /\ createTypesSubmatchers groups_ includeUniversal universalRegex s2
          = Some (subs, s2)
       /\ Forall untouched_by_use subs)
    /\ (Forall plain (classes s1) ->
        classes s2 = classes s1 -> classKoMap s2 = classKoMap s1 ->
        exists subs,
          createClassesSubmatchers groups_ includeUniversal universalRegex s1
          = Some (subs, s1)
          /\ createClassesSubmatchers groups_ includeUniversal universalRegex
                                      s2
             = Some (subs, s2)
          /\ Forall untouched_by_use subs)
    /\ (Forall plain orbs ->
        orbKoMap s2 = orbKoMap s1 ->
        exists subs,
          createOrbsSubmatchers orbs groups_ includeUniversal universalRegex
                                s1
          = Some (subs, s1)
          /\ createOrbsSubmatchers orbs groups_ includeUniversal
                                   universalRegex s2
             = Some (subs, s2)
          /\ Forall untouched_by_use subs)
    /\ (exists subs,
           createPositionsSubmatchers groups_ includeUniversal universalRegex
                                      excludedSubmatchers useRowsAndColumns s1
           = Some (subs, s1)
           /\ createPositionsSubmatchers groups_ includeUniversal
                                         universalRegex excludedSubmatchers
                                         useRowsAndColumns s2
              = Some (subs, s2)
           /\ Forall untouched_by_use subs)
    /\ ((forall u, universalRegex = Some u -> valid_pattern u) ->
        exists subs,
          createUniversalSubmatcher groups_ universalRegex s1
          = Some (subs, s1)
          /\ createUniversalSubmatcher groups_ universalRegex s2
             = Some (subs, s2)
          /\ Forall untouched_by_use subs).
Proof.
  intros s1 s2 orbs groups_ includeUniversal universalRegex
         excludedSubmatchers useRowsAndColumns HU.
  split; [|split; [|split; [|split]]].
  - intros Pt Et Em.
    destruct (types_generated s1 groups_ HU Pt) as (subs & E & _).
    exists subs.
    apply (@same_from_both _ _ s1 s2 subs
             (@createTypesSubmatchers_agree groups_ includeUniversal
                                            universalRegex)
             (@createTypesSubmatchers_pure groups_ includeUniversal
                                           universalRegex)
             (conj Et Em) E).
  - intros Pc Ec Em.
    destruct (classes_generated s1 groups_ HU Pc) as (subs & E & _).
    exists subs.
    apply (@same_from_both _ _ s1 s2 subs
             (@createClassesSubmatchers_agree groups_ includeUniversal
                                              universalRegex)
             (@createClassesSubmatchers_pure groups_ includeUniversal
                                             universalRegex)
             (conj Ec Em) E).
  - intros Po Em.
    destruct (orbs_generated s1 groups_ HU Po) as (subs & E & _).
    exists subs.
    apply (@same_from_both _ _ s1 s2 subs
             (@createOrbsSubmatchers_agree orbs groups_ includeUniversal
                                           universalRegex)
             (@createOrbsSubmatchers_pure orbs groups_ includeUniversal
                                          universalRegex)
             Em E).
  - destruct (@positions_return s1 groups_ includeUniversal universalRegex
                excludedSubmatchers useRowsAndColumns HU) as (subs & E).
    exists subs.
    apply (@same_from_both _ _ s1 s2 subs
             (@createPositionsSubmatchers_agree groups_ includeUniversal
                universalRegex excludedSubmatchers useRowsAndColumns)
             (@createPositionsSubmatchers_pure groups_ includeUniversal
                universalRegex excludedSubmatchers useRowsAndColumns)
             I E).
  - intros V.
    destruct (@universal_returns s1 groups_ universalRegex V) as (subs & E).
    exists subs.
    apply (@same_from_both _ _ s1 s2 subs
             (@createUniversalSubmatcher_agree groups_ universalRegex)
             (@createUniversalSubmatcher_pure groups_ universalRegex)
             I E).
Qed.

End Engine.

(** * Concrete runs

    The runs below use texts in ASCII only, for which the case table of the
    platform is never consulted; they take the table that leaves every code
    unit as it is. *)

Definition ascii_case_table : code_unit -> code_unit := fun c => c.

(** A matcher of the rule table with the given name, targets and pattern. *)
Definition rule (name_ : string) (targets_ : list jsstring) (src : string)
  : matcher := {|
    name := lit name_;
    targets := targets_;
    matcher_regex := regexp_literal src "i";
    submatchers := None;
    include := None;
    target := None;
    group := None
  |}.

(** Two matchers named "Heals" for the target "support" in one group, a
    legacy one between them, and one with the placeholder in its name. *)
Definition heals : matcher := rule "Heals" [lit "support"] "heals".
Definition old_heals : matcher := rule "Old Heals" [lit "support"] "old".
Definition recovers : matcher := rule "Heals" [lit "support"] "recovers".
Definition boosts : matcher :=
  rule "Boosts %target%" [lit "captain"; lit "superSpecial"] "boosts".

Definition heals_table : obj (list matcher) :=
  obj_literal [ (lit "Healing", [ heals; old_heals; recovers; boosts ]) ].

Lemma last_registration_wins_witness :
  (exists e,
      lookup (build ascii_case_table false true heals_table)
             (lit "support") (lit "Healing") (lit "Heals")
      = Some e
      /\ name e = lit "Heals"
      /\ target e = Some (lit "support")
      /\ group e = Some (lit "Healing")
      /\ matcher_regex e = regexp_literal "recovers" "i"
      /\ submatchers e = None)
  /\ In (lit "Duplicate matcher " ++ [34%N] ++ lit "Heals" ++ [34%N])
        (console_error (build ascii_case_table false true heals_table)).
Proof.
  destruct (@last_registration_wins ascii_case_table false true heals_table
              []
              [ (lit "Healing", old_heals, lit "support") ]
              [ (lit "Healing", boosts, lit "captain");
                (lit "Healing", boosts, lit "superSpecial") ]
              (lit "Healing", heals, lit "support")
              (lit "Healing", recovers, lit "support")
              (lit "support") (lit "Healing") (lit "Heals"))
    as ((e & L & Hn & Ht & Hg & _ & Hre & Hs & _) & H2 & _).
  - vm_compute. reflexivity.
  - vm_compute. reflexivity.
  - vm_compute. reflexivity.
  - vm_compute. reflexivity.
  - intros r [<-|[<-|[]]]; vm_compute; reflexivity.
  - split; [|exact H2].
    exists e. split; [exact L|]. split; [exact Hn|]. split; [exact Ht|].
    split; [exact Hg|]. split; [exact Hre | exact Hs].
Defined.

Lemma target_placeholder_replaced_witness :
  newName ascii_case_table boosts (lit "captain") = lit "Boosts captains"
  /\ newName ascii_case_table boosts (lit "superSpecial")
     = lit "Boosts super specials".
Proof.
  split.
  - destruct (@target_placeholder_replaced ascii_case_table boosts
                (lit "captain") (lit "Healing") eq_refl)
      as (_ & H & _).
    rewrite H by discriminate. vm_compute. reflexivity.
  - destruct (@target_placeholder_replaced ascii_case_table boosts
                (lit "superSpecial") (lit "Healing") eq_refl)
      as (_ & _ & H & _).
    destruct (H eq_refl) as [H' _]. rewrite H'. vm_compute. reflexivity.
Defined.

(** A group with the names "10" and "9". *)
Definition numbered_table : obj (list matcher) :=
  obj_literal
    [ (lit "Numbers",
       [ rule "10" [lit "captain"] "ten";
         rule "9" [lit "captain"] "nine" ]) ].

(** C4, where it fails: the names "10" and "9" are array indices, and the
    sorted object enumerates them as "9", "10", although "10" is less than
    "9" as a string. *)
Lemma index_names_enumerate_numerically :
  exists of_target of_group,
    get (window_matchers (build ascii_case_table false alphabeticalOrder
                                numbered_table))
        (lit "captain") = Some of_target
    /\ get of_target (lit "Numbers") = Some of_group
    /\ keys of_group = [lit "9"; lit "10"]
    /\ str_ltb (lit "10") (lit "9") = true
    /\ str_ltb (lit "9") (lit "10") = false.
Proof.
  do 2 eexists. split; [vm_compute; reflexivity|].
  split; [vm_compute; reflexivity|].
  repeat split; vm_compute; reflexivity.
Qed.

(** A group whose three names are not in order in the table. *)
Definition charlie : matcher := rule "Charlie" [lit "captain"] "c".
Definition alpha : matcher := rule "alpha" [lit "captain"] "a".
Definition bravo : matcher := rule "Bravo" [lit "captain"] "b".

Definition unordered_table : obj (list matcher) :=
  obj_literal [ (lit "Crew", [ charlie; alpha; bravo ]) ].

Lemma groups_sorted_without_index_names_witness :
  exists of_target of_group unsorted_target unsorted,
    get (window_matchers (build ascii_case_table false alphabeticalOrder
                                unordered_table))
        (lit "captain") = Some of_target
    /\ get of_target (lit "Crew") = Some of_group
    /\ get (window_matchers (build ascii_case_table false false
                                   unordered_table))
           (lit "captain") = Some unsorted_target
    /\ get unsorted_target (lit "Crew") = Some unsorted
    /\ map fst unsorted = [lit "Charlie"; lit "alpha"; lit "Bravo"]
    /\ keys of_group = [lit "Bravo"; lit "Charlie"; lit "alpha"]
    /\ StronglySorted str_lt (keys of_group)
    /\ Permutation of_group unsorted.
Proof.
  assert (Gt : get (window_matchers
                      (build ascii_case_table false alphabeticalOrder
                             unordered_table)) (lit "captain")
               = Some [(lit "Crew",
                        [(lit "Bravo",
                          matcherCopy ascii_case_table bravo
                            (lit "captain") (lit "Crew"));
                         (lit "Charlie",
                          matcherCopy ascii_case_table charlie
                            (lit "captain") (lit "Crew"));
                         (lit "alpha",
                          matcherCopy ascii_case_table alpha
                            (lit "captain") (lit "Crew"))])])
    by (vm_compute; reflexivity).
  destruct (@groups_sorted_without_index_names ascii_case_table false
              unordered_table (lit "captain") (lit "Crew") _ _ Gt eq_refl)
    as [(ut & ug & Gut & Gug & _ & Pm & _) S].
  do 2 eexists. exists ut, ug.
  split; [exact Gt|]. split; [reflexivity|].
  split; [exact Gut|]. split; [exact Gug|].
  split.
  { vm_compute in Gut. injection Gut as <-.
    vm_compute in Gug. injection Gug as <-.
    vm_compute. reflexivity. }
  split; [vm_compute; reflexivity|].
  split; [|exact Pm].
  apply S. vm_compute. reflexivity.
Defined.

Definition all_orbs : list jsstring :=
  [ lit "STR"; lit "DEX"; lit "QCK"; lit "PSY"; lit "INT"; lit "G";
    lit "RCV"; lit "TND"; lit "BOMB"; lit "EMPTY"; lit "SUPERBOMB";
    lit "RAINBOW"; lit "SEMLA"; lit "WANO" ].

Lemma module_init_plain :
  Forall plain (types module_init) /\ Forall plain (classes module_init)
  /\ Forall plain all_orbs.
Proof. repeat split; repeat constructor. Qed.

Lemma option_set_one_per_entry_witness :
  exists subs,
    createOrbsSubmatchers all_orbs [1] None None module_init
    = Some (subs, module_init)
    /\ Forall2 (fun id sm =>
                  option_for ascii_case_table [1] true modu
                             (lit "[" ++ id ++ lit "]") sm
                  /\ (inherited id = false ->
                      description sm
                      = Some (or_else (get (orbKoMap module_init) id) id)))
               all_orbs subs
    /\ map description (firstn 7 subs)
       = [ Some [0xD798]%N; Some [0xAE30]%N; Some [0xC18D]%N;
           Some [0xC2EC]%N; Some [0xC9C0]%N; Some (lit "G");
           Some [0xACE0; 0xAE30]%N ].
Proof.
  destruct module_init_plain as (Pt & Pc & Po).
  destruct (@option_set_one_per_entry ascii_case_table module_init all_orbs
              [1] None None Pt Pc Po)
    as (_ & _ & subs & E & F).
  - intros _ u E. discriminate E.
  - exists subs. split; [exact E|]. split; [exact F|].
    clear F. vm_compute in E. injection E as <-.
    vm_compute. reflexivity.
Defined.

(** C6, where it fails: the id "G+" goes into the pattern as it stands, so
    the RegExp does not find "[G+]" and finds "[GG]". *)
Lemma metacharacter_id_not_escaped :
  exists sm R,
    createOrbsSubmatchers [lit "G+"] [1] (Some false) None module_init
    = Some ([sm], module_init)
    /\ regex sm = Some R
    /\ source R = lit "\[G+\]"
    /\ fst (test ascii_case_table R (lit "[G+]")) = false
    /\ fst (test ascii_case_table R (lit "[GG]")) = true.
Proof.
  do 2 eexists. split; [vm_compute; reflexivity|].
  split; [reflexivity|].
  repeat split; vm_compute; reflexivity.
Qed.

Lemma ids_interpolated_verbatim_witness :
  (exists subs,
      createOrbsSubmatchers [lit "G+"; lit "STR"] [1] (Some false) None
                            module_init
      = Some (subs, module_init)
      /\ Forall2 (fun id sm =>
                    exists R,
                      regex sm = Some R
                      /\ made_from (lit "\[" ++ id ++ lit "\]" ++ []) R)
                 [lit "G+"; lit "STR"] subs)
  /\ (exists subs,
         createClassesSubmatchers [1] (Some false) None module_init
         = Some (subs, module_init)
         /\ Forall2 (fun id sm =>
                       exists R,
                         regex sm = Some R
                         /\ original_source R = id
                         /\ forall text_,
                              fst (test ascii_case_table R text_)
                              = occurs ascii_case_table flags_i id text_)
                    (classes module_init) subs).
Proof.
  destruct (@ids_interpolated_verbatim ascii_case_table module_init
              [lit "G+"; lit "STR"] [1] (Some false) None)
    as (Ho & _ & _ & Hc).
  split.
  - assert (E : createOrbsSubmatchers [lit "G+"; lit "STR"] [1] (Some false)
                                      None module_init
                = Some (match createOrbsSubmatchers [lit "G+"; lit "STR"] [1]
                                (Some false) None module_init with
                        | Some (subs, _) => subs
                        | None => []
                        end, module_init))
      by (vm_compute; reflexivity).
    eexists. split; [exact E|]. exact (Ho _ _ E).
  - apply Hc. apply module_init_plain.
Defined.

Lemma every_target_has_a_mapping_witness :
  get (window_matchers (build ascii_case_table false true heals_table))
      (lit "limit") = Some [].
Proof.
  destruct (@every_target_has_a_mapping ascii_case_table false true
              heals_table (lit "limit"))
    as (o & G & E).
  - vm_compute. tauto.
  - rewrite G. f_equal. apply E.
    intros r Hin _.
    vm_compute in Hin.
    repeat (destruct Hin as [<-|Hin]; [discriminate|]). destruct Hin.
Defined.

(** ** Concrete runs of the further properties *)

Lemma entries_know_their_place_witness :
  target (matcherCopy ascii_case_table recovers (lit "support")
                      (lit "Healing")) = Some (lit "support")
  /\ group (matcherCopy ascii_case_table recovers (lit "support")
                        (lit "Healing")) = Some (lit "Healing")
  /\ name (matcherCopy ascii_case_table recovers (lit "support")
                       (lit "Healing")) = lit "Heals"
  /\ exists mt,
       In mt (or_default [] (get heals_table (lit "Healing")))
       /\ In (lit "support") (targets mt)
       /\ skipped ascii_case_table false mt = false
       /\ lit "Heals" = newName ascii_case_table mt (lit "support")
       /\ targets (matcherCopy ascii_case_table recovers (lit "support")
                               (lit "Healing")) = targets mt
       /\ matcher_regex (matcherCopy ascii_case_table recovers
                                     (lit "support") (lit "Healing"))
          = matcher_regex mt
       /\ submatchers (matcherCopy ascii_case_table recovers (lit "support")
                                   (lit "Healing")) = submatchers mt
       /\ include (matcherCopy ascii_case_table recovers (lit "support")
                               (lit "Healing")) = include mt.
Proof.
  apply (@entries_know_their_place ascii_case_table false true heals_table
           (lit "support") (lit "Healing") (lit "Heals")).
  vm_compute. reflexivity.
Defined.

Lemma every_registration_is_stored_or_reported_witness :
  count_entries
    (window_matchers (build ascii_case_table false true heals_table))
  + length (console_error (build ascii_case_table false true heals_table))
  = 4.
Proof.
  rewrite (@every_registration_is_stored_or_reported ascii_case_table false
             true heals_table)
    by (vm_compute; reflexivity).
  vm_compute. reflexivity.
Defined.

Lemma diagnostics_only_for_collisions_witness :
  exists before r1 between r2 after t g n,
    registrations heals_table = before ++ r1 :: between ++ r2 :: after
    /\ hits ascii_case_table false t g n r1 = true
    /\ hits ascii_case_table false t g n r2 = true
    /\ lit "Duplicate matcher " ++ [34%N] ++ lit "Heals" ++ [34%N]
       = lit "Duplicate matcher " ++ [34%N] ++ n ++ [34%N].
Proof.
  apply (@diagnostics_only_for_collisions ascii_case_table false true
           heals_table
           (lit "Duplicate matcher " ++ [34%N] ++ lit "Heals" ++ [34%N])).
  - vm_compute. reflexivity.
  - vm_compute. left. reflexivity.
Defined.

(** A matcher for a target that is not declared. *)
Definition crew_table : obj (list matcher) :=
  obj_literal
    [ (lit "Zeta", [ rule "Boosts ATK" [lit "crew"; lit "sailor"] "atk" ]) ].

Lemma targets_enumerate_in_declared_order_witness :
  map fst (window_matchers (build ascii_case_table false true crew_table))
  = allTargets ++ [lit "crew"]
  /\ keys (window_matchers (build ascii_case_table false true crew_table))
     = allTargets ++ [lit "crew"].
Proof.
  destruct (@targets_enumerate_in_declared_order ascii_case_table false true
              crew_table)
    as (later & E & _ & K).
  - vm_compute. reflexivity.
  - assert (E2 : map fst (window_matchers
                            (build ascii_case_table false true crew_table))
                 = allTargets ++ [lit "crew"])
      by (vm_compute; reflexivity).
    rewrite E2 in E. apply app_inv_head in E. subst later.
    split; [exact E2|]. apply K. vm_compute. reflexivity.
Defined.

Lemma groups_hold_registered_rules_witness :
  exists of_target of_group e,
    get (window_matchers (build ascii_case_table false true heals_table))
        (lit "support")
    = Some of_target
    /\ get of_target (lit "Healing") = Some of_group
    /\ get of_group (newName ascii_case_table recovers (lit "support"))
       = Some e.
Proof.
  destruct (@groups_hold_registered_rules ascii_case_table false true
              heals_table (lit "support") (lit "Healing"))
    as [_ H].
  - vm_compute. reflexivity.
  - apply (H recovers).
    + change (In recovers [heals; old_heals; recovers; boosts]).
      right. right. left. reflexivity.
    + left. reflexivity.
    + vm_compute. reflexivity.
Defined.

(** Three groups, not in alphabetical order; the last one has no matcher
    for the target "captain". *)
Definition grouped_table : obj (list matcher) :=
  obj_literal
    [ (lit "Zeta", [ rule "Boosts ATK" [lit "captain"; lit "sailor"] "atk" ]);
      (lit "Alpha", [ rule "old Boosts HP" [lit "captain"] "hp";
                      rule "Boosts RCV" [lit "captain"] "rcv" ]);
      (lit "Beta", [ rule "Heals" [lit "sailor"] "heals" ]) ].

Lemma groups_enumerate_in_table_order_witness :
  exists of_target,
    get (window_matchers (build ascii_case_table false true grouped_table))
        (lit "captain") = Some of_target
    /\ map fst of_target = [lit "Zeta"; lit "Alpha"]
    /\ keys of_target = [lit "Zeta"; lit "Alpha"].
Proof.
  destruct (get (window_matchers
                   (build ascii_case_table false true grouped_table))
                (lit "captain")) as [ot|] eqn:G;
    [|vm_compute in G; discriminate].
  exists ot. split; [reflexivity|].
  assert (O : own_keys_only ascii_case_table false grouped_table = true)
    by (vm_compute; reflexivity).
  destruct (@groups_enumerate_in_table_order ascii_case_table false true
              grouped_table (lit "captain") ot O
              (NoDup_obj_literal _) G) as [E K].
  split.
  - rewrite E. vm_compute. reflexivity.
  - rewrite K by (vm_compute; reflexivity). vm_compute. reflexivity.
Defined.

Lemma sortObj_idempotent_witness :
  sortObj (sortObj (obj_literal [ (lit "b", boosts); (lit "a", heals) ]))
  = sortObj (obj_literal [ (lit "b", boosts); (lit "a", heals) ]).
Proof.
  apply sortObj_idempotent. apply NoDup_obj_literal.
Defined.

Lemma name_without_placeholder_is_kept_witness :
  newName ascii_case_table heals (lit "superSpecial") = name heals
  /\ name (matcherCopy ascii_case_table heals (lit "superSpecial")
                       (lit "Healing")) = name heals.
Proof.
  apply name_without_placeholder_is_kept. vm_compute. reflexivity.
Defined.

Lemma positions_by_rows_and_columns_witness :
  exists subs,
    createPositionsSubmatchers [1] (Some false) None
                               (Some [lit "Self"; lit "top"]) None
                               module_init
    = Some (subs, module_init)
    /\ Forall2
         (fun entry sm =>
            matching_option ascii_case_table [1]
              (fun text_ =>
                 finds_any ascii_case_table (snd entry) text_
                 || (if or_default true (Some false)
                     then universal_test ascii_case_table
                                         (or_default modu None) text_
                     else false)) sm)
         (filter (fun entry =>
                    negb (includes (or_default []
                                      (Some [lit "Self"; lit "top"]))
                                   (fst entry)))
                 position_names)
         subs.
Proof.
  apply (@positions_by_rows_and_columns ascii_case_table module_init [1]
           (Some false) None (Some [lit "Self"; lit "top"]) None).
  - discriminate.
  - intros H. exfalso. apply H. reflexivity.
Defined.

Lemma positions_by_cells_witness :
  exists board others,
    createPositionsSubmatchers [1] None (Some (lit "all|any"))
                               (Some [lit "Top"; lit "Adjacent"])
                               (Some false) module_init
    = Some (board ++ others, module_init)
    /\ Forall2
         (fun cell sm =>
            matching_option ascii_case_table [1]
              (fun text_ =>
                 snd cell text_
                 || universal_test ascii_case_table (lit "all|any") text_) sm
            /\ exists R,
                 regex sm = Some R
                 /\ original_source R = fst cell ++ lit "|" ++ lit "all|any")
         (cells ascii_case_table) board
    /\ Forall2
         (fun entry sm =>
            matching_option ascii_case_table [1]
              (fun text_ =>
                 finds_any ascii_case_table (snd entry) text_
                 || universal_test ascii_case_table (lit "all|any") text_) sm)
         [ (lit "Selected", [lit "selected"]);
           (lit "Self", [lit "this"; lit "own"; lit "supported"]) ]
         others.
Proof.
  apply (@positions_by_cells ascii_case_table module_init [1]
           None (Some (lit "all|any")) (Some [lit "Top"; lit "Adjacent"])).
  intros _ u E. injection E as <-. vm_compute. discriminate.
Defined.

(** A state of the module with other classes and without descriptions of
    orbs and classes; its types and their descriptions are those of the
    module. *)
Definition other_module : module_state := {|
  orbKoMap := [];
  typeKoMap := typeKoMap module_init;
  classKoMap := [];
  types := types module_init;
  classes := [lit "Fighter"]
|}.

Lemma generators_are_pure_witness :
  exists subs,
    createTypesSubmatchers [1] None None module_init
    = Some (subs, module_init)
    /\ createTypesSubmatchers [1] None None other_module
       = Some (subs, other_module)
    /\ Forall (untouched_by_use ascii_case_table) subs.
Proof.
  destruct (@generators_are_pure ascii_case_table module_init other_module
              all_orbs [1] None None None None)
    as (H & _).
  - intros _ u E. discriminate E.
  - apply H; [apply module_init_plain | reflexivity | reflexivity].
Defined.

Lemma empty_universal_pattern_finds_everything_witness :
  exists subs,
    createOrbsSubmatchers all_orbs [1] None (Some []) module_init
    = Some (subs, module_init)
    /\ length subs = length all_orbs
    /\ Forall (finds_everything ascii_case_table) subs.
Proof.
  destruct module_init_plain as (Pt & Pc & Po).
  destruct (@empty_universal_pattern_finds_everything ascii_case_table
              module_init all_orbs [1] None)
    as (_ & _ & H); try assumption.
  discriminate.
Defined.

Lemma sorted_names_enumerate_indices_first_witness :
  exists indices others,
    keys (sortObj (obj_literal [ (lit "b", boosts); (lit "10", heals);
                                 (lit "a", recovers); (lit "9", old_heals) ]))
    = indices ++ others
    /\ Forall (fun k => is_array_index k = true) indices
    /\ Sorted index_le indices
    /\ Forall (fun k => is_array_index k = false) others
    /\ StronglySorted str_lt others
    /\ Permutation (indices ++ others)
                   (map fst (obj_literal [ (lit "b", boosts);
                                           (lit "10", heals);
                                           (lit "a", recovers);
                                           (lit "9", old_heals) ])).
Proof.
  apply sorted_names_enumerate_indices_first. apply NoDup_obj_literal.
Defined.
